(** * sbepp runtime support layer: a shallow embedding of [sbepp.hpp]

    The development follows the header top-down: machine integers and the
    endian-aware primitive codec ([byteswap], [get_primitive],
    [set_primitive]), byte ranges and the size-check macro, cursors and their
    wrappers, iterators and groups, bitsets, dynamic arrays, optional
    wrappers, and the size-validating visitor.

    Conventions.
    - A [w]-bit C++ integer is a [Z]; conversions to an unsigned or signed
      type are written out ([to_unsigned], [to_signed]).
    - Memory is a flat map from addresses to bytes; a pointer is an address.
    - The value type of an optional wrapper is a parameter with its
      comparison operators: [Z] for the integer types, the kernel's binary64
      numbers for [double].
    - A function that can call [assertion_failed] (which does not return)
      yields a [result]: either a value or the failure together with the
      memory at the moment of the failure. *)

From Stdlib Require Import ZArith List Bool Lia.
From Stdlib Require Floats.PrimFloat Floats.SpecFloat Floats.FloatAxioms.
Import ListNotations.
Local Open Scope Z_scope.

(* ===================================================================== *)
(** * Machine integers *)
(* ===================================================================== *)

(** Built-in SBE integer types ([SBEPP_BUILT_IN_IMPL]). *)
Inductive prim_type : Type :=
| char_t | int8_t | uint8_t | int16_t | uint16_t
| int32_t | uint32_t | int64_t | uint64_t.

(** [sizeof(T)]. *)
Definition sizeof (T : prim_type) : Z :=
  match T with
  | char_t | int8_t | uint8_t => 1
  | int16_t | uint16_t => 2
  | int32_t | uint32_t => 4
  | int64_t | uint64_t => 8
  end.

(** [std::is_signed<T>]; plain [char] is taken as signed. *)
Definition is_signed (T : prim_type) : bool :=
  match T with
  | char_t | int8_t | int16_t | int32_t | int64_t => true
  | uint8_t | uint16_t | uint32_t | uint64_t => false
  end.

Definition bits (T : prim_type) : Z := 8 * sizeof T.

(** [static_cast] to the unsigned type of [w] bits. *)
Definition to_unsigned (w : Z) (v : Z) : Z := v mod 2 ^ w.

(** [static_cast] to the signed type of [w] bits (two's complement). *)
Definition to_signed (w : Z) (v : Z) : Z :=
  let u := v mod 2 ^ w in
  if u <? 2 ^ (w - 1) then u else u - 2 ^ w.

(** [static_cast<T>(v)]. *)
Definition cast (T : prim_type) (v : Z) : Z :=
  if is_signed T then to_signed (bits T) v else to_unsigned (bits T) v.

(** The values a variable of type [T] can hold. *)
Definition in_type (T : prim_type) (v : Z) : Prop :=
  if is_signed T
  then - 2 ^ (bits T - 1) <= v < 2 ^ (bits T - 1)
  else 0 <= v < 2 ^ bits T.

(** [sbepp::endian]; [native] is an alias of one of the two enumerators. *)
Inductive endian : Type := little | big.

Definition endian_eqb (a b : endian) : bool :=
  match a, b with
  | little, little | big, big => true
  | _, _ => false
  end.

(* ===================================================================== *)
(** * Portable [byteswap] (lines 438-461) *)
(* ===================================================================== *)

Definition byteswap64 (v : Z) : Z :=
  Z.lor (Z.lor (Z.lor (Z.lor (Z.lor (Z.lor (Z.lor
    (Z.shiftl (Z.land v 0x00000000000000FF) 56)
    (Z.shiftl (Z.land v 0x000000000000FF00) 40))
    (Z.shiftl (Z.land v 0x0000000000FF0000) 24))
    (Z.shiftl (Z.land v 0x00000000FF000000) 8))
    (Z.shiftr (Z.land v 0x000000FF00000000) 8))
    (Z.shiftr (Z.land v 0x0000FF0000000000) 24))
    (Z.shiftr (Z.land v 0x00FF000000000000) 40))
    (Z.shiftr (Z.land v 0xFF00000000000000) 56).

Definition byteswap32 (v : Z) : Z :=
  Z.lor (Z.lor (Z.lor
    (Z.shiftl (Z.land v 0x000000FF) 24)
    (Z.shiftl (Z.land v 0x0000FF00) 8))
    (Z.shiftr (Z.land v 0x00FF0000) 8))
    (Z.shiftr (Z.land v 0xFF000000) 24).

Definition byteswap16 (v : Z) : Z :=
  Z.lor (Z.shiftl (Z.land v 0x00FF) 8) (Z.shiftr (Z.land v 0xFF00) 8).

(** Overload resolution on the unsigned type of the given size.  The
    single-byte overload is declared but never defined nor called
    ([sizeof(T) == 1] is tested first); it is the identity here. *)
Definition byteswap (size : Z) (v : Z) : Z :=
  if size =? 8 then byteswap64 v
  else if size =? 4 then byteswap32 v
  else if size =? 2 then byteswap16 v
  else v.

(* ===================================================================== *)
(** * Memory and object representation *)
(* ===================================================================== *)

(** Caller-owned memory: a byte at every address. *)
Definition memory : Type := Z -> Z.

Definition store_byte (m : memory) (p : Z) (b : Z) : memory :=
  fun a => if a =? p then b else m a.

(** [n] consecutive bytes starting at [p]. *)
Fixpoint load_bytes (m : memory) (p : Z) (n : nat) : list Z :=
  match n with
  | O => []
  | S k => m p :: load_bytes m (p + 1) k
  end.

Fixpoint store_bytes (m : memory) (p : Z) (bs : list Z) : memory :=
  match bs with
  | [] => m
  | b :: rest => store_bytes (store_byte m p b) (p + 1) rest
  end.

(** Little-endian digits of an unsigned value. *)
Fixpoint le_bytes (n : nat) (u : Z) : list Z :=
  match n with
  | O => []
  | S k => (u mod 256) :: le_bytes k (u / 256)
  end.

Fixpoint le_value (bs : list Z) : Z :=
  match bs with
  | [] => 0
  | b :: rest => b + 256 * le_value rest
  end.

Section Codec.

(** [endian::native] of the platform the code is compiled for. *)
Variable native : endian.

(** The bytes of an object of [n] bytes holding the bit pattern [u]. *)
Definition object_repr (n : nat) (u : Z) : list Z :=
  match native with
  | little => le_bytes n u
  | big => rev (le_bytes n u)
  end.

(** The bit pattern held by an object with the given bytes. *)
Definition object_value (bs : list Z) : Z :=
  match native with
  | little => le_value bs
  | big => le_value (rev bs)
  end.

(** [T res; std::memcpy(&res, ptr, sizeof(T));] *)
Definition memcpy_load (T : prim_type) (m : memory) (ptr : Z) : Z :=
  cast T (object_value (load_bytes m ptr (Z.to_nat (sizeof T)))).

(** [std::memcpy(ptr, &value, sizeof(T));] *)
Definition memcpy_store (T : prim_type) (m : memory) (ptr : Z) (value : Z)
  : memory :=
  store_bytes m ptr
    (object_repr (Z.to_nat (sizeof T)) (to_unsigned (bits T) value)).

(** [get_primitive<T, E>(ptr)], [memcpy]/[byteswap] branch. *)
Definition get_primitive (T : prim_type) (E : endian) (m : memory) (ptr : Z)
  : Z :=
  let res := memcpy_load T m ptr in
  if endian_eqb E native || (sizeof T =? 1)
  then res
  else cast T (byteswap (sizeof T) (to_unsigned (bits T) res)).

(** [set_primitive<E>(ptr, value)], [memcpy]/[byteswap] branch. *)
Definition set_primitive (T : prim_type) (E : endian) (m : memory) (ptr : Z)
    (value : Z) : memory :=
  let value :=
    if negb (endian_eqb E native) && negb (sizeof T =? 1)
    then cast T (byteswap (sizeof T) (to_unsigned (bits T) value))
    else value in
  memcpy_store T m ptr value.

(** [get_primitive], [std::bit_cast] branch: the bytes are copied or
    reverse-copied into an array that is reinterpreted as [T]. *)
Definition get_primitive_bitcast (T : prim_type) (E : endian) (m : memory)
    (ptr : Z) : Z :=
  let src := load_bytes m ptr (Z.to_nat (sizeof T)) in
  let arr := if endian_eqb E native || (sizeof T =? 1) then src else rev src in
  cast T (object_value arr).

(** [set_primitive], [std::bit_cast] branch. *)
Definition set_primitive_bitcast (T : prim_type) (E : endian) (m : memory)
    (ptr : Z) (value : Z) : memory :=
  let arr := object_repr (Z.to_nat (sizeof T)) (to_unsigned (bits T) value) in
  store_bytes m ptr
    (if endian_eqb E native || (sizeof T =? 1) then arr else rev arr).

End Codec.

(* ===================================================================== *)
(** * [bitset_base<T>] (lines 2549-2604) *)
(* ===================================================================== *)

Module bitset_base.

(** Width of [int], the type of the literal [1] and of a promoted [bool]
    or [choice_index_t]. *)
Definition int_bits : Z := 32.

(** [a << n] on [int] operands.  A shift count outside [0, 32) has no
    defined result; otherwise the result is the product reduced to [int]
    (so [1 << 31] is [INT_MIN]). *)
Definition shl_int (a n : Z) : option Z :=
  if (0 <=? n) && (n <? int_bits)
  then Some (to_signed int_bits (Z.shiftl a n))
  else None.

(** Usual arithmetic conversions for [bits OP x] where [bits : T] is
    unsigned and [x : int]: a [T] narrower than [int] is promoted to [int]
    and [x] stays as it is; otherwise [x] is converted to [T]. *)
Definition convert_int (T : prim_type) (x : Z) : Z :=
  if bits T <? int_bits then x else to_unsigned (bits T) x.

(** [operator()(get_bit_tag, n)]: [return bits & (1 << n);] *)
Definition get_bit (T : prim_type) (bits_ : Z) (n : Z) : option bool :=
  match shl_int 1 n with
  | Some mask => Some (negb (Z.land bits_ (convert_int T mask) =? 0))
  | None => None
  end.

(** [operator()(set_bit_tag, n, b)]:
    [bits = ((bits & ~(1 << n)) | (b << n));] *)
Definition set_bit (T : prim_type) (bits_ : Z) (n : Z) (b : bool)
  : option Z :=
  match shl_int 1 n, shl_int (Z.b2z b) n with
  | Some mask, Some bit =>
      Some (to_unsigned (bits T)
              (Z.lor (Z.land bits_ (convert_int T (Z.lnot mask)))
                     (convert_int T bit)))
  | _, _ => None
  end.

(** The indices at which the [int] arithmetic of the two accessors is exact:
    every index of a bitset of at most 32 bits, and the indices below 31 of a
    64-bit bitset. *)
Definition exact_index (T : prim_type) (n : Z) : Prop :=
  is_signed T = false /\ 0 <= n < bits T /\ (bits T <= 32 \/ n < 31).

End bitset_base.

(* ===================================================================== *)
(** * [optional_base<T, Derived>] (lines 3372-3504) *)
(* ===================================================================== *)

(** The built-in operators [==], [<] and [<=] of the value type [T].  For
    every arithmetic type of C++, the floating-point ones included,
    [a != b] is [!(a == b)], [a > b] is [b < a] and [a >= b] is [b <= a]. *)
Record value_operators (T : Type) : Type := {
  equal : T -> T -> bool;
  less : T -> T -> bool;
  less_equal : T -> T -> bool
}.

Arguments equal {T} _ _ _.
Arguments less {T} _ _ _.
Arguments less_equal {T} _ _ _.

(** The integer value types. *)
Definition integer_operators : value_operators Z :=
  {| equal := Z.eqb; less := Z.ltb; less_equal := Z.leb |}.

(** [double], an IEEE 754 binary64 number: every comparison with a NaN
    operand is false, so [x != NaN] is true for every [x]. *)
Definition double_operators : value_operators PrimFloat.float :=
  {| equal := PrimFloat.eqb;
     less := PrimFloat.ltb;
     less_equal := PrimFloat.leb |}.

(** The static members a derived optional type provides. *)
Record optional_traits (T : Type) : Type := {
  min_value : T;
  max_value : T;
  null_value : T
}.

Arguments min_value {T} _.
Arguments max_value {T} _.
Arguments null_value {T} _.

(** [std::numeric_limits<double>]. *)
Module numeric_limits_double.
Import PrimFloat.

Definition min : float := 0x1p-1022%float.

Definition max : float := 0x1.fffffffffffffp+1023%float.

Definition quiet_NaN : float := nan.

End numeric_limits_double.

(** [SBEPP_BUILT_IN_IMPL(uint8, std::uint8_t, min, max - 1, max)] (lines
    4197-4202): the attributes of [uint8_opt_t]. *)
Definition uint8_opt_t : optional_traits Z :=
  {| min_value := 0; max_value := 254; null_value := 255 |}.

(** [SBEPP_BUILT_IN_IMPL(double, double, min, max, quiet_NaN)] (lines
    4245-4250): the attributes of [double_opt_t]; [float_opt_t] has the
    same null value. *)
Definition double_opt_t : optional_traits PrimFloat.float :=
  {| min_value := numeric_limits_double.min;
     max_value := numeric_limits_double.max;
     null_value := numeric_limits_double.quiet_NaN |}.

Module optional_base.
Section WithTraits.

(** [value_type] and its operators. *)
Variable T : Type.
Variable operators : value_operators T.

Variable Derived : optional_traits T.

Record t : Type := { val : T }.

(** [optional_base() = default;] with [value_type val{Derived::null_value()}]. *)
Definition default : t := {| val := null_value Derived |}.

(** [optional_base(nullopt_t) : optional_base{}] *)
Definition of_nullopt : t := default.

(** [optional_base(value_type val) : val{val}] *)
Definition of_value (v : T) : t := {| val := v |}.

Definition value (o : t) : T := val o.

Definition in_range (o : t) : bool :=
  less_equal operators (min_value Derived) (val o)
  && less_equal operators (val o) (max_value Derived).

(** [return (val != Derived::null_value());] *)
Definition has_value (o : t) : bool :=
  negb (equal operators (val o) (null_value Derived)).

Definition value_or (o : t) (default_value : T) : T :=
  if has_value o then value o else default_value.

(** [return *lhs == *rhs;] *)
Definition eq (lhs rhs : t) : bool := equal operators (val lhs) (val rhs).

(** [return *lhs != *rhs;] *)
Definition ne (lhs rhs : t) : bool :=
  negb (equal operators (val lhs) (val rhs)).

(** [return rhs && (!lhs || ( *lhs < *rhs));] *)
Definition lt (lhs rhs : t) : bool :=
  has_value rhs
  && (negb (has_value lhs) || less operators (val lhs) (val rhs)).

(** [return !lhs || (rhs && ( *lhs <= *rhs));] *)
Definition le (lhs rhs : t) : bool :=
  negb (has_value lhs)
  || (has_value rhs && less_equal operators (val lhs) (val rhs)).

(** [return lhs && (!rhs || ( *lhs > *rhs));] *)
Definition gt (lhs rhs : t) : bool :=
  has_value lhs
  && (negb (has_value rhs) || less operators (val rhs) (val lhs)).

(** [return !rhs || (lhs && ( *lhs >= *rhs));] *)
Definition ge (lhs rhs : t) : bool :=
  negb (has_value rhs)
  || (has_value lhs && less_equal operators (val rhs) (val lhs)).

(** [operator<=>] returns [std::strong_ordering], which [*lhs <=> *rhs]
    gives for the integer value types; [three_way_compare] is that
    comparison. *)
Variable three_way_compare : T -> T -> comparison.

Definition three_way (lhs rhs : t) : comparison :=
  if has_value lhs && has_value rhs
  then three_way_compare (val lhs) (val rhs)
  else Bool.compare (has_value lhs) (has_value rhs).

End WithTraits.

Arguments val {T} _.
Arguments default {T} _.
Arguments of_nullopt {T} _.
Arguments of_value {T} _.
Arguments value {T} _.
Arguments in_range {T} _ _ _.
Arguments has_value {T} _ _ _.
Arguments value_or {T} _ _ _ _.
Arguments eq {T} _ _ _.
Arguments ne {T} _ _ _.
Arguments lt {T} _ _ _ _.
Arguments le {T} _ _ _ _.
Arguments gt {T} _ _ _ _.
Arguments ge {T} _ _ _ _.
Arguments three_way {T} _ _ _ _ _.

End optional_base.

(* ===================================================================== *)
(** * Assertions, size checks and byte ranges (lines 211-246, 635-695) *)
(* ===================================================================== *)

(** A read that may call [assertion_failed] is an [option]; the notation
    sequences such reads. *)
Definition obind {A B : Type} (x : option A) (f : A -> option B) : option B :=
  match x with
  | Some a => f a
  | None => None
  end.

Notation "x <- e ;; k" := (obind e (fun x => k))
  (at level 61, e at next level, right associativity).
Notation "e ;;; k" := (obind e (fun _ => k))
  (at level 61, right associativity).

(** The outcome of a member function that writes to the buffer: it returns
    normally, or [assertion_failed] (which is [[noreturn]]) is called; either
    way the memory at that moment is kept. *)
Inductive result (A : Type) : Type :=
| Ok (a : A) (m : memory)
| AssertionFailed (m : memory).

Arguments Ok {A} a m.
Arguments AssertionFailed {A} m.

Definition M (A : Type) : Type := memory -> result A.

Definition ret {A : Type} (a : A) : M A := fun m => Ok a m.

Definition bind {A B : Type} (c : M A) (f : A -> M B) : M B :=
  fun m =>
    match c m with
    | Ok a m' => f a m'
    | AssertionFailed m' => AssertionFailed m'
    end.

(** A read, run on the current memory. *)
Definition lift {A : Type} (r : memory -> option A) : M A :=
  fun m =>
    match r m with
    | Some a => Ok a m
    | None => AssertionFailed m
    end.

(** An assignment through a pointer or a standard algorithm. *)
Definition write (f : memory -> memory) : M unit := fun m => Ok tt (f m).

Notation "x <~ c ;; k" := (bind c (fun x => k))
  (at level 61, c at next level, right associativity).
Notation "c ;;~ k" := (bind c (fun _ => k))
  (at level 61, right associativity).

(** [std::size_t] is 64 bits wide. *)
Definition size_t_bits : Z := 64.

(** [detail::byte_range<Byte>]: [begin], and [end] when size checks are
    compiled in. *)
Record byte_range : Type := {
  range_begin : Z;
  range_end : Z
}.

(** [std::copy(first, last, d_first)] on byte pointers. *)
Fixpoint copy_loop (n : nat) (m : memory) (first d_first : Z) : memory :=
  match n with
  | O => m
  | S k => copy_loop k (store_byte m d_first (m first)) (first + 1) (d_first + 1)
  end.

Definition std_copy (first last d_first : Z) (m : memory) : memory :=
  copy_loop (Z.to_nat (last - first)) m first d_first.

(** [std::copy_backward(first, last, d_last)]. *)
Fixpoint copy_backward_loop (n : nat) (m : memory) (last d_last : Z) : memory :=
  match n with
  | O => m
  | S k =>
      copy_backward_loop k (store_byte m (d_last - 1) (m (last - 1)))
        (last - 1) (d_last - 1)
  end.

Definition std_copy_backward (first last d_last : Z) (m : memory) : memory :=
  copy_backward_loop (Z.to_nat (last - first)) m last d_last.

(** [std::fill_n(first, count, value)]. *)
Fixpoint fill_loop (n : nat) (m : memory) (first value : Z) : memory :=
  match n with
  | O => m
  | S k => fill_loop k (store_byte m first value) (first + 1) value
  end.

Definition std_fill_n (first count value : Z) (m : memory) : memory :=
  fill_loop (Z.to_nat count) m first value.

(** [std::copy] from a range outside the buffer, given by its elements. *)
Definition std_copy_from (xs : list Z) (d_first : Z) (m : memory) : memory :=
  store_bytes m d_first xs.

(** [std::iterator_traits<InputIt>::iterator_category], as far as
    [insert_impl] distinguishes it. *)
Inductive iterator_category : Type :=
| input_iterator_tag
| forward_iterator_tag.

Section Runtime.

(** [endian::native]. *)
Variable native : endian.

(** [SBEPP_SIZE_CHECKS_ENABLED]; [SBEPP_ASSERT] is active exactly when it
    is [1]. *)
Variable size_checks_enabled : bool.

(** [SBEPP_ASSERT(expr)]: when assertions are compiled out the expression is
    not evaluated. *)
Definition SBEPP_ASSERT (expr : option bool) : option unit :=
  if size_checks_enabled
  then match expr with
       | Some true => Some tt
       | _ => None
       end
  else Some tt.

(** The condition of [SBEPP_SIZE_CHECK(begin, end, offset, size)]:
    [(begin) && (((offset) + (size)) <= static_cast<std::size_t>((end) - (begin)))]. *)
Definition size_check_cond (begin_ end_ offset size : Z) : bool :=
  negb (begin_ =? 0)
  && (to_unsigned size_t_bits (offset + size)
      <=? to_unsigned size_t_bits (end_ - begin_)).

Definition SBEPP_SIZE_CHECK (begin_ end_ offset size : Z) : option unit :=
  SBEPP_ASSERT (Some (size_check_cond begin_ end_ offset size)).

(** [operator()(addressof_tag)]. *)
Definition addressof (view : byte_range) : Z := range_begin view.

(** [operator()(end_ptr_tag)]: [nullptr] when size checks are compiled out. *)
Definition end_ptr (view : byte_range) : Z :=
  if size_checks_enabled then range_end view else 0.

(** [detail::get_value<T, U, E>(view, offset)]; the wrapper type [T] only
    wraps the value read. *)
Definition get_value (U : prim_type) (E : endian) (view : byte_range)
    (offset : Z) (m : memory) : option Z :=
  SBEPP_SIZE_CHECK (addressof view) (end_ptr view) offset (sizeof U) ;;;
  Some (get_primitive native U E m (addressof view + offset)).

(** [detail::set_value<E>(view, offset, value)]. *)
Definition set_value (T : prim_type) (E : endian) (view : byte_range)
    (offset : Z) (value : Z) : M unit :=
  lift (fun _ =>
          SBEPP_SIZE_CHECK (addressof view) (end_ptr view) offset (sizeof T)) ;;~
  write (fun m => set_primitive native T E m (addressof view + offset) value).

End Runtime.

(* ===================================================================== *)
(** * [dynamic_array_ref<Byte, Value, Length, E>] (lines 2863-3247) *)
(* ===================================================================== *)

Module dynamic_array_ref.
Section WithParameters.

Variable native : endian.
Variable size_checks_enabled : bool.

(** [size_type], the value type of [Length]; [static_assert]ed unsigned. *)
Variable size_type : prim_type.

(** The schema's byte order. *)
Variable E : endian.

(** The array reference itself; elements are single bytes. *)
Variable this : byte_range.

(** Conversion of an arithmetic result to a [size_type] argument. *)
Definition as_size_type (v : Z) : Z := to_unsigned (bits size_type) v.

(** [SBEPP_SIZE_CHECK(addressof, end_ptr, 0, sizeof(size_type) + count)]. *)
Definition span_check (count : Z) : option unit :=
  SBEPP_SIZE_CHECK size_checks_enabled (addressof this)
    (end_ptr size_checks_enabled this) 0 (sizeof size_type + count).

Definition sbe_size (m : memory) : option Z :=
  get_value native size_checks_enabled size_type E this 0 m.

Definition size (m : memory) : option Z := sbe_size m.

Definition empty (m : memory) : option bool :=
  s <- size m ;; Some (s =? 0).

Definition data_unchecked : Z := addressof this + sizeof size_type.

Definition data_checked (m : memory) : option Z :=
  SBEPP_ASSERT size_checks_enabled
    (s <- size m ;;
     Some (size_check_cond (addressof this) (end_ptr size_checks_enabled this)
             0 (sizeof size_type + s))) ;;;
  Some data_unchecked.

Definition begin_ (m : memory) : option Z := data_checked m.

Definition end_ (m : memory) : option Z :=
  b <- begin_ m ;; s <- size m ;; Some (b + s).

Definition data (m : memory) : option Z :=
  SBEPP_ASSERT size_checks_enabled (e <- empty m ;; Some (negb e)) ;;;
  data_checked m.

(** [operator[](pos)]: the address of the element. *)
Definition index (pos : Z) (m : memory) : option Z :=
  SBEPP_ASSERT size_checks_enabled (s <- size m ;; Some (pos <? s)) ;;;
  d <- data m ;; Some (d + pos).

(** [resize(count, default_init)]. *)
Definition resize_default_init (count : Z) : M unit :=
  lift (fun _ => span_check count) ;;~
  write (fun m => set_primitive native size_type E m (addressof this) count).

Definition clear : M unit := resize_default_init 0.

(** [for(auto i = old_size; i != count; i++) operator[](i) = value;]
    with [n] iterations left. *)
Fixpoint init_loop (n : nat) (i : Z) (value : Z) : M unit :=
  match n with
  | O => ret tt
  | S k =>
      p <~ lift (index i) ;;
      write (fun m => store_byte m p value) ;;~
      init_loop k (as_size_type (i + 1)) value
  end.

(** [resize(count, value)]. *)
Definition resize_value (count value : Z) : M unit :=
  old_size <~ lift size ;;
  resize_default_init count ;;~
  if count >? old_size
  then init_loop (Z.to_nat (count - old_size)) old_size value
  else ret tt.

(** [resize(count)]: new elements are assigned [{}]. *)
Definition resize (count : Z) : M unit := resize_value count 0.

Definition push_back (value : Z) : M unit :=
  current_size <~ lift size ;;
  resize_default_init (as_size_type (current_size + 1)) ;;~
  p <~ lift (index current_size) ;;
  write (fun m => store_byte m p value).

Definition pop_back : M unit :=
  lift (fun m =>
          SBEPP_ASSERT size_checks_enabled (e <- empty m ;; Some (negb e))) ;;~
  s <~ lift size ;;
  resize_default_init (as_size_type (s - 1)).

(** [erase(pos)]. *)
Definition erase (pos : Z) : M Z :=
  lift (fun m =>
          SBEPP_ASSERT size_checks_enabled
            (b <- begin_ m ;;
             if pos >=? b then e <- end_ m ;; Some (pos <? e) else Some false)) ;;~
  e <~ lift end_ ;;
  write (std_copy (pos + 1) e pos) ;;~
  s <~ lift size ;;
  resize_default_init (as_size_type (s - 1)) ;;~
  ret pos.

(** [erase(first, last)]. *)
Definition erase_range (first last : Z) : M Z :=
  lift (fun m =>
          SBEPP_ASSERT size_checks_enabled
            (b <- begin_ m ;;
             if first >=? b then e <- end_ m ;; Some (last <? e)
             else Some false)) ;;~
  e <~ lift end_ ;;
  write (std_copy last e first) ;;~
  s <~ lift size ;;
  resize_default_init (as_size_type (s - (last - first))) ;;~
  ret first.

(** [SBEPP_ASSERT(pos >= begin() && pos <= end())]. *)
Definition assert_insert_pos (pos : Z) : M unit :=
  lift (fun m =>
          SBEPP_ASSERT size_checks_enabled
            (b <- begin_ m ;;
             if pos >=? b then e <- end_ m ;; Some (pos <=? e)
             else Some false)).

(** [insert(pos, value)]. *)
Definition insert (pos value : Z) : M Z :=
  assert_insert_pos pos ;;~
  old_end <~ lift end_ ;;
  s <~ lift size ;;
  resize_default_init (as_size_type (s + 1)) ;;~
  e <~ lift end_ ;;
  write (std_copy_backward pos old_end e) ;;~
  write (fun m => store_byte m pos value) ;;~
  ret pos.

(** [insert(pos, count, value)]. *)
Definition insert_n (pos count value : Z) : M Z :=
  assert_insert_pos pos ;;~
  old_end <~ lift end_ ;;
  s <~ lift size ;;
  resize_default_init (as_size_type (s + count)) ;;~
  e <~ lift end_ ;;
  write (std_copy_backward pos old_end e) ;;~
  write (std_fill_n pos count value) ;;~
  ret pos.

(** [insert_impl(pos, first, last, std::input_iterator_tag)]: one
    [insert(out, *first)] per element. *)
Fixpoint insert_each (xs : list Z) (out : Z) : M unit :=
  match xs with
  | [] => ret tt
  | x :: rest => insert out x ;;~ insert_each rest (out + 1)
  end.

(** [insert_impl(pos, first, last, std::forward_iterator_tag)]. *)
Definition insert_forward (pos : Z) (xs : list Z) : M Z :=
  old_end <~ lift end_ ;;
  s <~ lift size ;;
  resize_default_init (as_size_type (s + Z.of_nat (length xs))) ;;~
  e <~ lift end_ ;;
  write (std_copy_backward pos old_end e) ;;~
  write (std_copy_from xs pos) ;;~
  ret pos.

(** [insert(pos, first, last)], the range given by its elements. *)
Definition insert_range (pos : Z) (xs : list Z) (category : iterator_category)
  : M Z :=
  assert_insert_pos pos ;;~
  match category with
  | input_iterator_tag => insert_each xs pos ;;~ ret pos
  | forward_iterator_tag => insert_forward pos xs
  end.

(** [assign(count, value)]. *)
Definition assign_n (count value : Z) : M unit :=
  resize_default_init count ;;~
  b <~ lift begin_ ;;
  write (std_fill_n b count value).

(** The loop of [assign(first, last)]:
    [for(; first != last; ++first, ++out, ++size)]. *)
Fixpoint assign_loop (xs : list Z) (out size_ : Z) : M Z :=
  match xs with
  | [] => ret size_
  | x :: rest =>
      lift (fun _ => span_check size_) ;;~
      write (fun m => store_byte m out x) ;;~
      assign_loop rest (out + 1) (as_size_type (size_ + 1))
  end.

(** [assign(first, last)] and [assign(ilist)]. *)
Definition assign_range (xs : list Z) : M unit :=
  size_ <~ assign_loop xs data_unchecked 0 ;;
  resize_default_init size_.

(** [operator()(size_bytes_tag)]. *)
Definition size_bytes (m : memory) : option Z :=
  s <- size m ;; Some (to_unsigned size_t_bits (sizeof size_type + s)).

(** The mutating members, as one type. *)
Inductive mutation : Type :=
| call_resize (count : Z)
| call_resize_value (count value : Z)
| call_resize_default_init (count : Z)
| call_clear
| call_push_back (value : Z)
| call_pop_back
| call_erase (pos : Z)
| call_erase_range (first last : Z)
| call_insert (pos value : Z)
| call_insert_n (pos count value : Z)
| call_insert_range (pos : Z) (xs : list Z) (category : iterator_category)
| call_assign_n (count value : Z)
| call_assign_range (xs : list Z).

Definition discard {A : Type} (c : M A) : M unit := c ;;~ ret tt.

Definition run (op : mutation) : M unit :=
  match op with
  | call_resize count => resize count
  | call_resize_value count value => resize_value count value
  | call_resize_default_init count => resize_default_init count
  | call_clear => clear
  | call_push_back value => push_back value
  | call_pop_back => pop_back
  | call_erase pos => discard (erase pos)
  | call_erase_range first last => discard (erase_range first last)
  | call_insert pos value => discard (insert pos value)
  | call_insert_n pos count value => discard (insert_n pos count value)
  | call_insert_range pos xs category =>
      discard (insert_range pos xs category)
  | call_assign_n count value => assign_n count value
  | call_assign_range xs => assign_range xs
  end.

(** [front()]: the address of the first element. *)
Definition front (m : memory) : option Z := data m.

(** [back()]: the address [data() + size() - 1] of the last element. *)
Definition back (m : memory) : option Z :=
  d <- data m ;; s <- size m ;; Some (d + s - 1).

(** The calls that check before they write: every argument of type
    [size_type] is a value of that type, a range to erase is not reversed,
    [push_back] finds room for one more element in [size_type], and the
    elements to insert or assign are not fed one by one from a single-pass
    range ([insert] of an input-iterator range, [assign(first, last)]). *)
Definition checks_before_writing (op : mutation) (m : memory) : Prop :=
  match op with
  | call_resize count
  | call_resize_value count _
  | call_assign_n count _ => 0 <= count < 2 ^ bits size_type
  | call_push_back _ =>
      forall k, size m = Some k -> k + 1 < 2 ^ bits size_type
  | call_erase_range first last => first <= last
  | call_insert_range _ _ input_iterator_tag => False
  | call_assign_range _ => False
  | _ => True
  end.

(** The element count a call commits is a value of [size_type]: a count
    argument is one, and the sum the call computes does not wrap around. *)
Definition new_size_in_size_type (op : mutation) (m : memory) : Prop :=
  match op with
  | call_resize_default_init count => 0 <= count < 2 ^ bits size_type
  | call_insert _ _ =>
      forall k, size m = Some k -> k + 1 < 2 ^ bits size_type
  | call_insert_n _ count _ =>
      0 <= count
      /\ forall k, size m = Some k -> k + count < 2 ^ bits size_type
  | call_insert_range _ xs _ =>
      forall k, size m = Some k ->
                k + Z.of_nat (length xs) < 2 ^ bits size_type
  | _ => True
  end.

End WithParameters.
End dynamic_array_ref.

(* ===================================================================== *)
(** * Schema-specific types: what the engine consumes of them *)
(* ===================================================================== *)

(** A field of a generated header composite: its accessor reads a value of
    [field_type] at [field_offset] with [detail::get_value]. *)
Record header_field : Type := {
  field_offset : Z;
  field_type : prim_type
}.

(** Modelled from the spec: the message header composite, of which the
    engine uses [size_bytes(header)] and [header.blockLength()]. *)
Record message_header : Type := {
  message_header_size : Z;
  message_blockLength : header_field
}.

(** Modelled from the spec: the dimension header composite of a group, with
    [blockLength] and [numInGroup]. *)
Record dimension_type : Type := {
  dimension_size : Z;
  dimension_blockLength : header_field;
  dimension_numInGroup : header_field
}.

(** What a generated accessor of a fixed-block member hands to the cursor: a
    value of a primitive type, or a static view (composite, static array) of
    a fixed size. *)
Inductive member_kind : Type :=
| value_member (U : prim_type)
| static_view_member (size_bytes : Z).

(** [offset] is relative to the end of the previous member of the level,
    [absolute_offset] to the view's address. *)
Record block_member : Type := {
  offset : Z;
  absolute_offset : Z;
  kind : member_kind
}.

(** Modelled from the spec: the members of a nesting level in declaration
    order, fixed-block members first, then groups, then data (given by the
    type of their length prefix). *)
Inductive level_schema : Type :=
| Level (fields : list block_member) (groups : group_list)
    (data : list prim_type)
with group_list : Type :=
| no_groups
| group_then (dimension : dimension_type) (entry : level_schema)
    (rest : group_list).

(** [detail::entry_base<Byte, BlockLengthType>]. *)
Record entry_base : Type := {
  entry_range : byte_range;
  entry_block_length : Z
}.

(** The views a cursor is used with: a message or a group entry. *)
Inductive level_view : Type :=
| message_view (range : byte_range) (header : message_header)
| entry_view (e : entry_base).

(** The five ways a member can be accessed with a cursor. *)
Inductive cursor_policy : Type :=
| plain_cursor
| init_cursor_wrapper
| init_dont_move_cursor_wrapper
| dont_move_cursor_wrapper
| skip_cursor_wrapper.

Section Views.

Variable native : endian.
Variable size_checks_enabled : bool.

(** The schema's byte order. *)
Variable E : endian.

(** An accessor of a header composite. *)
Definition composite_get (composite : byte_range) (f : header_field)
    (m : memory) : option Z :=
  get_value native size_checks_enabled (field_type f) E composite
    (field_offset f) m.

(** [message_base::operator()(get_header_tag)]. *)
Definition message_get_header (this : byte_range) (H : message_header)
  : option byte_range :=
  SBEPP_SIZE_CHECK size_checks_enabled (addressof this)
    (end_ptr size_checks_enabled this) 0 (message_header_size H) ;;;
  Some this.

(** [message_base::operator()(get_level_tag)]. *)
Definition message_get_level (this : byte_range) (H : message_header)
  : option Z :=
  header <- message_get_header this H ;;
  Some (addressof header + message_header_size H).

(** [message_base::operator()(get_block_length_tag)]. *)
Definition message_get_block_length (this : byte_range) (H : message_header)
    (m : memory) : option Z :=
  header <- message_get_header this H ;;
  composite_get header (message_blockLength H) m.

Definition view_range (view : level_view) : byte_range :=
  match view with
  | message_view range _ => range
  | entry_view e => entry_range e
  end.

(** [view(get_level_tag{})]. *)
Definition get_level (view : level_view) : option Z :=
  match view with
  | message_view range H => message_get_level range H
  | entry_view e => Some (addressof (entry_range e))
  end.

(** [view(get_block_length_tag{})]. *)
Definition get_block_length (view : level_view) (m : memory) : option Z :=
  match view with
  | message_view range H => message_get_block_length range H m
  | entry_view e => Some (entry_block_length e)
  end.

(** [view(get_level_tag{}) + view(get_block_length_tag{})]. *)
Definition next_level (view : level_view) (m : memory) : option Z :=
  level <- get_level view ;;
  block_length <- get_block_length view m ;;
  Some (level + block_length).

(** The same address without the size checks: the level's start address
    plus its declared block length. *)
Definition level_end (view : level_view) (m : memory) : Z :=
  match view with
  | message_view range H =>
      addressof range + message_header_size H
      + get_primitive native (field_type (message_blockLength H)) E m
          (addressof range + field_offset (message_blockLength H))
  | entry_view e => addressof (entry_range e) + entry_block_length e
  end.

Definition view_end_ptr (view : level_view) : Z :=
  end_ptr size_checks_enabled (view_range view).

(** ** [sbepp::cursor<Byte>] (lines 704-898)

    The cursor is its pointer; a member function takes the pointer and
    returns, with its result, the pointer it leaves. *)

Definition cursor_get_value (view : level_view) (U : prim_type)
    (offset : Z) (ptr : Z) (m : memory) : option (Z * Z) :=
  SBEPP_SIZE_CHECK size_checks_enabled ptr (view_end_ptr view) offset
    (sizeof U) ;;;
  Some (get_primitive native U E m (ptr + offset), ptr + offset + sizeof U).

Definition cursor_set_value (view : level_view) (T : prim_type)
    (offset value : Z) (ptr : Z) : M Z :=
  lift (fun _ => SBEPP_SIZE_CHECK size_checks_enabled ptr (view_end_ptr view)
                   offset (sizeof T)) ;;~
  write (fun m => set_primitive native T E m (ptr + offset) value) ;;~
  ret (ptr + offset + sizeof T).

Definition cursor_get_last_value (view : level_view) (U : prim_type)
    (offset : Z) (ptr : Z) (m : memory) : option (Z * Z) :=
  SBEPP_SIZE_CHECK size_checks_enabled ptr (view_end_ptr view) offset
    (sizeof U) ;;;
  next <- next_level view m ;;
  Some (get_primitive native U E m (ptr + offset), next).

Definition cursor_set_last_value (view : level_view) (T : prim_type)
    (offset value : Z) (ptr : Z) : M Z :=
  lift (fun _ => SBEPP_SIZE_CHECK size_checks_enabled ptr (view_end_ptr view)
                   offset (sizeof T)) ;;~
  write (fun m => set_primitive native T E m (ptr + offset) value) ;;~
  lift (next_level view).

(** [get_static_field_view<Res>]: the view returned and the pointer left. *)
Definition cursor_get_static_field_view (view : level_view) (res_size : Z)
    (offset : Z) (ptr : Z) : option (byte_range * Z) :=
  SBEPP_SIZE_CHECK size_checks_enabled ptr (view_end_ptr view) offset 0 ;;;
  Some ({| range_begin := ptr + offset; range_end := view_end_ptr view |},
        ptr + offset + res_size).

Definition cursor_get_last_static_field_view (view : level_view)
    (offset : Z) (ptr : Z) (m : memory) : option (byte_range * Z) :=
  SBEPP_SIZE_CHECK size_checks_enabled ptr (view_end_ptr view) offset 0 ;;;
  next <- next_level view m ;;
  Some ({| range_begin := ptr + offset; range_end := view_end_ptr view |},
        next).

(** [get_header] of a flat or nested group (the two bases agree). *)
Definition group_get_header (this : byte_range) (D : dimension_type)
  : option byte_range :=
  SBEPP_SIZE_CHECK size_checks_enabled (addressof this)
    (end_ptr size_checks_enabled this) 0 (dimension_size D) ;;;
  Some this.

(** [ResView res{ptr, view(detail::end_ptr_tag{})}]. *)
Definition group_at (view : level_view) (ptr : Z) : byte_range :=
  {| range_begin := ptr; range_end := view_end_ptr view |}.

(** [get_group_view]: the group starts at the cursor, which is left after its
    dimension header. *)
Definition cursor_get_group_view (view : level_view) (D : dimension_type)
    (ptr : Z) : option (byte_range * Z) :=
  let res := group_at view ptr in
  group_get_header res D ;;;
  Some (res, ptr + dimension_size D).

Definition cursor_get_first_group_view (view : level_view)
    (D : dimension_type) (m : memory) : option (byte_range * Z) :=
  ptr <- next_level view m ;;
  cursor_get_group_view view D ptr.

(** [get_data_view]: the data starts at the cursor, which is left after it. *)
Definition cursor_get_data_view (view : level_view) (length_type : prim_type)
    (ptr : Z) (m : memory) : option (byte_range * Z) :=
  let res := group_at view ptr in
  size <- dynamic_array_ref.size_bytes native size_checks_enabled length_type
            E res m ;;
  Some (res, ptr + size).

Definition cursor_get_first_data_view (view : level_view)
    (length_type : prim_type) (m : memory) : option (byte_range * Z) :=
  ptr <- next_level view m ;;
  cursor_get_data_view view length_type ptr m.

(** ** The cursor wrappers (lines 902-1393), accessors of fixed-block members *)

Definition init_get_value (view : level_view) (U : prim_type)
    (absolute_offset : Z) (m : memory) : option (Z * Z) :=
  SBEPP_SIZE_CHECK size_checks_enabled (addressof (view_range view))
    (view_end_ptr view) absolute_offset (sizeof U) ;;;
  Some (get_primitive native U E m (addressof (view_range view) + absolute_offset),
        addressof (view_range view) + absolute_offset + sizeof U).

Definition init_get_last_value (view : level_view) (U : prim_type)
    (absolute_offset : Z) (m : memory) : option (Z * Z) :=
  SBEPP_SIZE_CHECK size_checks_enabled (addressof (view_range view))
    (view_end_ptr view) absolute_offset (sizeof U) ;;;
  next <- next_level view m ;;
  Some (get_primitive native U E m (addressof (view_range view) + absolute_offset),
        next).

Definition init_set_last_value (view : level_view) (T : prim_type)
    (absolute_offset value : Z) : M Z :=
  lift (fun _ => SBEPP_SIZE_CHECK size_checks_enabled
                   (addressof (view_range view)) (view_end_ptr view)
                   absolute_offset (sizeof T)) ;;~
  write (fun m => set_primitive native T E m
                    (addressof (view_range view) + absolute_offset) value) ;;~
  lift (next_level view).

Definition init_get_last_static_field_view (view : level_view)
    (absolute_offset : Z) (m : memory) : option (byte_range * Z) :=
  SBEPP_SIZE_CHECK size_checks_enabled (addressof (view_range view))
    (view_end_ptr view) absolute_offset 0 ;;;
  next <- next_level view m ;;
  Some ({| range_begin := addressof (view_range view) + absolute_offset;
           range_end := view_end_ptr view |}, next).

Definition init_dont_move_get_value (view : level_view) (U : prim_type)
    (offset absolute_offset : Z) (m : memory) : option (Z * Z) :=
  SBEPP_SIZE_CHECK size_checks_enabled (addressof (view_range view))
    (view_end_ptr view) absolute_offset (sizeof U) ;;;
  Some (get_primitive native U E m (addressof (view_range view) + absolute_offset),
        addressof (view_range view) + absolute_offset - offset).

Definition init_dont_move_set_value (view : level_view) (T : prim_type)
    (offset absolute_offset value : Z) : M Z :=
  lift (fun _ => SBEPP_SIZE_CHECK size_checks_enabled
                   (addressof (view_range view)) (view_end_ptr view)
                   absolute_offset (sizeof T)) ;;~
  write (fun m => set_primitive native T E m
                    (addressof (view_range view) + absolute_offset) value) ;;~
  ret (addressof (view_range view) + absolute_offset - offset).

Definition init_dont_move_get_static_field_view (view : level_view)
    (offset absolute_offset : Z) : option (byte_range * Z) :=
  SBEPP_SIZE_CHECK size_checks_enabled (addressof (view_range view))
    (view_end_ptr view) absolute_offset 0 ;;;
  Some ({| range_begin := addressof (view_range view) + absolute_offset;
           range_end := view_end_ptr view |},
        addressof (view_range view) + absolute_offset - offset).

Definition dont_move_get_value (view : level_view) (U : prim_type)
    (offset : Z) (ptr : Z) (m : memory) : option (Z * Z) :=
  SBEPP_SIZE_CHECK size_checks_enabled ptr (view_end_ptr view) offset
    (sizeof U) ;;;
  Some (get_primitive native U E m (ptr + offset), ptr).

Definition dont_move_set_value (view : level_view) (T : prim_type)
    (offset value : Z) (ptr : Z) : M Z :=
  lift (fun _ => SBEPP_SIZE_CHECK size_checks_enabled ptr (view_end_ptr view)
                   offset (sizeof T)) ;;~
  write (fun m => set_primitive native T E m (ptr + offset) value) ;;~
  ret ptr.

Definition dont_move_get_static_field_view (view : level_view)
    (offset : Z) (ptr : Z) : option (byte_range * Z) :=
  SBEPP_SIZE_CHECK size_checks_enabled ptr (view_end_ptr view) offset 0 ;;;
  Some ({| range_begin := ptr + offset;
           range_end := view_end_ptr view |}, ptr).

(** [skip_cursor_wrapper::get_last_value] returns [void]. *)
Definition skip_get_last_value (view : level_view) (U : prim_type)
    (offset : Z) (ptr : Z) (m : memory) : option Z :=
  SBEPP_SIZE_CHECK size_checks_enabled ptr (view_end_ptr view) offset
    (sizeof U) ;;;
  next_level view m.

Definition skip_get_last_static_field_view (view : level_view)
    (offset : Z) (ptr : Z) (m : memory) : option Z :=
  SBEPP_SIZE_CHECK size_checks_enabled ptr (view_end_ptr view) offset 0 ;;;
  next_level view m.

(** Reading the last value member of a level under a policy: the value
    (none when skipping) and the pointer the cursor is left with. *)
Definition get_last_value (policy : cursor_policy) (view : level_view)
    (U : prim_type) (offset absolute_offset : Z) (ptr : Z) (m : memory)
  : option (option Z * Z) :=
  match policy with
  | plain_cursor =>
      r <- cursor_get_last_value view U offset ptr m ;;
      Some (Some (fst r), snd r)
  | init_cursor_wrapper =>
      r <- init_get_last_value view U absolute_offset m ;;
      Some (Some (fst r), snd r)
  | init_dont_move_cursor_wrapper =>
      r <- init_dont_move_get_value view U offset absolute_offset m ;;
      Some (Some (fst r), snd r)
  | dont_move_cursor_wrapper =>
      r <- dont_move_get_value view U offset ptr m ;;
      Some (Some (fst r), snd r)
  | skip_cursor_wrapper =>
      next <- skip_get_last_value view U offset ptr m ;;
      Some (None, next)
  end.

(** Writing the last value member of a level under a policy; the skipping
    wrapper has no setters. *)
Definition set_last_value (policy : cursor_policy) (view : level_view)
    (T : prim_type) (offset absolute_offset value : Z) (ptr : Z)
  : option (M Z) :=
  match policy with
  | plain_cursor => Some (cursor_set_last_value view T offset value ptr)
  | init_cursor_wrapper =>
      Some (init_set_last_value view T absolute_offset value)
  | init_dont_move_cursor_wrapper =>
      Some (init_dont_move_set_value view T offset absolute_offset value)
  | dont_move_cursor_wrapper =>
      Some (dont_move_set_value view T offset value ptr)
  | skip_cursor_wrapper => None
  end.

(** Accessing the last static view member of a level under a policy. *)
Definition get_last_static_field_view (policy : cursor_policy)
    (view : level_view) (offset absolute_offset : Z) (ptr : Z) (m : memory)
  : option Z :=
  match policy with
  | plain_cursor =>
      r <- cursor_get_last_static_field_view view offset ptr m ;; Some (snd r)
  | init_cursor_wrapper =>
      r <- init_get_last_static_field_view view absolute_offset m ;;
      Some (snd r)
  | init_dont_move_cursor_wrapper =>
      r <- init_dont_move_get_static_field_view view offset absolute_offset ;;
      Some (snd r)
  | dont_move_cursor_wrapper =>
      r <- dont_move_get_static_field_view view offset ptr ;; Some (snd r)
  | skip_cursor_wrapper =>
      skip_get_last_static_field_view view offset ptr m
  end.

(** Where each policy leaves the cursor after the last fixed-block member
    of a level: the plain cursor and the initialising and skipping wrappers
    at the end of the level's block; [dont_move] where it was;
    [init_dont_move] at the position from which the member is [offset]
    bytes away. *)
Definition cursor_after_last (policy : cursor_policy) (view : level_view)
    (offset absolute_offset : Z) (ptr : Z) (m : memory) : Z :=
  match policy with
  | plain_cursor | init_cursor_wrapper | skip_cursor_wrapper =>
      level_end view m
  | dont_move_cursor_wrapper => ptr
  | init_dont_move_cursor_wrapper =>
      addressof (view_range view) + absolute_offset - offset
  end.

End Views.

(* ===================================================================== *)
(** * Groups and their iterators (lines 1695-2545) *)
(* ===================================================================== *)

(** [a * b] for operands of types [T1] and [T2] after the integral
    promotions and the usual arithmetic conversions: operands narrower than
    [int] are multiplied as [int]s, where a product that [int] cannot
    represent has no defined value; unsigned arithmetic wraps around. *)
Definition promoted_bits (T : prim_type) : Z := Z.max 32 (bits T).

Definition promoted_signed (T : prim_type) : bool :=
  if bits T <? 32 then true else is_signed T.

Definition multiply (T1 T2 : prim_type) (a b : Z) : option Z :=
  let w := Z.max (promoted_bits T1) (promoted_bits T2) in
  let signed :=
    if promoted_bits T1 =? promoted_bits T2
    then promoted_signed T1 && promoted_signed T2
    else if promoted_bits T1 <? promoted_bits T2
         then promoted_signed T2 else promoted_signed T1 in
  if signed
  then if (- 2 ^ (w - 1) <=? a * b) && (a * b <? 2 ^ (w - 1))
       then Some (a * b) else None
  else Some (to_unsigned w (to_unsigned w a * to_unsigned w b)).

(** The products [multiply] computes exactly, for unsigned operand types:
    those below this bound. *)
Definition product_bound (T1 T2 : prim_type) : Z :=
  if Z.max (bits T1) (bits T2) <? 32 then 2 ^ 31
  else 2 ^ Z.max (bits T1) (bits T2).

(** A header field lies inside its composite. *)
Definition field_inside (f : header_field) (size : Z) : Prop :=
  0 <= field_offset f /\ field_offset f + sizeof (field_type f) <= size.

(** The dimension header's two fields are unsigned and lie inside it. *)
Definition dimension_wf (D : dimension_type) : Prop :=
  dimension_size D < 2 ^ size_t_bits
  /\ field_inside (dimension_blockLength D) (dimension_size D)
  /\ field_inside (dimension_numInGroup D) (dimension_size D)
  /\ is_signed (field_type (dimension_blockLength D)) = false
  /\ is_signed (field_type (dimension_numInGroup D)) = false.

(** [detail::forward_iterator]. *)
Record forward_iterator : Type := {
  it_ptr : Z;
  it_index : Z;
  it_block_length : Z;
  it_end : Z
}.

Section Groups.

Variable native : endian.
Variable size_checks_enabled : bool.
Variable E : endian.

(** The group's [Dimension] type. *)
Variable D : dimension_type.

(** [size_bytes(entry)] of the group's generated entry type. *)
Variable entry_size_bytes : entry_base -> memory -> option Z.

Definition numInGroup (dimension : byte_range) (m : memory) : option Z :=
  composite_get native size_checks_enabled E dimension
    (dimension_numInGroup D) m.

Definition blockLength (dimension : byte_range) (m : memory) : option Z :=
  composite_get native size_checks_enabled E dimension
    (dimension_blockLength D) m.

(** [flat_group_base::operator()(size_bytes_tag)]. *)
Definition flat_size_bytes (this : byte_range) (m : memory) : option Z :=
  dimension <- group_get_header size_checks_enabled this D ;;
  n <- numInGroup dimension m ;;
  block_length <- blockLength dimension m ;;
  product <- multiply (field_type (dimension_numInGroup D))
               (field_type (dimension_blockLength D)) n block_length ;;
  Some (to_unsigned size_t_bits (dimension_size D + product)).

(** [size()] of either group base. *)
Definition group_size (this : byte_range) (m : memory) : option Z :=
  dimension <- group_get_header size_checks_enabled this D ;;
  numInGroup dimension m.

(** [forward_iterator::operator*]. *)
Definition deref (it : forward_iterator) : entry_base :=
  {| entry_range := {| range_begin := it_ptr it; range_end := it_end it |};
     entry_block_length := it_block_length it |}.

(** Conversion to [IndexType], the type of [numInGroup]. *)
Definition as_index (i : Z) : Z :=
  cast (field_type (dimension_numInGroup D)) i.

(** [forward_iterator::operator++]. *)
Definition increment (it : forward_iterator) (m : memory)
  : option forward_iterator :=
  SBEPP_ASSERT size_checks_enabled
    (size <- entry_size_bytes (deref it) m ;;
     Some (size_check_cond (it_ptr it) (it_end it) 0 size)) ;;;
  size <- entry_size_bytes (deref it) m ;;
  Some {| it_ptr := it_ptr it + size;
          it_index := as_index (it_index it + 1);
          it_block_length := it_block_length it;
          it_end := it_end it |}.

(** [operator==] compares the indices. *)
Definition iterator_eqb (lhs rhs : forward_iterator) : bool :=
  it_index lhs =? it_index rhs.

(** [nested_group_base::begin]. *)
Definition nested_begin (this : byte_range) (m : memory)
  : option forward_iterator :=
  dimension <- group_get_header size_checks_enabled this D ;;
  block_length <- blockLength dimension m ;;
  Some {| it_ptr := addressof this + dimension_size D;
          it_index := 0;
          it_block_length := block_length;
          it_end := end_ptr size_checks_enabled this |}.

(** [nested_group_base::end]; its pointer is [nullptr]. *)
Definition nested_end (this : byte_range) (m : memory)
  : option forward_iterator :=
  dimension <- group_get_header size_checks_enabled this D ;;
  n <- numInGroup dimension m ;;
  dimension' <- group_get_header size_checks_enabled this D ;;
  block_length <- blockLength dimension' m ;;
  Some {| it_ptr := 0;
          it_index := n;
          it_block_length := block_length;
          it_end := end_ptr size_checks_enabled this |}.

(** The loop [for(; it != last; ++it)] over the dereferenced iterator, with
    at most [fuel] iterations; [None] when an assertion fails or the fuel runs out. *)
Fixpoint for_each_entry {A : Type} (fuel : nat)
    (it last : forward_iterator)
    (body : entry_base -> A -> option A) (acc : A) (m : memory)
  : option (forward_iterator * A) :=
  if iterator_eqb it last then Some (it, acc)
  else match fuel with
       | O => None
       | S fuel' =>
           acc' <- body (deref it) acc ;;
           it' <- increment it m ;;
           for_each_entry fuel' it' last body acc' m
       end.

(** The range-[for] over a nested group.  The iterator starts at index 0 and
    gains one per step, so it meets [end()] after [numInGroup] steps: that
    many are allowed. *)
Definition for_each_in_group {A : Type} (this : byte_range)
    (body : entry_base -> A -> option A) (acc : A) (m : memory)
  : option (forward_iterator * A) :=
  first <- nested_begin this m ;;
  last <- nested_end this m ;;
  for_each_entry (Z.to_nat (it_index last)) first last body acc m.

(** [nested_group_base::operator()(size_bytes_tag)]. *)
Definition nested_size_bytes (this : byte_range) (m : memory) : option Z :=
  dimension <- group_get_header size_checks_enabled this D ;;
  r <- for_each_in_group this
         (fun entry size =>
            entry_size <- entry_size_bytes entry m ;;
            Some (size + entry_size))
         (dimension_size D) m ;;
  Some (snd r).

(** The entries a forward iteration visits, in order, and the iterator it
    ends with. *)
Definition visit_entries (this : byte_range) (m : memory)
  : option (forward_iterator * list entry_base) :=
  for_each_in_group this (fun entry visited => Some (visited ++ [entry]))
    [] m.

(** Consecutive entries: each starts where the one before it ends. *)
Fixpoint consecutive (entries : list entry_base) (start stop : Z)
    (m : memory) : Prop :=
  match entries with
  | [] => start = stop
  | e :: rest =>
      addressof (entry_range e) = start
      /\ exists size, entry_size_bytes e m = Some size
                      /\ consecutive rest (start + size) stop m
  end.

End Groups.

(* ===================================================================== *)
(** * Visitors and [size_bytes_checked] (lines 4325-4541) *)
(* ===================================================================== *)

(** [detail::size_bytes_checked_visitor]. *)
Module size_bytes_checked_visitor.

Record t : Type := {
  size : Z;
  valid : bool;
  group_block_length : Z
}.

(** [explicit size_bytes_checked_visitor(const std::size_t size)]. *)
Definition make (size : Z) : t :=
  {| size := size; valid := true; group_block_length := 0 |}.

Definition validate_and_subtract (n : Z) (v : t) : bool * t :=
  let v' :=
    if size v <? n
    then {| size := size v; valid := false;
            group_block_length := group_block_length v |}
    else {| size := size v - n; valid := valid v;
            group_block_length := group_block_length v |} in
  (valid v', v').

Definition is_valid (v : t) : bool := valid v.

(** Returns the previous value. *)
Definition set_group_block_length (block_length : Z) (v : t) : Z * t :=
  (group_block_length v,
   {| size := size v; valid := valid v; group_block_length := block_length |}).

Definition get_size (v : t) : Z := size v.

End size_bytes_checked_visitor.

(** What a visiting step yields: whether to stop, the cursor and the
    visitor. *)
Record step : Type := {
  stop : bool;
  cursor : Z;
  visitor : size_bytes_checked_visitor.t
}.

(** [sbepp::size_bytes_checked_result]. *)
Record size_bytes_checked_result : Type := {
  result_valid : bool;
  result_size : Z
}.

(** The views [size_bytes_checked] can be used with, each with the schema
    of its members. *)
Inductive top_view : Type :=
| top_message (this : byte_range) (H : message_header) (schema : level_schema)
| top_group (this : byte_range) (D : dimension_type) (entry : level_schema).

Definition member_size (k : member_kind) : Z :=
  match k with
  | value_member U => sizeof U
  | static_view_member size_bytes => size_bytes
  end.

(** A level without members: its generated entry type is an empty entry. *)
Definition has_no_members (s : level_schema) : bool :=
  match s with
  | Level [] no_groups [] => true
  | _ => false
  end.

Definition has_no_groups (gs : group_list) : bool :=
  match gs with
  | no_groups => true
  | group_then _ _ _ => false
  end.

Section Visitor.

Variable native : endian.
Variable size_checks_enabled : bool.
Variable E : endian.

(** Conversion of an argument to [std::size_t]. *)
Definition to_size_t (v : Z) : Z := to_unsigned size_t_bits v.

(** Modelled from the spec: the generated accessor of a fixed-block member
    called with the plain cursor; the last member of the level goes through
    the [get_last_] form.  The result is the pointer the cursor is left
    with. *)
Definition access_member (view : level_view) (f : block_member) (last : bool)
    (c : Z) (m : memory) : option Z :=
  match kind f, last with
  | value_member U, false =>
      r <- cursor_get_value native size_checks_enabled E view U (offset f) c m ;;
      Some (snd r)
  | value_member U, true =>
      r <- cursor_get_last_value native size_checks_enabled E view U
             (offset f) c m ;;
      Some (snd r)
  | static_view_member size, false =>
      r <- cursor_get_static_field_view size_checks_enabled view size
             (offset f) c ;;
      Some (snd r)
  | static_view_member size, true =>
      r <- cursor_get_last_static_field_view native size_checks_enabled E view
             (offset f) c m ;;
      Some (snd r)
  end.

(** Modelled from the spec: [visit_children] of a message or entry calls
    [on_field] for every fixed-block member in declaration order;
    [size_bytes_checked_visitor::on_field] ignores the member and never
    stops. *)
Fixpoint visit_fields (view : level_view) (fields : list block_member)
    (c : Z) (m : memory) : option Z :=
  match fields with
  | [] => Some c
  | f :: rest =>
      match rest with
      | [] => access_member view f true c m
      | _ :: _ =>
          c' <- access_member view f false c m ;;
          visit_fields view rest c' m
      end
  end.

(** [size_bytes_checked_visitor::on_data]. *)
Definition on_data (d : byte_range) (length_type : prim_type)
    (v : size_bytes_checked_visitor.t) (m : memory)
  : option (bool * size_bytes_checked_visitor.t) :=
  size <- dynamic_array_ref.size_bytes native size_checks_enabled length_type
            E d m ;;
  let r := size_bytes_checked_visitor.validate_and_subtract size v in
  Some (negb (fst r), snd r).

(** Modelled from the spec: [visit_children] calls [on_data] for every data
    member in declaration order and stops at the first one that asks for it;
    the first dynamic member of a level is reached with the [get_first_]
    form. *)
Fixpoint visit_data (view : level_view) (data : list prim_type) (first : bool)
    (c : Z) (v : size_bytes_checked_visitor.t) (m : memory) : option step :=
  match data with
  | [] => Some {| stop := false; cursor := c; visitor := v |}
  | length_type :: rest =>
      d <- (if first
            then cursor_get_first_data_view native size_checks_enabled E view
                   length_type m
            else cursor_get_data_view native size_checks_enabled E view
                   length_type c m) ;;
      r <- on_data (fst d) length_type v m ;;
      if fst r
      then Some {| stop := true; cursor := snd d; visitor := snd r |}
      else visit_data view rest false (snd d) (snd r) m
  end.

(** The visitor's callbacks take [visit_children] of the generated entry or
    message type as an argument. *)
Definition children_visitor : Type :=
  level_view -> Z -> size_bytes_checked_visitor.t -> memory -> option step.

(** [size_bytes_checked_visitor::on_entry]. *)
Definition on_entry (visit_children : children_visitor) (e : entry_base)
    (c : Z) (v : size_bytes_checked_visitor.t) (m : memory) : option step :=
  let r := size_bytes_checked_visitor.validate_and_subtract
             (size_bytes_checked_visitor.group_block_length v) v in
  if negb (fst r)
  then Some {| stop := true; cursor := c; visitor := snd r |}
  else
    s <- visit_children (entry_view e) c (snd r) m ;;
    Some {| stop := negb (size_bytes_checked_visitor.is_valid (visitor s));
            cursor := cursor s; visitor := visitor s |}.

(** Modelled from the spec: an entry is constructed from the cursor at the
    cursor's position; the generated type of an entry without members
    advances the cursor by the block length on construction. *)
Definition entry_from_cursor (entry_is_empty : bool) (c end_ block_length : Z)
  : entry_base * Z :=
  ({| entry_range := {| range_begin := c; range_end := end_ |};
      entry_block_length := block_length |},
   if entry_is_empty then c + block_length else c).

(** The loop of [visit_children] of a group over [cursor_range(c)], whose
    input iterators compare and advance an index only. *)
Fixpoint entries_loop (visit_children : children_visitor)
    (entry_is_empty : bool) (D : dimension_type) (fuel : nat)
    (index last block_length end_ : Z)
    (c : Z) (v : size_bytes_checked_visitor.t) (m : memory) : option step :=
  if index =? last
  then Some {| stop := false; cursor := c; visitor := v |}
  else match fuel with
       | O => None
       | S fuel' =>
           let e := entry_from_cursor entry_is_empty c end_ block_length in
           r <- on_entry visit_children (fst e) (snd e) v m ;;
           if stop r
           then Some {| stop := true; cursor := cursor r;
                        visitor := visitor r |}
           else entries_loop visit_children entry_is_empty D fuel'
                  (as_index D (index + 1)) last block_length end_
                  (cursor r) (visitor r) m
       end.

(** [flat_group_base] and [nested_group_base::operator()(visit_children_tag)].
    The range starts at index 0 and ends at [numInGroup], so that many steps
    are allowed. *)
Definition group_visit_children (visit_children : children_visitor)
    (entry_is_empty : bool) (this : byte_range) (D : dimension_type)
    (c : Z) (v : size_bytes_checked_visitor.t) (m : memory) : option step :=
  header <- group_get_header size_checks_enabled this D ;;
  block_length <- blockLength native size_checks_enabled E D header m ;;
  n <- group_size native size_checks_enabled E D this m ;;
  entries_loop visit_children entry_is_empty D (Z.to_nat n) 0
    (as_index D (0 + n)) block_length (end_ptr size_checks_enabled this)
    c v m.

(** [size_bytes_checked_visitor::on_group]. *)
Definition on_group (visit_children : children_visitor)
    (entry_is_empty : bool) (g : byte_range) (D : dimension_type)
    (c : Z) (v : size_bytes_checked_visitor.t) (m : memory) : option step :=
  header <- group_get_header size_checks_enabled g D ;;
  let r := size_bytes_checked_visitor.validate_and_subtract
             (dimension_size D) v in
  if negb (fst r)
  then Some {| stop := true; cursor := c; visitor := snd r |}
  else
    block_length <- blockLength native size_checks_enabled E D header m ;;
    let p := size_bytes_checked_visitor.set_group_block_length
               (to_size_t block_length) (snd r) in
    s <- group_visit_children visit_children entry_is_empty g D c (snd p) m ;;
    let v' := snd (size_bytes_checked_visitor.set_group_block_length (fst p)
                     (visitor s)) in
    Some {| stop := negb (size_bytes_checked_visitor.is_valid v');
            cursor := cursor s; visitor := v' |}.

(** Modelled from the spec: [visit_children] of a message or entry, the
    generated dispatch over the level's members in declaration order, with
    [on_group] and [on_entry] of the nested levels. *)
Fixpoint visit_level (s : level_schema) (view : level_view) (c : Z)
    (v : size_bytes_checked_visitor.t) (m : memory) {struct s} : option step :=
  match s with
  | Level fields groups data =>
      c' <- visit_fields view fields c m ;;
      r <- visit_groups groups view true c' v m ;;
      if stop r then Some r
      else visit_data view data (has_no_groups groups) (cursor r)
             (visitor r) m
  end
with visit_groups (gs : group_list) (view : level_view) (first : bool)
    (c : Z) (v : size_bytes_checked_visitor.t) (m : memory) {struct gs}
  : option step :=
  match gs with
  | no_groups => Some {| stop := false; cursor := c; visitor := v |}
  | group_then D entry rest =>
      g <- (if first
            then cursor_get_first_group_view native size_checks_enabled E
                   view D m
            else cursor_get_group_view size_checks_enabled view D c) ;;
      r <- on_group (visit_level entry) (has_no_members entry) (fst g) D
             (snd g) v m ;;
      if stop r then Some r
      else visit_groups rest view false (cursor r) (visitor r) m
  end.

(** [size_bytes_checked_visitor::on_message]; the result of
    [visit_children] is not used. *)
Definition on_message (visit_children : children_visitor)
    (this : byte_range) (H : message_header) (c : Z)
    (v : size_bytes_checked_visitor.t) (m : memory)
  : option size_bytes_checked_visitor.t :=
  header <- message_get_header size_checks_enabled this H ;;
  let r := size_bytes_checked_visitor.validate_and_subtract
             (message_header_size H) v in
  if negb (fst r) then Some (snd r)
  else
    block_length <- composite_get native size_checks_enabled E header
                      (message_blockLength H) m ;;
    let r' := size_bytes_checked_visitor.validate_and_subtract
                (to_size_t block_length) (snd r) in
    if negb (fst r') then Some (snd r')
    else
      s <- visit_children (message_view this H) c (snd r') m ;;
      Some (visitor s).

Definition top_range (view : top_view) : byte_range :=
  match view with
  | top_message this _ _ => this
  | top_group this _ _ => this
  end.

(** [detail::get_header_size(view)]. *)
Definition get_header_size (view : top_view) : option Z :=
  match view with
  | top_message this H _ =>
      message_get_header size_checks_enabled this H ;;;
      Some (message_header_size H)
  | top_group this D _ =>
      group_get_header size_checks_enabled this D ;;;
      Some (dimension_size D)
  end.

(** [init_cursor(view)]. *)
Definition init_cursor (view : top_view) : option Z :=
  header_size <- get_header_size view ;;
  Some (addressof (top_range view) + header_size).

(** Modelled from the spec: [visit(view, c, visitor)] hands a message to
    [on_message] and a group to [on_group]. *)
Definition visit (view : top_view) (c : Z) (v : size_bytes_checked_visitor.t)
    (m : memory) : option size_bytes_checked_visitor.t :=
  match view with
  | top_message this H schema => on_message (visit_level schema) this H c v m
  | top_group this D entry =>
      s <- on_group (visit_level entry) (has_no_members entry) this D c v m ;;
      Some (visitor s)
  end.

(** [sbepp::size_bytes_checked(view, size)]. *)
Definition size_bytes_checked (view : top_view) (size : Z) (m : memory)
  : option size_bytes_checked_result :=
  if addressof (top_range view) =? 0
  then Some {| result_valid := false; result_size := 0 |}
  else
    header_size <- get_header_size view ;;
    if size <? header_size
    then Some {| result_valid := false; result_size := 0 |}
    else
      c <- init_cursor view ;;
      v <- visit view c (size_bytes_checked_visitor.make size) m ;;
      if size_bytes_checked_visitor.is_valid v
      then Some {| result_valid := true;
                   result_size :=
                     size - size_bytes_checked_visitor.get_size v |}
      else Some {| result_valid := false; result_size := 0 |}.

End Visitor.

(* ===================================================================== *)
(** * The encoded size of a well-formed buffer *)
(* ===================================================================== *)

(** The fixed-block members lie inside a block of [block_length] bytes, one
    after the other from position [pos]. *)
Fixpoint fields_fit (fields : list block_member) (pos block_length : Z)
  : bool :=
  match fields with
  | [] => true
  | f :: rest =>
      (0 <=? offset f) && (0 <=? member_size (kind f))
      && (pos + offset f + member_size (kind f) <=? block_length)
      && fields_fit rest (pos + offset f + member_size (kind f)) block_length
  end.

(** The header types of a schema are well-formed. *)
Fixpoint schema_wf (s : level_schema) : Prop :=
  match s with
  | Level _ groups data =>
      groups_wf groups /\ Forall (fun T => is_signed T = false) data
  end
with groups_wf (gs : group_list) : Prop :=
  match gs with
  | no_groups => True
  | group_then D entry rest =>
      dimension_wf D /\ schema_wf entry /\ groups_wf rest
  end.

Definition message_header_wf (H : message_header) : Prop :=
  message_header_size H < 2 ^ size_t_bits
  /\ field_inside (message_blockLength H) (message_header_size H)
  /\ is_signed (field_type (message_blockLength H)) = false.

Definition top_view_wf (view : top_view) : Prop :=
  match view with
  | top_message _ H schema => message_header_wf H /\ schema_wf schema
  | top_group _ D entry => dimension_wf D /\ schema_wf entry
  end.

Section Encoding.

Variable native : endian.
Variable E : endian.

(** The end of the buffer that holds the encoding. *)
Variable buffer_end : Z.

Variable m : memory.

(** Modelled from the spec: the data blocks starting at [p], each a length
    prefix followed by that many one-byte elements; their total size, or
    [None] when they do not lie inside the buffer. *)
Fixpoint data_encoded_size (data : list prim_type) (p : Z) : option Z :=
  match data with
  | [] => Some 0
  | length_type :: rest =>
      let length := get_primitive native length_type E m p in
      if p + sizeof length_type + length <=? buffer_end
      then size <- data_encoded_size rest (p + sizeof length_type + length) ;;
           Some (sizeof length_type + length + size)
      else None
  end.

(** [n] entries one after the other from [p]. *)
Fixpoint entries_encoded_size (entry_size : Z -> Z -> option Z) (n : nat)
    (p block_length : Z) : option Z :=
  match n with
  | O => Some 0
  | S n' =>
      first <- entry_size p block_length ;;
      size <- entries_encoded_size entry_size n' (p + first) block_length ;;
      Some (first + size)
  end.

(** Modelled from the spec: a level that starts at [start] is its fixed
    block of [block_length] bytes, which holds the fixed-block members, then
    its groups, then its data; a group is its dimension header followed by
    [numInGroup] entries, each a level with the header's [blockLength].  The
    result is the size in bytes, or [None] when something does not lie
    inside the buffer. *)
Fixpoint level_encoded_size (s : level_schema) (start block_length : Z)
    {struct s} : option Z :=
  match s with
  | Level fields groups data =>
      if fields_fit fields 0 block_length
         && (start + block_length <=? buffer_end)
      then
        groups_size <- groups_encoded_size groups (start + block_length) ;;
        data_size <- data_encoded_size data
                       (start + block_length + groups_size) ;;
        Some (block_length + groups_size + data_size)
      else None
  end
with groups_encoded_size (gs : group_list) (p : Z) {struct gs} : option Z :=
  match gs with
  | no_groups => Some 0
  | group_then D entry rest =>
      if p + dimension_size D <=? buffer_end
      then
        let n := get_primitive native (field_type (dimension_numInGroup D)) E
                   m (p + field_offset (dimension_numInGroup D)) in
        let block_length :=
          get_primitive native (field_type (dimension_blockLength D)) E m
            (p + field_offset (dimension_blockLength D)) in
        entries_size <- entries_encoded_size (level_encoded_size entry)
                          (Z.to_nat n) (p + dimension_size D) block_length ;;
        rest_size <- groups_encoded_size rest
                       (p + dimension_size D + entries_size) ;;
        Some (dimension_size D + entries_size + rest_size)
      else None
  end.

End Encoding.

(** Modelled from the spec: the true encoded size of the message or group
    that starts at the view's address, in a buffer that ends at
    [buffer_end]; [None] when the buffer does not hold a well-formed
    encoding of it.  The view's own end plays no part. *)
Definition encoded_size (native E : endian) (buffer_end : Z) (view : top_view)
    (m : memory) : option Z :=
  match view with
  | top_message this H schema =>
      if (0 <? range_begin this)
         && (buffer_end - range_begin this <? 2 ^ size_t_bits)
         && (range_begin this + message_header_size H <=? buffer_end)
      then
        let block_length :=
          get_primitive native (field_type (message_blockLength H)) E m
            (range_begin this + field_offset (message_blockLength H)) in
        size <- level_encoded_size native E buffer_end m schema
                  (range_begin this + message_header_size H) block_length ;;
        Some (message_header_size H + size)
      else None
  | top_group this D entry =>
      if (0 <? range_begin this)
         && (buffer_end - range_begin this <? 2 ^ size_t_bits)
      then groups_encoded_size native E buffer_end m
             (group_then D entry no_groups) (range_begin this)
      else None
  end.

(** The end pointer the views of a traversal carry when the visited view
    ends at [buffer_end]. *)
Definition traversal_end (size_checks_enabled : bool) (buffer_end : Z) : Z :=
  if size_checks_enabled then buffer_end else 0.

(** The visitor with a budget of [budget] bytes left, still valid, inside a
    group whose entries have [block_length] bytes. *)
Definition funded (budget block_length : Z) : size_bytes_checked_visitor.t :=
  {| size_bytes_checked_visitor.size := budget;
     size_bytes_checked_visitor.valid := true;
     size_bytes_checked_visitor.group_block_length := block_length |}.

(** The outcome [r] of visiting [size] bytes of structure with a budget: when
    the budget covers them, they are subtracted, the traversal goes on and
    the cursor is at [next]; otherwise the traversal stops with the visitor
    invalid. *)
Definition charged (budget size block_length next : Z) (r : option step)
  : Prop :=
  if size <=? budget
  then r = Some {| stop := false; cursor := next;
                   visitor := funded (budget - size) block_length |}
  else exists s, r = Some s /\ stop s = true
                 /\ size_bytes_checked_visitor.valid (visitor s) = false.

(** Mutual induction over the schema. *)
Scheme level_schema_mutind := Induction for level_schema Sort Prop
  with group_list_mutind := Induction for group_list Sort Prop.

Combined Scheme schema_mutind from level_schema_mutind, group_list_mutind.

(* ===================================================================== *)
(** * [static_array_ref<Byte, Value, N>] (lines 2732-2854) *)
(* ===================================================================== *)

Module static_array_ref.
Section WithParameters.

Variable size_checks_enabled : bool.

(** The number of elements [N]; elements are single bytes. *)
Variable N : Z.

Variable this : byte_range.

Definition size : Z := N.

Definition empty : bool := size =? 0.

(** [data()]. *)
Definition data : option Z :=
  SBEPP_SIZE_CHECK size_checks_enabled (addressof this)
    (end_ptr size_checks_enabled this) 0 N ;;;
  Some (addressof this).

(** [operator[](pos)]: the address of the element. *)
Definition index (pos : Z) : option Z :=
  SBEPP_ASSERT size_checks_enabled (Some (pos <? size)) ;;;
  d <- data ;; Some (d + pos).

Definition begin_ : option Z := data.

Definition end_ : option Z := d <- data ;; Some (d + size).

(** [operator()(size_bytes_tag)]. *)
Definition size_bytes : Z := size.

End WithParameters.
End static_array_ref.

(* ===================================================================== *)
(** * Flat groups and their random-access iterator (lines 1774-1942,
      2092-2219) *)
(* ===================================================================== *)

(** [std::make_signed<T>::type]. *)
Definition make_signed (T : prim_type) : prim_type :=
  match T with
  | uint8_t => int8_t
  | uint16_t => int16_t
  | uint32_t => int32_t
  | uint64_t => int64_t
  | _ => T
  end.

(** [detail::random_access_iterator]. *)
Record random_access_iterator : Type := {
  ra_ptr : Z;
  ra_block_length : Z;
  ra_index : Z;
  ra_end : Z
}.

(** Modelled from the spec: the generated setter of a header composite's
    field, [detail::set_value<E>] on the composite itself at the field's
    offset. *)
Definition composite_set (native : endian) (size_checks_enabled : bool)
    (E : endian) (composite : byte_range) (f : header_field) (value : Z)
  : M unit :=
  set_value native size_checks_enabled (field_type f) E composite
    (field_offset f) value.

Section FlatGroup.

Variable native : endian.
Variable size_checks_enabled : bool.
Variable E : endian.

(** The group's [Dimension] type; [size_type] is the type of its
    [numInGroup], [difference_type] the signed type of that width. *)
Variable D : dimension_type.

Definition index_type : prim_type := field_type (dimension_numInGroup D).

Definition block_length_type : prim_type :=
  field_type (dimension_blockLength D).

Definition difference_type : prim_type := make_signed index_type.

(** [random_access_iterator::operator*]. *)
Definition ra_deref (it : random_access_iterator) : entry_base :=
  {| entry_range := {| range_begin := ra_ptr it; range_end := ra_end it |};
     entry_block_length := ra_block_length it |}.

(** [operator++]. *)
Definition ra_increment (it : random_access_iterator)
  : option random_access_iterator :=
  SBEPP_SIZE_CHECK size_checks_enabled (ra_ptr it) (ra_end it) 0
    (ra_block_length it) ;;;
  Some {| ra_ptr := ra_ptr it + ra_block_length it;
          ra_block_length := ra_block_length it;
          ra_index := as_index D (ra_index it + 1);
          ra_end := ra_end it |}.

(** [operator--]. *)
Definition ra_decrement (it : random_access_iterator)
  : random_access_iterator :=
  {| ra_ptr := ra_ptr it - ra_block_length it;
     ra_block_length := ra_block_length it;
     ra_index := as_index D (ra_index it - 1);
     ra_end := ra_end it |}.

(** [operator+=(difference_type n)]: [ptr += n * block_length; index += n]. *)
Definition ra_add_assign (it : random_access_iterator) (n : Z)
  : option random_access_iterator :=
  step <- multiply difference_type block_length_type n (ra_block_length it) ;;
  Some {| ra_ptr := ra_ptr it + step;
          ra_block_length := ra_block_length it;
          ra_index := as_index D (ra_index it + n);
          ra_end := ra_end it |}.

(** [operator+(difference_type n)]; the argument is converted to
    [difference_type]. *)
Definition ra_add (it : random_access_iterator) (n : Z)
  : option random_access_iterator :=
  ra_add_assign it (cast difference_type n).

(** [operator-=(difference_type n)]: [return *this += -n;] *)
Definition ra_sub_assign (it : random_access_iterator) (n : Z)
  : option random_access_iterator :=
  ra_add_assign it (cast difference_type (- n)).

(** [operator-(const random_access_iterator& rhs)]. *)
Definition ra_difference (lhs rhs : random_access_iterator) : Z :=
  cast difference_type (ra_index lhs - ra_index rhs).

(** [operator[](difference_type n)]. *)
Definition ra_subscript (it : random_access_iterator) (n : Z)
  : option entry_base :=
  it' <- ra_add it n ;; Some (ra_deref it').

Definition ra_eqb (lhs rhs : random_access_iterator) : bool :=
  ra_index lhs =? ra_index rhs.

Definition ra_ltb (lhs rhs : random_access_iterator) : bool :=
  ra_index lhs <? ra_index rhs.

(** [flat_group_base::begin]. *)
Definition flat_begin (this : byte_range) (m : memory)
  : option random_access_iterator :=
  dimension <- group_get_header size_checks_enabled this D ;;
  block_length <- blockLength native size_checks_enabled E D dimension m ;;
  Some {| ra_ptr := addressof this + dimension_size D;
          ra_block_length := block_length;
          ra_index := 0;
          ra_end := end_ptr size_checks_enabled this |}.

(** [flat_group_base::end]. *)
Definition flat_end (this : byte_range) (m : memory)
  : option random_access_iterator :=
  size_bytes <- flat_size_bytes native size_checks_enabled E D this m ;;
  dimension <- group_get_header size_checks_enabled this D ;;
  block_length <- blockLength native size_checks_enabled E D dimension m ;;
  n <- group_size native size_checks_enabled E D this m ;;
  Some {| ra_ptr := addressof this + size_bytes;
          ra_block_length := block_length;
          ra_index := n;
          ra_end := end_ptr size_checks_enabled this |}.

(** [empty()]. *)
Definition flat_empty (this : byte_range) (m : memory) : option bool :=
  n <- group_size native size_checks_enabled E D this m ;; Some (n =? 0).

(** [operator[](size_type pos)]. *)
Definition flat_index (this : byte_range) (pos : Z) (m : memory)
  : option entry_base :=
  SBEPP_ASSERT size_checks_enabled
    (n <- group_size native size_checks_enabled E D this m ;;
     Some (pos <? n)) ;;;
  first <- flat_begin this m ;;
  ra_subscript first pos.

(** [front()]. *)
Definition flat_front (this : byte_range) (m : memory) : option entry_base :=
  SBEPP_ASSERT size_checks_enabled
    (e <- flat_empty this m ;; Some (negb e)) ;;;
  first <- flat_begin this m ;;
  Some (ra_deref first).

(** [back()]: [*(--end())]. *)
Definition flat_back (this : byte_range) (m : memory) : option entry_base :=
  SBEPP_ASSERT size_checks_enabled
    (e <- flat_empty this m ;; Some (negb e)) ;;;
  last <- flat_end this m ;;
  Some (ra_deref (ra_decrement last)).

(** [resize(count)]: sets [numInGroup]. *)
Definition flat_resize (this : byte_range) (count : Z) : M unit :=
  dimension <~ lift (fun _ => group_get_header size_checks_enabled this D) ;;
  composite_set native size_checks_enabled E dimension
    (dimension_numInGroup D) count.

(** [clear()]. *)
Definition flat_clear (this : byte_range) : M unit := flat_resize this 0.

(** The loop [for(auto it = begin(); it != end(); ++it)] over the entries,
    with at most [fuel] iterations. *)
Fixpoint ra_for_each {A : Type} (fuel : nat)
    (it last : random_access_iterator)
    (body : entry_base -> A -> option A) (acc : A)
  : option (random_access_iterator * A) :=
  if ra_eqb it last then Some (it, acc)
  else match fuel with
       | O => None
       | S fuel' =>
           acc' <- body (ra_deref it) acc ;;
           it' <- ra_increment it ;;
           ra_for_each fuel' it' last body acc'
       end.

(** The entries a range-[for] over a flat group visits, in order, and the
    iterator it ends with. *)
Definition flat_visit_entries (this : byte_range) (m : memory)
  : option (random_access_iterator * list entry_base) :=
  first <- flat_begin this m ;;
  last <- flat_end this m ;;
  ra_for_each (Z.to_nat (ra_index last)) first last
    (fun entry visited => Some (visited ++ [entry])) [].

End FlatGroup.

(* ===================================================================== *)
(** * Verified properties *)
(* ===================================================================== *)
(** ** Machine integers *)

Lemma sizeof_cases (T : prim_type) :
  sizeof T = 1 \/ sizeof T = 2 \/ sizeof T = 4 \/ sizeof T = 8.
Proof. destruct T; cbn; auto. Qed.

Lemma to_unsigned_range (w v : Z) : 0 <= w -> 0 <= to_unsigned w v < 2 ^ w.
Proof. intros Hw. unfold to_unsigned. apply Z.mod_pos_bound. lia. Qed.

Lemma to_unsigned_small (w v : Z) : 0 <= v < 2 ^ w -> to_unsigned w v = v.
Proof. intros H. unfold to_unsigned. apply Z.mod_small. exact H. Qed.

Lemma to_unsigned_to_signed (w v : Z) :
  0 < w -> to_unsigned w (to_signed w v) = to_unsigned w v.
Proof.
  intros Hw. unfold to_unsigned, to_signed.
  destruct (v mod 2 ^ w <? 2 ^ (w - 1)).
  - apply Z.mod_mod. lia.
  - rewrite <- (Z.mod_add _ 1) by lia.
    replace (v mod 2 ^ w - 2 ^ w + 1 * 2 ^ w) with (v mod 2 ^ w) by lia.
    apply Z.mod_mod. lia.
Qed.

Lemma to_signed_to_unsigned (w v : Z) :
  0 < w -> - 2 ^ (w - 1) <= v < 2 ^ (w - 1) -> to_signed w (to_unsigned w v) = v.
Proof.
  intros Hw Hv. unfold to_unsigned, to_signed.
  assert (Hp : 2 ^ w = 2 * 2 ^ (w - 1)).
  { replace w with (Z.succ (w - 1)) at 1 by lia. apply Z.pow_succ_r. lia. }
  rewrite Z.mod_mod by lia.
  destruct (Z.ltb_spec (v mod 2 ^ w) (2 ^ (w - 1))) as [Hlt | Hge].
  - destruct (Z.neg_nonneg_cases v) as [Hneg | Hpos].
    + exfalso.
      assert (v mod 2 ^ w = v + 2 ^ w).
      { symmetry. apply Z.mod_unique with (q := -1); lia. }
      lia.
    + apply Z.mod_small. lia.
  - destruct (Z.neg_nonneg_cases v) as [Hneg | Hpos].
    + assert (v mod 2 ^ w = v + 2 ^ w).
      { symmetry. apply Z.mod_unique with (q := -1); lia. }
      lia.
    + exfalso. rewrite Z.mod_small in Hge by lia. lia.
Qed.

Lemma bits_pos (T : prim_type) : 0 < bits T.
Proof. destruct T; cbn; lia. Qed.

(** Converting to the unsigned counterpart and back is the identity on the
    values of the type. *)
Lemma cast_to_unsigned (T : prim_type) (v : Z) :
  in_type T v -> cast T (to_unsigned (bits T) v) = v.
Proof.
  unfold in_type, cast. pose proof (bits_pos T) as Hb.
  destruct (is_signed T); intros Hv.
  - apply to_signed_to_unsigned; assumption.
  - unfold to_unsigned. rewrite Z.mod_mod by lia. apply Z.mod_small. exact Hv.
Qed.

Lemma to_unsigned_cast (T : prim_type) (u : Z) :
  to_unsigned (bits T) (cast T u) = to_unsigned (bits T) u.
Proof.
  unfold cast. pose proof (bits_pos T) as Hb.
  destruct (is_signed T).
  - apply to_unsigned_to_signed. exact Hb.
  - unfold to_unsigned. apply Z.mod_mod. lia.
Qed.

(** ** Bits of the portable [byteswap] *)

Lemma testbit_byte_mask (k j : Z) :
  0 <= k ->
  Z.testbit (Z.shiftl (Z.ones 8) k) j = (k <=? j) && (j <? k + 8).
Proof.
  intros Hk.
  destruct (Z.ltb_spec j 0) as [Hneg | Hj].
  - rewrite Z.testbit_neg_r by exact Hneg.
    destruct (Z.leb_spec k j); [lia | reflexivity].
  - rewrite Z.shiftl_spec by exact Hj.
    destruct (Z.leb_spec k j) as [Hle | Hgt]; cbn [andb].
    + destruct (Z.ltb_spec j (k + 8)).
      * apply Z.ones_spec_low. lia.
      * apply Z.ones_spec_high. lia.
    + apply Z.testbit_neg_r. lia.
Qed.

(** One term of a byte swap: byte [k / 8] of [v], moved up by [s] bits. *)
Lemma testbit_term_shl (v k s i : Z) :
  0 <= k -> 0 <= i ->
  Z.testbit (Z.shiftl (Z.land v (Z.shiftl (Z.ones 8) k)) s) i
  = Z.testbit v (i - s) && ((k <=? i - s) && (i - s <? k + 8)).
Proof.
  intros Hk Hi.
  rewrite Z.shiftl_spec by exact Hi.
  rewrite Z.land_spec, testbit_byte_mask by exact Hk. reflexivity.
Qed.

Lemma testbit_term_shr (v k s i : Z) :
  0 <= k -> 0 <= i ->
  Z.testbit (Z.shiftr (Z.land v (Z.shiftl (Z.ones 8) k)) s) i
  = Z.testbit v (i + s) && ((k <=? i + s) && (i + s <? k + 8)).
Proof.
  intros Hk Hi.
  rewrite Z.shiftr_spec by exact Hi.
  rewrite Z.land_spec, testbit_byte_mask by exact Hk. reflexivity.
Qed.

Lemma testbit_above (v w i : Z) :
  0 <= v < 2 ^ w -> w <= i -> Z.testbit v i = false.
Proof.
  intros Hv Hi.
  destruct (Z.eq_dec v 0) as [-> | Hnz]; [apply Z.bits_0 |].
  apply Z.bits_above_log2; [lia |].
  assert (Z.log2 v < w); [| lia].
  destruct (Z.le_gt_cases w 0) as [Hw | Hw].
  - assert (2 ^ w <= 1).
    { destruct (Z.eq_dec w 0) as [-> | ?]; [cbn; lia |].
      rewrite Z.pow_neg_r by lia. lia. }
    lia.
  - apply Z.log2_lt_pow2; lia.
Qed.

(** Decide every comparison of the goal on the current case for [i]. *)
Ltac decide_comparisons :=
  repeat match goal with
  | |- context [?a <=? ?b] =>
      first
        [ replace (a <=? b) with true by (symmetry; apply Z.leb_le; lia)
        | replace (a <=? b) with false by (symmetry; apply Z.leb_gt; lia) ]
  | |- context [?a <? ?b] =>
      first
        [ replace (a <? b) with true by (symmetry; apply Z.ltb_lt; lia)
        | replace (a <? b) with false by (symmetry; apply Z.ltb_ge; lia) ]
  end.

Ltac bool_simpl :=
  rewrite ?andb_true_r, ?andb_false_r, ?orb_false_r, ?orb_false_l.

Lemma byteswap16_bits (v i : Z) :
  0 <= i ->
  Z.testbit (byteswap16 v) i
  = if i <? 8 then Z.testbit v (i + 8)
    else if i <? 16 then Z.testbit v (i - 8) else false.
Proof.
  intros Hi. unfold byteswap16.
  change 0x00FF with (Z.shiftl (Z.ones 8) 0).
  change 0xFF00 with (Z.shiftl (Z.ones 8) 8).
  rewrite Z.lor_spec, testbit_term_shl, testbit_term_shr by lia.
  destruct (Z.ltb_spec i 8); [| destruct (Z.ltb_spec i 16)];
    decide_comparisons; bool_simpl; reflexivity.
Qed.

Lemma byteswap32_bits (v i : Z) :
  0 <= i ->
  Z.testbit (byteswap32 v) i
  = if i <? 8 then Z.testbit v (i + 24)
    else if i <? 16 then Z.testbit v (i + 8)
    else if i <? 24 then Z.testbit v (i - 8)
    else if i <? 32 then Z.testbit v (i - 24) else false.
Proof.
  intros Hi. unfold byteswap32.
  change 0x000000FF with (Z.shiftl (Z.ones 8) 0).
  change 0x0000FF00 with (Z.shiftl (Z.ones 8) 8).
  change 0x00FF0000 with (Z.shiftl (Z.ones 8) 16).
  change 0xFF000000 with (Z.shiftl (Z.ones 8) 24).
  rewrite !Z.lor_spec, !testbit_term_shl, !testbit_term_shr by lia.
  destruct (Z.ltb_spec i 8); [| destruct (Z.ltb_spec i 16);
    [| destruct (Z.ltb_spec i 24); [| destruct (Z.ltb_spec i 32)]]];
    decide_comparisons; bool_simpl; reflexivity.
Qed.

Lemma byteswap64_bits (v i : Z) :
  0 <= i ->
  Z.testbit (byteswap64 v) i
  = if i <? 8 then Z.testbit v (i + 56)
    else if i <? 16 then Z.testbit v (i + 40)
    else if i <? 24 then Z.testbit v (i + 24)
    else if i <? 32 then Z.testbit v (i + 8)
    else if i <? 40 then Z.testbit v (i - 8)
    else if i <? 48 then Z.testbit v (i - 24)
    else if i <? 56 then Z.testbit v (i - 40)
    else if i <? 64 then Z.testbit v (i - 56) else false.
Proof.
  intros Hi. unfold byteswap64.
  change 0x00000000000000FF with (Z.shiftl (Z.ones 8) 0).
  change 0x000000000000FF00 with (Z.shiftl (Z.ones 8) 8).
  change 0x0000000000FF0000 with (Z.shiftl (Z.ones 8) 16).
  change 0x00000000FF000000 with (Z.shiftl (Z.ones 8) 24).
  change 0x000000FF00000000 with (Z.shiftl (Z.ones 8) 32).
  change 0x0000FF0000000000 with (Z.shiftl (Z.ones 8) 40).
  change 0x00FF000000000000 with (Z.shiftl (Z.ones 8) 48).
  change 0xFF00000000000000 with (Z.shiftl (Z.ones 8) 56).
  rewrite !Z.lor_spec, !testbit_term_shl, !testbit_term_shr by lia.
  destruct (Z.ltb_spec i 8); [| destruct (Z.ltb_spec i 16);
    [| destruct (Z.ltb_spec i 24); [| destruct (Z.ltb_spec i 32);
    [| destruct (Z.ltb_spec i 40); [| destruct (Z.ltb_spec i 48);
    [| destruct (Z.ltb_spec i 56); [| destruct (Z.ltb_spec i 64)]]]]]]];
    decide_comparisons; bool_simpl; reflexivity.
Qed.

Lemma bits_bounded (x w : Z) :
  0 <= w -> (forall i, w <= i -> Z.testbit x i = false) -> 0 <= x < 2 ^ w.
Proof.
  intros Hw Hhigh.
  assert (Hx : x = x mod 2 ^ w).
  { apply Z.bits_inj'. intros i Hi.
    destruct (Z.lt_ge_cases i w) as [Hlt | Hge].
    - rewrite Z.mod_pow2_bits_low by lia. reflexivity.
    - rewrite Z.mod_pow2_bits_high by lia. apply Hhigh. exact Hge. }
  rewrite Hx. apply Z.mod_pos_bound. lia.
Qed.

Lemma byteswap16_range (v : Z) : 0 <= byteswap16 v < 2 ^ 16.
Proof.
  apply bits_bounded; [lia |]. intros i Hi.
  rewrite byteswap16_bits by lia. decide_comparisons. reflexivity.
Qed.

Lemma byteswap32_range (v : Z) : 0 <= byteswap32 v < 2 ^ 32.
Proof.
  apply bits_bounded; [lia |]. intros i Hi.
  rewrite byteswap32_bits by lia. decide_comparisons. reflexivity.
Qed.

Lemma byteswap64_range (v : Z) : 0 <= byteswap64 v < 2 ^ 64.
Proof.
  apply bits_bounded; [lia |]. intros i Hi.
  rewrite byteswap64_bits by lia. decide_comparisons. reflexivity.
Qed.

Ltac same_bit := f_equal; lia.

Lemma byteswap16_involutive (v : Z) :
  0 <= v < 2 ^ 16 -> byteswap16 (byteswap16 v) = v.
Proof.
  intros Hv. apply Z.bits_inj'. intros i Hi.
  rewrite byteswap16_bits by exact Hi.
  destruct (Z.ltb_spec i 8); [| destruct (Z.ltb_spec i 16)];
    rewrite ?byteswap16_bits by lia; decide_comparisons;
    first [ same_bit | symmetry; apply (testbit_above v 16); lia ].
Qed.

Lemma byteswap32_involutive (v : Z) :
  0 <= v < 2 ^ 32 -> byteswap32 (byteswap32 v) = v.
Proof.
  intros Hv. apply Z.bits_inj'. intros i Hi.
  rewrite byteswap32_bits by exact Hi.
  destruct (Z.ltb_spec i 8); [| destruct (Z.ltb_spec i 16);
    [| destruct (Z.ltb_spec i 24); [| destruct (Z.ltb_spec i 32)]]];
    rewrite ?byteswap32_bits by lia; decide_comparisons;
    first [ same_bit | symmetry; apply (testbit_above v 32); lia ].
Qed.

Lemma byteswap64_involutive (v : Z) :
  0 <= v < 2 ^ 64 -> byteswap64 (byteswap64 v) = v.
Proof.
  intros Hv. apply Z.bits_inj'. intros i Hi.
  rewrite byteswap64_bits by exact Hi.
  destruct (Z.ltb_spec i 8); [| destruct (Z.ltb_spec i 16);
    [| destruct (Z.ltb_spec i 24); [| destruct (Z.ltb_spec i 32);
    [| destruct (Z.ltb_spec i 40); [| destruct (Z.ltb_spec i 48);
    [| destruct (Z.ltb_spec i 56); [| destruct (Z.ltb_spec i 64)]]]]]]];
    rewrite ?byteswap64_bits by lia; decide_comparisons;
    first [ same_bit | symmetry; apply (testbit_above v 64); lia ].
Qed.

(** The swap selected for a multi-byte type stays in the type's unsigned
    range and undoes itself. *)
Lemma byteswap_by_size (u : Z) :
  byteswap 2 u = byteswap16 u /\ byteswap 4 u = byteswap32 u
  /\ byteswap 8 u = byteswap64 u /\ byteswap 1 u = u.
Proof. repeat split; reflexivity. Qed.

Lemma byteswap_range (T : prim_type) (u : Z) :
  sizeof T <> 1 -> 0 <= byteswap (sizeof T) u < 2 ^ bits T.
Proof.
  intros Hne. destruct (byteswap_by_size u) as (H2 & H4 & H8 & _).
  destruct T; try (exfalso; apply Hne; reflexivity).
  all: unfold bits, sizeof; rewrite ?H2, ?H4, ?H8.
  - exact (byteswap16_range u).
  - exact (byteswap16_range u).
  - exact (byteswap32_range u).
  - exact (byteswap32_range u).
  - exact (byteswap64_range u).
  - exact (byteswap64_range u).
Qed.

Lemma byteswap_involutive (T : prim_type) (u : Z) :
  0 <= u < 2 ^ bits T ->
  byteswap (sizeof T) (byteswap (sizeof T) u) = u.
Proof.
  intros Hu.
  destruct (byteswap_by_size u) as (H2 & H4 & H8 & H1).
  destruct T; unfold bits, sizeof in *.
  all: try (rewrite H1, H1; reflexivity).
  all: rewrite ?H2, ?H4, ?H8.
  - rewrite (proj1 (byteswap_by_size (byteswap16 u))).
    exact (byteswap16_involutive u Hu).
  - rewrite (proj1 (byteswap_by_size (byteswap16 u))).
    exact (byteswap16_involutive u Hu).
  - rewrite (proj1 (proj2 (byteswap_by_size (byteswap32 u)))).
    exact (byteswap32_involutive u Hu).
  - rewrite (proj1 (proj2 (byteswap_by_size (byteswap32 u)))).
    exact (byteswap32_involutive u Hu).
  - rewrite (proj1 (proj2 (proj2 (byteswap_by_size (byteswap64 u))))).
    exact (byteswap64_involutive u Hu).
  - rewrite (proj1 (proj2 (proj2 (byteswap_by_size (byteswap64 u))))).
    exact (byteswap64_involutive u Hu).
Qed.

(** ** Memory *)

Lemma store_bytes_below (bs : list Z) (m : memory) (p a : Z) :
  a < p -> store_bytes m p bs a = m a.
Proof.
  revert m p. induction bs as [| b rest IH]; intros m p Ha; cbn.
  - reflexivity.
  - rewrite IH by lia. unfold store_byte.
    destruct (Z.eqb_spec a p); [lia | reflexivity].
Qed.

Lemma store_bytes_above (bs : list Z) (m : memory) (p a : Z) :
  p + Z.of_nat (length bs) <= a -> store_bytes m p bs a = m a.
Proof.
  revert m p. induction bs as [| b rest IH]; intros m p Ha; cbn.
  - reflexivity.
  - cbn [length] in Ha. rewrite IH by lia. unfold store_byte.
    destruct (Z.eqb_spec a p); [lia | reflexivity].
Qed.

Lemma store_bytes_outside (bs : list Z) (m : memory) (p a : Z) :
  a < p \/ p + Z.of_nat (length bs) <= a -> store_bytes m p bs a = m a.
Proof.
  intros [H | H]; [apply store_bytes_below | apply store_bytes_above]; exact H.
Qed.

Lemma load_store_bytes (bs : list Z) (m : memory) (p : Z) :
  load_bytes (store_bytes m p bs) p (length bs) = bs.
Proof.
  revert m p. induction bs as [| b rest IH]; intros m p; cbn.
  - reflexivity.
  - rewrite IH. f_equal.
    rewrite store_bytes_below by lia. unfold store_byte.
    rewrite Z.eqb_refl. reflexivity.
Qed.

(** Two memories that agree on a window give the same bytes. *)
Lemma load_bytes_ext (n : nat) (m m' : memory) (p : Z) :
  (forall a, p <= a < p + Z.of_nat n -> m' a = m a) ->
  load_bytes m' p n = load_bytes m p n.
Proof.
  revert p. induction n as [| k IH]; intros p Hagree; cbn.
  - reflexivity.
  - rewrite Hagree by lia. f_equal. apply IH.
    intros a Ha. apply Hagree. lia.
Qed.

Lemma length_load_bytes (n : nat) (m : memory) (p : Z) :
  length (load_bytes m p n) = n.
Proof. revert p. induction n; intros p; cbn; [| rewrite IHn]; reflexivity. Qed.

Lemma length_le_bytes (n : nat) (u : Z) : length (le_bytes n u) = n.
Proof. revert u. induction n; intros u; cbn; [| rewrite IHn]; reflexivity. Qed.

Lemma le_value_le_bytes (n : nat) (u : Z) :
  le_value (le_bytes n u) = u mod 256 ^ Z.of_nat n.
Proof.
  revert u. induction n as [| k IH]; intros u.
  - cbn. rewrite Z.mod_1_r. reflexivity.
  - cbn [le_bytes le_value]. rewrite IH.
    rewrite Nat2Z.inj_succ, Z.pow_succ_r by lia.
    rewrite Z.rem_mul_r by lia. reflexivity.
Qed.

Lemma pow_256 (n : Z) : 0 <= n -> 256 ^ n = 2 ^ (8 * n).
Proof. intros Hn. change 256 with (2 ^ 8). rewrite <- Z.pow_mul_r; lia. Qed.

Section CodecFacts.

Variable native : endian.

Lemma length_object_repr (n : nat) (u : Z) :
  length (object_repr native n u) = n.
Proof.
  unfold object_repr. destruct native;
    rewrite ?length_rev; apply length_le_bytes.
Qed.

Lemma object_value_repr (n : nat) (u : Z) :
  0 <= u < 2 ^ (8 * Z.of_nat n) ->
  object_value native (object_repr native n u) = u.
Proof.
  intros Hu. unfold object_value, object_repr.
  destruct native; rewrite ?rev_involutive, le_value_le_bytes;
    rewrite pow_256 by lia; apply Z.mod_small; exact Hu.
Qed.

Lemma object_value_rev_repr (n : nat) (u : Z) :
  0 <= u < 2 ^ (8 * Z.of_nat n) ->
  object_value native (rev (rev (object_repr native n u))) = u.
Proof. intros Hu. rewrite rev_involutive. apply object_value_repr, Hu. Qed.

Lemma sizeof_nat (T : prim_type) :
  8 * Z.of_nat (Z.to_nat (sizeof T)) = bits T.
Proof. unfold bits. destruct T; reflexivity. Qed.

(** What [memcpy] wrote is what [memcpy] reads back. *)
Lemma memcpy_load_store (T : prim_type) (m : memory) (ptr v : Z) :
  memcpy_load native T (memcpy_store native T m ptr v) ptr
  = cast T (to_unsigned (bits T) v).
Proof.
  unfold memcpy_load, memcpy_store.
  rewrite <- (length_object_repr (Z.to_nat (sizeof T))
                (to_unsigned (bits T) v)) at 2.
  rewrite load_store_bytes, object_value_repr; [reflexivity |].
  rewrite sizeof_nat. apply to_unsigned_range.
  pose proof (bits_pos T). lia.
Qed.

Lemma endian_eqb_negb (E : endian) (b : bool) :
  negb (endian_eqb E native) && negb b = negb (endian_eqb E native || b).
Proof. symmetry. apply negb_orb. Qed.

Lemma get_set_primitive (T : prim_type) (E : endian) (m : memory)
    (ptr v : Z) :
  in_type T v ->
  get_primitive native T E (set_primitive native T E m ptr v) ptr = v.
Proof.
  intros Hv. unfold get_primitive, set_primitive.
  rewrite endian_eqb_negb, memcpy_load_store.
  destruct (endian_eqb E native || (sizeof T =? 1)) eqn:Hsame; cbn [negb].
  - apply cast_to_unsigned, Hv.
  - assert (Hne : sizeof T <> 1).
    { apply orb_false_elim in Hsame. destruct Hsame as [_ Hs].
      apply Z.eqb_neq in Hs. exact Hs. }
    pose proof (bits_pos T) as Hb.
    rewrite !to_unsigned_cast.
    rewrite (to_unsigned_small _ (byteswap _ _)) by (apply byteswap_range, Hne).
    rewrite (to_unsigned_small _ (byteswap _ _)) by (apply byteswap_range, Hne).
    rewrite byteswap_involutive by (apply to_unsigned_range; lia).
    apply cast_to_unsigned, Hv.
Qed.

Lemma get_set_primitive_bitcast (T : prim_type) (E : endian) (m : memory)
    (ptr v : Z) :
  in_type T v ->
  get_primitive_bitcast native T E
    (set_primitive_bitcast native T E m ptr v) ptr = v.
Proof.
  intros Hv. unfold get_primitive_bitcast, set_primitive_bitcast.
  pose proof (bits_pos T) as Hb.
  assert (Hu : 0 <= to_unsigned (bits T) v
               < 2 ^ (8 * Z.of_nat (Z.to_nat (sizeof T)))).
  { rewrite sizeof_nat. apply to_unsigned_range. lia. }
  destruct (endian_eqb E native || (sizeof T =? 1)).
  - rewrite <- (length_object_repr (Z.to_nat (sizeof T))
                  (to_unsigned (bits T) v)) at 2.
    rewrite load_store_bytes, object_value_repr by exact Hu.
    apply cast_to_unsigned, Hv.
  - replace (Z.to_nat (sizeof T)) with
      (length (rev (object_repr native (Z.to_nat (sizeof T))
                      (to_unsigned (bits T) v)))) at 2
      by (rewrite length_rev; apply length_object_repr).
    rewrite load_store_bytes, object_value_rev_repr by exact Hu.
    apply cast_to_unsigned, Hv.
Qed.

(** The two compile-time branches of the codec store the same bytes and
    read the same value. *)
Lemma set_primitive_frame (T : prim_type) (E : endian) (m : memory)
    (ptr v a : Z) :
  a < ptr \/ ptr + sizeof T <= a ->
  set_primitive native T E m ptr v a = m a.
Proof.
  intros Ha. unfold set_primitive, memcpy_store.
  apply store_bytes_outside. rewrite length_object_repr.
  rewrite Z2Nat.id by (destruct T; cbn; lia). exact Ha.
Qed.

Lemma get_primitive_ext (T : prim_type) (E : endian) (m m' : memory)
    (ptr : Z) :
  (forall a, ptr <= a < ptr + sizeof T -> m' a = m a) ->
  get_primitive native T E m' ptr = get_primitive native T E m ptr.
Proof.
  intros Hagree. unfold get_primitive, memcpy_load.
  rewrite (load_bytes_ext _ m m').
  - reflexivity.
  - intros a Ha. apply Hagree.
    rewrite Z2Nat.id in Ha by (destruct T; cbn; lia). exact Ha.
Qed.

End CodecFacts.

(** C2. For every integer schema type (1, 2, 4 or 8 bytes), every native
    byte order and every wire byte order, a value of the type written with
    [set_primitive] and read back with [get_primitive] from the same address
    is returned unchanged; this holds on the [memcpy]/[byteswap] branch
    (whose swap undoes itself) and on the [std::bit_cast] branch. *)
Theorem primitive_round_trip (native E : endian) (T : prim_type)
    (m : memory) (ptr v : Z) :
  in_type T v ->
  get_primitive native T E (set_primitive native T E m ptr v) ptr = v
  /\ get_primitive_bitcast native T E
       (set_primitive_bitcast native T E m ptr v) ptr = v
  /\ byteswap (sizeof T) (byteswap (sizeof T) (to_unsigned (bits T) v))
     = to_unsigned (bits T) v.
Proof.
  intros Hv. split; [| split].
  - apply get_set_primitive, Hv.
  - apply get_set_primitive_bitcast, Hv.
  - apply byteswap_involutive, to_unsigned_range.
    pose proof (bits_pos T). lia.
Qed.

Lemma primitive_round_trip_witness :
  in_type int32_t (-2) /\
  get_primitive little int32_t big
    (set_primitive little int32_t big (fun _ => 0) 16 (-2)) 16 = -2.
Proof.
  assert (H : in_type int32_t (-2)) by (cbn; lia).
  split; [exact H |].
  exact (proj1 (primitive_round_trip little big int32_t (fun _ => 0) 16 (-2) H)).
Defined.
(** ** Optional wrappers *)

Section OptionalFacts.

(** A wrapper of an integer value type. *)
Variable Derived : optional_traits Z.

Lemma has_value_false_iff (o : optional_base.t Z) :
  optional_base.has_value integer_operators Derived o = false
  <-> optional_base.val o = null_value Derived.
Proof.
  unfold optional_base.has_value. cbn [equal integer_operators].
  destruct (Z.eqb_spec (optional_base.val o) (null_value Derived));
    cbn; split; intros H; congruence.
Qed.

Lemma has_value_true_iff (o : optional_base.t Z) :
  optional_base.has_value integer_operators Derived o = true
  <-> optional_base.val o <> null_value Derived.
Proof.
  unfold optional_base.has_value. cbn [equal integer_operators].
  destruct (Z.eqb_spec (optional_base.val o) (null_value Derived));
    cbn; split; intros H; congruence.
Qed.

(** For the integer value types [has_value()] is false exactly for the
    null value, which is what [nullopt] and default construction store. *)
Lemma optional_integer_has_value_null (o : optional_base.t Z) :
  (optional_base.has_value integer_operators Derived o = false
   <-> optional_base.val o = null_value Derived)
  /\ optional_base.has_value integer_operators Derived
       (optional_base.of_nullopt Derived) = false
  /\ optional_base.has_value integer_operators Derived
       (optional_base.default Derived) = false.
Proof.
  split; [apply has_value_false_iff |].
  split; apply has_value_false_iff; reflexivity.
Qed.

End OptionalFacts.

(** *** A null value that is a NaN *)

Lemma nan_is_nan : FloatOps.Prim2SF PrimFloat.nan = SpecFloat.S754_nan.
Proof. reflexivity. Qed.

Lemma double_equal_nan (x : PrimFloat.float) :
  PrimFloat.eqb x PrimFloat.nan = false.
Proof.
  rewrite FloatAxioms.eqb_spec, nan_is_nan.
  unfold SpecFloat.SFeqb, SpecFloat.SFcompare.
  destruct (FloatOps.Prim2SF x) as [| | | [] ? ?]; reflexivity.
Qed.

Lemma double_less_nan (x : PrimFloat.float) :
  PrimFloat.ltb PrimFloat.nan x = false.
Proof. rewrite FloatAxioms.ltb_spec, nan_is_nan. reflexivity. Qed.

Lemma double_less_equal_nan (x : PrimFloat.float) :
  PrimFloat.leb PrimFloat.nan x = false.
Proof. rewrite FloatAxioms.leb_spec, nan_is_nan. reflexivity. Qed.

Lemma double_has_value (o : optional_base.t PrimFloat.float) :
  optional_base.has_value double_operators double_opt_t o = true.
Proof.
  unfold optional_base.has_value. cbn [equal double_operators].
  change (null_value double_opt_t) with PrimFloat.nan.
  rewrite double_equal_nan. reflexivity.
Qed.

(** C5 fails for the optional wrappers of a floating-point value type,
    whose null value is a quiet NaN ([float_opt_t], [double_opt_t]):
    [has_value()] is [val != Derived::null_value()], and [!=] with a NaN
    operand is true, so a wrapper constructed from [nullopt] or
    default-constructed, which stores exactly [null_value()], reports
    [has_value() == true], as does every other wrapper of the type. *)
Theorem optional_nan_null_has_value (o : optional_base.t PrimFloat.float) :
  optional_base.val (optional_base.of_nullopt double_opt_t)
  = null_value double_opt_t
  /\ optional_base.has_value double_operators double_opt_t
       (optional_base.of_nullopt double_opt_t) = true
  /\ optional_base.has_value double_operators double_opt_t
       (optional_base.default double_opt_t) = true
  /\ optional_base.has_value double_operators double_opt_t o = true.
Proof.
  split; [reflexivity |]. repeat split; apply double_has_value.
Qed.

(** C6 fails for the same wrappers: two wrappers constructed from
    [nullopt] are not equal ([==] compares the stored NaNs), and a null
    wrapper is neither less than nor less than or equal to any wrapper [v],
    which in turn is neither greater than nor greater than or equal to
    it. *)
Theorem optional_nan_null_comparisons (v : optional_base.t PrimFloat.float) :
  let null := optional_base.of_nullopt double_opt_t in
  optional_base.eq double_operators null null = false
  /\ optional_base.ne double_operators null null = true
  /\ optional_base.lt double_operators double_opt_t null v = false
  /\ optional_base.le double_operators double_opt_t null v = false
  /\ optional_base.gt double_operators double_opt_t v null = false
  /\ optional_base.ge double_operators double_opt_t v null = false.
Proof.
  cbv zeta.
  unfold optional_base.eq, optional_base.ne, optional_base.lt,
    optional_base.le, optional_base.gt, optional_base.ge.
  rewrite !double_has_value.
  cbn [equal less less_equal double_operators optional_base.val
       optional_base.of_nullopt optional_base.default negb andb orb].
  change (null_value double_opt_t) with PrimFloat.nan.
  rewrite double_equal_nan, double_less_nan, double_less_equal_nan.
  repeat split.
Qed.

(** ** Bitsets *)

Lemma to_signed_small (w v : Z) :
  0 < w -> 0 <= v < 2 ^ (w - 1) -> to_signed w v = v.
Proof.
  intros Hw Hv. rewrite <- (to_signed_to_unsigned w v) at 2 by lia.
  unfold to_unsigned, to_signed. rewrite Z.mod_mod by lia. reflexivity.
Qed.

Lemma testbit_to_signed_low (w v i : Z) :
  0 <= i < w -> Z.testbit (to_signed w v) i = Z.testbit v i.
Proof.
  intros Hi.
  rewrite <- (Z.mod_pow2_bits_low (to_signed w v) w i) by lia.
  rewrite <- (Z.mod_pow2_bits_low v w i) by lia.
  f_equal. apply to_unsigned_to_signed. lia.
Qed.

Lemma land_pow2 (a n : Z) :
  0 <= n -> Z.land a (2 ^ n) = if Z.testbit a n then 2 ^ n else 0.
Proof.
  intros Hn. apply Z.bits_inj'. intros i Hi.
  rewrite Z.land_spec, Z.pow2_bits_eqb by exact Hn.
  destruct (Z.eqb_spec n i) as [-> | Hne].
  - destruct (Z.testbit a i); cbn.
    + rewrite Z.pow2_bits_true by exact Hi. reflexivity.
    + rewrite Z.bits_0. reflexivity.
  - rewrite andb_false_r.
    destruct (Z.testbit a n).
    + rewrite Z.pow2_bits_false by lia. reflexivity.
    + rewrite Z.bits_0. reflexivity.
Qed.

Section BitsetFacts.

Variable T : prim_type.
Variable n : Z.

Hypothesis Hexact : bitset_base.exact_index T n.

Lemma exact_index_lt_32 : 0 <= n < 32.
Proof. destruct Hexact as (_ & Hn & [Hw | Hn31]); lia. Qed.

Lemma shl_int_one : bitset_base.shl_int 1 n = Some (to_signed 32 (2 ^ n)).
Proof.
  pose proof exact_index_lt_32 as Hn.
  unfold bitset_base.shl_int, bitset_base.int_bits.
  replace (0 <=? n) with true by (symmetry; apply Z.leb_le; lia).
  replace (n <? 32) with true by (symmetry; apply Z.ltb_lt; lia).
  rewrite Z.shiftl_1_l. reflexivity.
Qed.

Lemma shl_int_bool (b : bool) :
  bitset_base.shl_int (Z.b2z b) n
  = Some (if b then to_signed 32 (2 ^ n) else 0).
Proof.
  destruct b; cbn [Z.b2z].
  - apply shl_int_one.
  - pose proof exact_index_lt_32 as Hn.
    unfold bitset_base.shl_int, bitset_base.int_bits.
    replace (0 <=? n) with true by (symmetry; apply Z.leb_le; lia).
    replace (n <? 32) with true by (symmetry; apply Z.ltb_lt; lia).
    rewrite Z.shiftl_0_l. reflexivity.
Qed.

Lemma bits_cases : bits T = 8 \/ bits T = 16 \/ bits T = 32 \/ bits T = 64.
Proof. destruct T; cbn; auto. Qed.

(** Bits of a converted [int] operand, below the width of [T]. *)
Lemma testbit_convert_int (x i : Z) :
  0 <= i < bits T ->
  Z.testbit (bitset_base.convert_int T x) i = Z.testbit x i.
Proof.
  intros Hi. unfold bitset_base.convert_int.
  destruct (bits T <? bitset_base.int_bits); [reflexivity |].
  unfold to_unsigned. apply Z.mod_pow2_bits_low. lia.
Qed.

Lemma testbit_mask (i : Z) :
  0 <= i < bits T -> Z.testbit (to_signed 32 (2 ^ n)) i = (n =? i).
Proof.
  intros Hi. destruct Hexact as (_ & Hn & [Hw | Hn31]).
  - rewrite testbit_to_signed_low by lia. apply Z.pow2_bits_eqb. lia.
  - rewrite to_signed_small.
    + apply Z.pow2_bits_eqb. lia.
    + lia.
    + split; [apply Z.pow_nonneg; lia |].
      apply Z.pow_lt_mono_r; lia.
Qed.

Lemma convert_mask : bitset_base.convert_int T (to_signed 32 (2 ^ n)) = 2 ^ n.
Proof.
  destruct Hexact as (_ & Hn & Hor).
  assert (Hpow : 0 <= 2 ^ n < 2 ^ bits T).
  { split; [apply Z.pow_nonneg; lia | apply Z.pow_lt_mono_r; lia]. }
  unfold bitset_base.convert_int, bitset_base.int_bits.
  destruct (Z.ltb_spec (bits T) 32) as [Hlt | Hge].
  - apply to_signed_small; [lia |]. 
    split; [lia |]. apply Z.pow_lt_mono_r; lia.
  - destruct Hor as [Hw | Hn31].
    + replace (bits T) with 32 in * by lia.
      rewrite to_unsigned_to_signed by lia. apply to_unsigned_small, Hpow.
    + rewrite to_signed_small.
      * apply to_unsigned_small, Hpow.
      * lia.
      * split; [lia |]. apply Z.pow_lt_mono_r; lia.
Qed.

(** [set_bit] on an exact index replaces bit [n] by [b] and keeps every
    other bit; [get_bit] then reads [b]. *)
Lemma set_bit_exact (x : Z) (b : bool) :
  0 <= x < 2 ^ bits T ->
  exists x',
    bitset_base.set_bit T x n b = Some x'
    /\ 0 <= x' < 2 ^ bits T
    /\ (forall i, 0 <= i ->
          Z.testbit x' i = if n =? i then b else Z.testbit x i)
    /\ bitset_base.get_bit T x' n = Some b.
Proof.
  intros Hx. pose proof (bits_pos T) as Hw.
  destruct Hexact as (Hsig & Hn & Hor).
  unfold bitset_base.set_bit. rewrite shl_int_one, shl_int_bool.
  eexists. split; [reflexivity |].
  assert (Hbits : forall i, 0 <= i ->
    Z.testbit
      (to_unsigned (bits T)
         (Z.lor (Z.land x (bitset_base.convert_int T
                             (Z.lnot (to_signed 32 (2 ^ n)))))
                (bitset_base.convert_int T
                   (if b then to_signed 32 (2 ^ n) else 0)))) i
    = if n =? i then b else Z.testbit x i).
  { intros i Hi. unfold to_unsigned.
    destruct (Z.lt_ge_cases i (bits T)) as [Hlt | Hge].
    - rewrite Z.mod_pow2_bits_low by lia.
      rewrite Z.lor_spec, Z.land_spec, !testbit_convert_int by lia.
      rewrite Z.lnot_spec by lia.
      rewrite testbit_mask by lia.
      destruct b.
      + rewrite testbit_mask by lia.
        destruct (n =? i), (Z.testbit x i); reflexivity.
      + rewrite Z.bits_0.
        destruct (n =? i), (Z.testbit x i); reflexivity.
    - rewrite Z.mod_pow2_bits_high by lia.
      replace (n =? i) with false by (symmetry; apply Z.eqb_neq; lia).
      symmetry. apply (testbit_above x (bits T)); lia. }
  split; [apply to_unsigned_range; lia |].
  split; [exact Hbits |].
  unfold bitset_base.get_bit. rewrite shl_int_one, convert_mask.
  rewrite land_pow2 by lia. rewrite Hbits by lia. rewrite Z.eqb_refl.
  destruct b; cbn.
  - assert (0 < 2 ^ n) by (apply Z.pow_pos_nonneg; lia).
    replace (2 ^ n =? 0) with false by (symmetry; apply Z.eqb_neq; lia).
    reflexivity.
  - reflexivity.
Qed.

End BitsetFacts.

(** C10, at the input where the code departs from it.  On a 64-bit bitset
    holding only bit 32, clearing bit 31 also clears bit 32 (the mask
    [~(1 << 31)] is the [int] [0x7FFFFFFF], which converts to a 64-bit value
    with bits 32..63 clear); setting bit 31 of an empty bitset sets bits
    31..63; and from index 32 up the shift [1 << n] has no defined
    result, as for index 32 when setting and index 63 when reading. *)
Theorem bitset_uint64_high_bits :
  bitset_base.set_bit uint64_t (2 ^ 32) 31 false = Some 0
  /\ Z.testbit (2 ^ 32) 32 = true
  /\ bitset_base.set_bit uint64_t 0 31 true = Some 0xFFFFFFFF80000000
  /\ bitset_base.get_bit uint64_t (2 ^ 32) 31 = Some true
  /\ bitset_base.set_bit uint64_t 0 32 true = None
  /\ bitset_base.get_bit uint64_t (2 ^ 63) 63 = None.
Proof. repeat split; vm_compute; reflexivity. Qed.

(** No index from 32 up is usable, whatever the bitset holds. *)
Lemma bitset_shift_undefined (T : prim_type) (x n : Z) (b : bool) :
  32 <= n ->
  bitset_base.set_bit T x n b = None /\ bitset_base.get_bit T x n = None.
Proof.
  intros Hn.
  unfold bitset_base.set_bit, bitset_base.get_bit, bitset_base.shl_int,
    bitset_base.int_bits.
  replace (n <? 32) with false by (symmetry; apply Z.ltb_ge; lia).
  rewrite andb_false_r. split; reflexivity.
Qed.
(** ** Dynamic arrays *)

Lemma store_byte_same (m : memory) (p b : Z) : store_byte m p b p = b.
Proof. unfold store_byte. rewrite Z.eqb_refl. reflexivity. Qed.

Lemma store_byte_other (m : memory) (p b a : Z) :
  a <> p -> store_byte m p b a = m a.
Proof.
  intros Hne. unfold store_byte.
  destruct (Z.eqb_spec a p); [contradiction | reflexivity].
Qed.

Lemma fill_loop_outside (n : nat) (m : memory) (first value a : Z) :
  a < first \/ first + Z.of_nat n <= a -> fill_loop n m first value a = m a.
Proof.
  revert m first. induction n as [| k IH]; intros m first Ha; cbn.
  - reflexivity.
  - rewrite IH by lia. apply store_byte_other. lia.
Qed.

Lemma copy_loop_outside (n : nat) (m : memory) (first d_first a : Z) :
  a < d_first \/ d_first + Z.of_nat n <= a ->
  copy_loop n m first d_first a = m a.
Proof.
  revert m first d_first. induction n as [| k IH]; intros m first d Ha; cbn.
  - reflexivity.
  - rewrite IH by lia. apply store_byte_other. lia.
Qed.

Lemma copy_backward_loop_outside (n : nat) (m : memory) (last d_last a : Z) :
  a < d_last - Z.of_nat n \/ d_last <= a ->
  copy_backward_loop n m last d_last a = m a.
Proof.
  revert m last d_last. induction n as [| k IH]; intros m last d Ha; cbn.
  - reflexivity.
  - rewrite IH by lia. apply store_byte_other. lia.
Qed.

(** Stepping through a member function. *)
Lemma bind_lift {A B : Type} (r : memory -> option A) (k : A -> M B)
    (m : memory) :
  bind (lift r) k m
  = match r m with
    | Some a => k a m
    | None => AssertionFailed m
    end.
Proof. unfold bind, lift. destruct (r m); reflexivity. Qed.

Lemma bind_write {B : Type} (f : memory -> memory) (k : unit -> M B)
    (m : memory) :
  bind (write f) k m = k tt (f m).
Proof. reflexivity. Qed.

Lemma bind_ret {A B : Type} (a : A) (k : A -> M B) (m : memory) :
  bind (ret a) k m = k a m.
Proof. reflexivity. Qed.

Lemma bind_bind {A B C : Type} (c : M A) (f : A -> M B) (g : B -> M C)
    (m : memory) :
  bind (bind c f) g m = bind c (fun a => bind (f a) g) m.
Proof. unfold bind. destruct (c m); reflexivity. Qed.

Lemma bind_failed {A B : Type} (c : M A) (k : A -> M B) (m m' : memory) :
  c m = AssertionFailed m' -> bind c k m = AssertionFailed m'.
Proof. intros H. unfold bind. rewrite H. reflexivity. Qed.

Lemma bind_ok {A B : Type} (c : M A) (k : A -> M B) (m m' : memory) (a : A) :
  c m = Ok a m' -> bind c k m = k a m'.
Proof. intros H. unfold bind. rewrite H. reflexivity. Qed.

Lemma assert_spec (enabled : bool) (expr : option bool) :
  SBEPP_ASSERT enabled expr = Some tt <-> (enabled = true -> expr = Some true).
Proof.
  unfold SBEPP_ASSERT. destruct enabled.
  - destruct expr as [[] |]; split; intros H;
      try reflexivity; try discriminate; try (specialize (H eq_refl); discriminate).
  - split; [discriminate | reflexivity].
Qed.

Lemma assert_true (enabled : bool) :
  SBEPP_ASSERT enabled (Some true) = Some tt.
Proof. apply assert_spec. reflexivity. Qed.

Lemma assert_unit (enabled : bool) (expr : option bool) :
  SBEPP_ASSERT enabled expr = Some tt \/ SBEPP_ASSERT enabled expr = None.
Proof. destruct (SBEPP_ASSERT enabled expr) as [[] |]; auto. Qed.

Section DynamicArrayFacts.

Variable native : endian.
Variable size_checks_enabled : bool.
Variable size_type : prim_type.
Variable E : endian.
Variable this : byte_range.

(** [Length] must be unsigned (the class [static_assert]s it). *)
Hypothesis Hunsigned : is_signed size_type = false.

Local Abbreviation size := (dynamic_array_ref.size native size_checks_enabled size_type E this).
Local Abbreviation span_check := (dynamic_array_ref.span_check size_checks_enabled size_type this).
Local Abbreviation data_unchecked := (dynamic_array_ref.data_unchecked size_type this).
Local Abbreviation as_size_type := (dynamic_array_ref.as_size_type size_type).
Local Abbreviation span := (to_unsigned size_t_bits (end_ptr size_checks_enabled this - addressof this)).

Lemma in_type_size_type (v : Z) :
  0 <= v < 2 ^ bits size_type -> in_type size_type v.
Proof. intros Hv. unfold in_type. rewrite Hunsigned. exact Hv. Qed.

Lemma as_size_type_range (v : Z) : 0 <= as_size_type v < 2 ^ bits size_type.
Proof.
  apply to_unsigned_range. pose proof (bits_pos size_type). lia.
Qed.

Lemma get_primitive_range (m : memory) (p : Z) :
  0 <= get_primitive native size_type E m p < 2 ^ bits size_type.
Proof.
  pose proof (bits_pos size_type) as Hb.
  unfold get_primitive, memcpy_load, cast. rewrite Hunsigned.
  destruct (endian_eqb E native || (sizeof size_type =? 1));
    apply to_unsigned_range; lia.
Qed.

Lemma span_check_unit (count : Z) :
  span_check count = Some tt \/ span_check count = None.
Proof. destruct (span_check count) as [[] |]; auto. Qed.

(** [size()] reads the prefix whenever the prefix itself fits. *)
Lemma size_spec (m : memory) :
  size m = span_check 0 ;;;
           Some (get_primitive native size_type E m (addressof this)).
Proof.
  unfold dynamic_array_ref.size, dynamic_array_ref.sbe_size, get_value,
    dynamic_array_ref.span_check.
  rewrite !Z.add_0_r. reflexivity.
Qed.

Lemma size_range (m : memory) (s : Z) :
  size m = Some s -> 0 <= s < 2 ^ bits size_type.
Proof.
  rewrite size_spec. destruct (span_check 0); cbn; [| discriminate].
  intros [= <-]. apply get_primitive_range.
Qed.

Lemma size_fits_prefix (m : memory) (s : Z) :
  size m = Some s -> span_check 0 = Some tt.
Proof.
  rewrite size_spec. destruct (span_check 0) as [[] |]; cbn;
    [reflexivity | discriminate].
Qed.

(** [size()] depends on the prefix bytes only. *)
Lemma size_ext (m m' : memory) :
  (forall a, addressof this <= a < addressof this + sizeof size_type ->
             m' a = m a) ->
  size m' = size m.
Proof.
  intros Hagree. rewrite !size_spec.
  rewrite (get_primitive_ext native size_type E m m'); [reflexivity |].
  exact Hagree.
Qed.

Lemma size_after_set (m : memory) (count : Z) :
  0 <= count < 2 ^ bits size_type ->
  span_check 0 = Some tt ->
  size (set_primitive native size_type E m (addressof this) count)
  = Some count.
Proof.
  intros Hc Hfit. rewrite size_spec, Hfit.
  cbn. f_equal. apply get_set_primitive, in_type_size_type, Hc.
Qed.

Lemma data_checked_spec (m : memory) (s : Z) :
  size m = Some s -> span_check s = Some tt ->
  dynamic_array_ref.data_checked native size_checks_enabled size_type E this m
  = Some data_unchecked.
Proof.
  intros Hs Hfit. unfold dynamic_array_ref.data_checked. rewrite Hs. cbn.
  unfold dynamic_array_ref.span_check, SBEPP_SIZE_CHECK in Hfit.
  rewrite Hfit. reflexivity.
Qed.

(** Conversely, a successful [begin()] says the current span fits. *)
Lemma data_checked_inv (m : memory) (d : Z) :
  dynamic_array_ref.data_checked native size_checks_enabled size_type E this m
  = Some d ->
  d = data_unchecked
  /\ (size_checks_enabled = true ->
      exists s, size m = Some s /\ span_check s = Some tt).
Proof.
  unfold dynamic_array_ref.data_checked.
  destruct (SBEPP_ASSERT _ _) as [[] |] eqn:Hassert; cbn; [| discriminate].
  intros [= <-]. split; [reflexivity |]. intros Hen.
  pose proof (proj1 (assert_spec _ _) Hassert Hen) as Hcond.
  destruct (size m) as [s |]; cbn in Hcond; [| discriminate].
  exists s. split; [reflexivity |].
  unfold dynamic_array_ref.span_check, SBEPP_SIZE_CHECK.
  apply assert_spec. intros _. exact Hcond.
Qed.

Lemma index_spec (m : memory) (s pos : Z) :
  size m = Some s -> span_check s = Some tt -> 0 <= pos < s ->
  dynamic_array_ref.index native size_checks_enabled size_type E this pos m
  = Some (data_unchecked + pos).
Proof.
  intros Hs Hfit Hpos.
  unfold dynamic_array_ref.index, dynamic_array_ref.data,
    dynamic_array_ref.empty.
  rewrite Hs. cbn [obind].
  replace (pos <? s) with true by (symmetry; apply Z.ltb_lt; lia).
  replace (s =? 0) with false by (symmetry; apply Z.eqb_neq; lia).
  cbn [negb]. rewrite (data_checked_spec m s Hs Hfit), !assert_true.
  reflexivity.
Qed.

Lemma prefix_below_data (a : Z) :
  addressof this <= a < addressof this + sizeof size_type ->
  a < data_unchecked.
Proof. unfold dynamic_array_ref.data_unchecked. lia. Qed.

(** The initialisation loop of [resize]: it cannot fail once the new span
    was accepted, it writes [value] to the new slots and nothing else. *)
Lemma init_loop_spec (value n : Z) (cnt : nat) :
  forall (i : Z) (m : memory),
    size m = Some n -> span_check n = Some tt ->
    0 <= i -> i + Z.of_nat cnt = n ->
    exists m',
      dynamic_array_ref.init_loop native size_checks_enabled size_type E this
        cnt i value m = Ok tt m'
      /\ size m' = Some n
      /\ (forall a, a < data_unchecked + i \/ data_unchecked + n <= a ->
                    m' a = m a)
      /\ (forall j, i <= j < n -> m' (data_unchecked + j) = value).
Proof.
  induction cnt as [| k IH]; intros i m Hs Hfit Hi Hn.
  - exists m. cbn. repeat split; try assumption; try reflexivity.
    intros j Hj. lia.
  - pose proof (size_range m n Hs) as Hrange.
    cbn [dynamic_array_ref.init_loop]. unfold bind at 1, lift at 1.
    rewrite (index_spec m n i Hs Hfit) by lia.
    unfold bind at 1, write at 1.
    assert (Hnext : as_size_type (i + 1) = i + 1).
    { apply to_unsigned_small. lia. }
    rewrite Hnext.
    assert (Hs' : size (store_byte m (data_unchecked + i) value) = Some n).
    { rewrite <- Hs. apply size_ext. intros a Ha.
      apply store_byte_other. apply prefix_below_data in Ha. lia. }
    destruct (IH (i + 1) _ Hs' Hfit ltac:(lia) ltac:(lia))
      as (m' & Hrun & Hsize & Hframe & Hnew).
    exists m'. split; [exact Hrun |]. split; [exact Hsize |]. split.
    + intros a Ha. rewrite Hframe by lia. apply store_byte_other. lia.
    + intros j Hj. destruct (Z.eq_dec j i) as [-> | Hne].
      * rewrite Hframe by lia. apply store_byte_same.
      * apply Hnew. lia.
Qed.

Lemma resize_default_init_spec (count : Z) (m : memory) :
  span_check count = Some tt ->
  dynamic_array_ref.resize_default_init native size_checks_enabled size_type
    E this count m
  = Ok tt (set_primitive native size_type E m (addressof this) count).
Proof.
  intros Hfit. unfold dynamic_array_ref.resize_default_init, bind, lift, write.
  rewrite Hfit. reflexivity.
Qed.

Lemma resize_default_init_fail (count : Z) (m : memory) :
  span_check count = None ->
  dynamic_array_ref.resize_default_init native size_checks_enabled size_type
    E this count m
  = AssertionFailed m.
Proof.
  intros Hfit. unfold dynamic_array_ref.resize_default_init, bind, lift, write.
  rewrite Hfit. reflexivity.
Qed.

Lemma resize_value_spec (count value k : Z) (m : memory) :
  0 <= count < 2 ^ bits size_type ->
  size m = Some k ->
  span_check count = Some tt ->
  exists m',
    dynamic_array_ref.resize_value native size_checks_enabled size_type E this
      count value m = Ok tt m'
    /\ size m' = Some count
    /\ (forall a,
          a < addressof this \/ data_unchecked <= a ->
          a < data_unchecked + k \/ data_unchecked + count <= a ->
          m' a = m a)
    /\ (forall j, k <= j < count -> m' (data_unchecked + j) = value).
Proof.
  intros Hc Hk Hfit. pose proof (size_range m k Hk) as Hkr.
  unfold dynamic_array_ref.resize_value.
  unfold bind at 1, lift at 1. rewrite Hk.
  unfold bind at 1. rewrite (resize_default_init_spec count m Hfit).
  pose proof (size_after_set m count Hc (size_fits_prefix m k Hk)) as Hs1.
  destruct (Z.gtb_spec count k) as [Hgt | Hle].
  - destruct (init_loop_spec value count (Z.to_nat (count - k)) k _ Hs1 Hfit)
      as (m' & Hrun & Hsize & Hframe & Hnew); try lia.
    exists m'. split; [exact Hrun |]. split; [exact Hsize |]. split.
    + intros a Hout Ha. rewrite Hframe by exact Ha.
      apply set_primitive_frame. unfold dynamic_array_ref.data_unchecked in Hout.
      lia.
    + exact Hnew.
  - eexists. split; [reflexivity |]. split; [exact Hs1 |]. split.
    + intros a Hout Ha. apply set_primitive_frame.
      unfold dynamic_array_ref.data_unchecked in Hout. lia.
    + intros j Hj. lia.
Qed.

End DynamicArrayFacts.

(** C3. On a buffer large enough for [n] elements, [resize(n)] followed by
    [size()] returns [n]; the elements at indices [[0, k)] keep their bytes
    and the new elements at indices [[k, n)] hold the value-initialised
    element [{}], that is zero.  With the [default_init] tag the new size is
    [n] as well and no byte after the length prefix is written. *)
Theorem resize_then_size (native E : endian) (size_checks_enabled : bool)
    (size_type : prim_type) (this : byte_range) (m : memory) (k n : Z) :
  is_signed size_type = false ->
  0 <= n < 2 ^ bits size_type ->
  dynamic_array_ref.size native size_checks_enabled size_type E this m
    = Some k ->
  dynamic_array_ref.span_check size_checks_enabled size_type this n
    = Some tt ->
  (exists m',
     dynamic_array_ref.resize native size_checks_enabled size_type E this n m
       = Ok tt m'
     /\ dynamic_array_ref.size native size_checks_enabled size_type E this m'
          = Some n
     /\ (forall i, 0 <= i < k ->
           m' (dynamic_array_ref.data_unchecked size_type this + i)
           = m (dynamic_array_ref.data_unchecked size_type this + i))
     /\ (forall i, k <= i < n ->
           m' (dynamic_array_ref.data_unchecked size_type this + i) = 0))
  /\ (exists m',
       dynamic_array_ref.resize_default_init native size_checks_enabled
         size_type E this n m = Ok tt m'
       /\ dynamic_array_ref.size native size_checks_enabled size_type E this m'
            = Some n
       /\ (forall a, dynamic_array_ref.data_unchecked size_type this <= a ->
             m' a = m a)).
Proof.
  intros Hunsigned Hn Hk Hfit. split.
  - destruct (resize_value_spec native size_checks_enabled size_type E this
                Hunsigned n 0 k m Hn Hk Hfit)
      as (m' & Hrun & Hsize & Hframe & Hnew).
    exists m'. split; [exact Hrun |]. split; [exact Hsize |].
    split; [| exact Hnew].
    intros i Hi. apply Hframe; lia.
  - eexists. split; [apply resize_default_init_spec, Hfit |]. split.
    + apply size_after_set; try assumption.
      eapply size_fits_prefix; eassumption.
    + intros a Ha. apply set_primitive_frame.
      unfold dynamic_array_ref.data_unchecked in Ha. lia.
Qed.

Lemma resize_then_size_witness :
  exists m',
    dynamic_array_ref.resize little true uint16_t little
      {| range_begin := 100; range_end := 110 |} 3
      (fun a => if a =? 100 then 1 else if a =? 101 then 0 else 7) = Ok tt m'
    /\ dynamic_array_ref.size little true uint16_t little
         {| range_begin := 100; range_end := 110 |} m' = Some 3
    /\ m' 102 = 7 /\ m' 103 = 0 /\ m' 104 = 0.
Proof.
  destruct (resize_then_size little little true uint16_t
              {| range_begin := 100; range_end := 110 |}
              (fun a => if a =? 100 then 1 else if a =? 101 then 0 else 7)
              1 3 eq_refl ltac:(cbn; lia) eq_refl eq_refl)
    as [(m' & Hrun & Hsize & Hold & Hnew) _].
  exists m'. split; [exact Hrun |]. split; [exact Hsize |].
  split; [exact (Hold 0 ltac:(lia)) |].
  split; [exact (Hnew 1 ltac:(lia)) | exact (Hnew 2 ltac:(lia))].
Defined.

Section DynamicArrayAtomicity.

Variable native : endian.
Variable size_checks_enabled : bool.
Variable size_type : prim_type.
Variable E : endian.
Variable this : byte_range.

(** The facts below are for length types of at most 32 bits, for which
    [sizeof(size_type) + count] cannot wrap around in [std::size_t]. *)
Hypothesis Hunsigned : is_signed size_type = false.
Hypothesis Hnarrow : bits size_type <= 32.

Local Abbreviation size := (dynamic_array_ref.size native size_checks_enabled size_type E this).
Local Abbreviation span_check := (dynamic_array_ref.span_check size_checks_enabled size_type this).
Local Abbreviation data_unchecked := (dynamic_array_ref.data_unchecked size_type this).
Local Abbreviation as_size_type := (dynamic_array_ref.as_size_type size_type).
Local Abbreviation span := (to_unsigned size_t_bits (end_ptr size_checks_enabled this - addressof this)).

Lemma sizeof_bounds : 1 <= sizeof size_type <= 4.
Proof. unfold bits in Hnarrow. destruct size_type; cbn in *; lia. Qed.

Lemma pow_bits_le : 2 ^ bits size_type <= 2 ^ 32.
Proof. apply Z.pow_le_mono_r; [lia | exact Hnarrow]. Qed.

(** What a passed span check says, when checks are compiled in. *)
Lemma span_check_spec (count : Z) :
  0 <= count < 2 ^ 32 ->
  span_check count = Some tt <->
  (size_checks_enabled = true ->
   addressof this <> 0 /\ sizeof size_type + count <= span).
Proof.
  intros Hc. pose proof sizeof_bounds as Hs.
  unfold dynamic_array_ref.span_check, SBEPP_SIZE_CHECK, SBEPP_ASSERT,
    size_check_cond.
  destruct size_checks_enabled.
  - rewrite Z.add_0_l.
    rewrite (to_unsigned_small size_t_bits (sizeof size_type + count))
      by (unfold size_t_bits; lia).
    destruct (Z.eqb_spec (addressof this) 0) as [Hz | Hnz]; cbn [negb andb].
    + split; [discriminate |].
      intros Hfit. destruct (Hfit eq_refl). contradiction.
    + match goal with
      | |- context [?a <=? ?b] => destruct (Z.leb_spec a b) as [Hle | Hgt]
      end; split; intros Hfit;
        try reflexivity; try discriminate; try (split; assumption).
      destruct (Hfit eq_refl). lia.
  - split; [discriminate | reflexivity].
Qed.

Lemma span_check_mono (count count' : Z) :
  0 <= count' <= count -> count < 2 ^ 32 ->
  span_check count = Some tt -> span_check count' = Some tt.
Proof.
  intros Hle Hlt Hfit.
  pose proof (proj1 (span_check_spec count ltac:(lia)) Hfit) as Hspec.
  apply span_check_spec; [lia |]. intros Hen.
  destruct (Hspec Hen) as [Hnz Hspan]. split; [assumption | lia].
Qed.

Lemma span_check_off (count : Z) :
  size_checks_enabled = false -> span_check count = Some tt.
Proof.
  intros Hoff. unfold dynamic_array_ref.span_check, SBEPP_SIZE_CHECK.
  apply assert_spec. rewrite Hoff. discriminate.
Qed.

(** A successful [end()] says the current span fits. *)
Lemma end_inv (m : memory) (e : Z) :
  dynamic_array_ref.end_ native size_checks_enabled size_type E this m
  = Some e ->
  exists s, size m = Some s /\ e = data_unchecked + s
            /\ span_check s = Some tt.
Proof.
  unfold dynamic_array_ref.end_, dynamic_array_ref.begin_.
  destruct (dynamic_array_ref.data_checked _ _ _ _ _ m) as [d |] eqn:Hd;
    cbn; [| discriminate].
  destruct (size m) as [s |] eqn:Hs; cbn; [| discriminate].
  intros [= <-]. exists s.
  destruct (data_checked_inv native size_checks_enabled size_type E this m d Hd)
    as [-> Hfit].
  split; [reflexivity |]. split; [reflexivity |].
  destruct (bool_dec size_checks_enabled true) as [Hen | Hoff].
  - destruct (Hfit Hen) as (s' & Hs' & Hfit').
    rewrite Hs in Hs'. injection Hs' as <-. exact Hfit'.
  - apply span_check_off. apply not_true_is_false, Hoff.
Qed.

Lemma end_spec (m : memory) (s : Z) :
  size m = Some s -> span_check s = Some tt ->
  dynamic_array_ref.end_ native size_checks_enabled size_type E this m
  = Some (data_unchecked + s).
Proof.
  intros Hs Hfit. unfold dynamic_array_ref.end_, dynamic_array_ref.begin_.
  rewrite (data_checked_spec native size_checks_enabled size_type E this m s Hs Hfit).
  cbn. rewrite Hs. reflexivity.
Qed.

(** What the position assertions of [erase] and [insert] establish. *)
Lemma position_assert_inv (m : memory) (pos q : Z) (strict : bool) :
  SBEPP_ASSERT size_checks_enabled
    (b <- dynamic_array_ref.begin_ native size_checks_enabled size_type E this m ;;
     if pos >=? b
     then e <- dynamic_array_ref.end_ native size_checks_enabled size_type E this m ;;
          Some (if strict then q <? e else q <=? e)
     else Some false) = Some tt ->
  size_checks_enabled = true ->
  exists s, size m = Some s /\ span_check s = Some tt
            /\ data_unchecked <= pos
            /\ (if strict then q < data_unchecked + s
                else q <= data_unchecked + s).
Proof.
  intros Hassert Hen.
  pose proof (proj1 (assert_spec _ _) Hassert Hen) as Hcond.
  unfold dynamic_array_ref.begin_ in Hcond.
  destruct (dynamic_array_ref.data_checked _ _ _ _ _ m) as [d |] eqn:Hd;
    cbn in Hcond; [| discriminate].
  destruct (data_checked_inv native size_checks_enabled size_type E this m d Hd)
    as [-> _].
  destruct (Z.geb_spec pos data_unchecked) as [Hge | Hlt]; [| discriminate].
  destruct (dynamic_array_ref.end_ _ _ _ _ _ m) as [e |] eqn:He;
    cbn in Hcond; [| discriminate].
  destruct (end_inv m e He) as (s & Hs & -> & Hfit).
  exists s. split; [exact Hs |]. split; [exact Hfit |]. split; [lia |].
  injection Hcond as Hcond. destruct strict.
  - apply Z.ltb_lt. exact Hcond.
  - apply Z.leb_le. exact Hcond.
Qed.

(** *** Each member function fails before it writes *)

Ltac fails_before_writing := intros [= <-]; reflexivity.

Lemma resize_default_init_atomic (count : Z) (m m' : memory) :
  dynamic_array_ref.resize_default_init native size_checks_enabled size_type
    E this count m = AssertionFailed m' -> m' = m.
Proof.
  unfold dynamic_array_ref.resize_default_init. rewrite bind_lift.
  destruct (span_check count); [discriminate | fails_before_writing].
Qed.

Lemma resize_default_init_cases (count : Z) (m : memory) :
  (span_check count = Some tt
   /\ dynamic_array_ref.resize_default_init native size_checks_enabled
        size_type E this count m
      = Ok tt (set_primitive native size_type E m (addressof this) count))
  \/ dynamic_array_ref.resize_default_init native size_checks_enabled
       size_type E this count m = AssertionFailed m.
Proof.
  destruct (span_check_unit size_checks_enabled size_type this count)
    as [Hfit | Hfit].
  - left. split; [exact Hfit |]. apply resize_default_init_spec, Hfit.
  - right. apply resize_default_init_fail, Hfit.
Qed.

Lemma resize_value_atomic (count value : Z) (m m' : memory) :
  0 <= count < 2 ^ bits size_type ->
  dynamic_array_ref.resize_value native size_checks_enabled size_type E this
    count value m = AssertionFailed m' -> m' = m.
Proof.
  intros Hc.
  destruct (size m) as [k |] eqn:Hk.
  - destruct (span_check_unit size_checks_enabled size_type this count)
      as [Hfit | Hfit].
    + destruct (resize_value_spec native size_checks_enabled size_type E this
                  Hunsigned count value k m Hc Hk Hfit) as (m1 & Hrun & _).
      rewrite Hrun. discriminate.
    + unfold dynamic_array_ref.resize_value. rewrite bind_lift, Hk.
      rewrite (bind_failed _ _ m m (resize_default_init_fail _ _ _ _ _ _ m Hfit)).
      fails_before_writing.
  - unfold dynamic_array_ref.resize_value. rewrite bind_lift, Hk.
    fails_before_writing.
Qed.

Lemma push_back_atomic (value : Z) (m m' : memory) :
  (forall k, size m = Some k -> k + 1 < 2 ^ bits size_type) ->
  dynamic_array_ref.push_back native size_checks_enabled size_type E this
    value m = AssertionFailed m' -> m' = m.
Proof.
  intros Hroom. unfold dynamic_array_ref.push_back. rewrite bind_lift.
  destruct (size m) as [k |] eqn:Hk; [| fails_before_writing].
  pose proof (size_range native size_checks_enabled size_type E this
                Hunsigned m k Hk) as Hkr.
  specialize (Hroom k eq_refl).
  assert (Hc : as_size_type (k + 1) = k + 1) by (apply to_unsigned_small; lia).
  rewrite Hc.
  destruct (resize_default_init_cases (k + 1) m) as [[Hfit Hrun] | Hrun].
  - rewrite (bind_ok _ _ _ _ _ Hrun), bind_lift.
    rewrite (index_spec native size_checks_enabled size_type E this _ (k + 1) k).
    + discriminate.
    + apply size_after_set; try assumption; try lia.
      eapply size_fits_prefix; eassumption.
    + exact Hfit.
    + lia.
  - rewrite (bind_failed _ _ _ _ Hrun). fails_before_writing.
Qed.

Lemma pop_back_atomic (m m' : memory) :
  dynamic_array_ref.pop_back native size_checks_enabled size_type E this m
  = AssertionFailed m' -> m' = m.
Proof.
  unfold dynamic_array_ref.pop_back. rewrite bind_lift.
  destruct (SBEPP_ASSERT _ _); [| fails_before_writing].
  rewrite bind_lift.
  destruct (size m) as [s |]; [| fails_before_writing].
  apply resize_default_init_atomic.
Qed.

(** After the tail was moved by [erase], the shorter span is accepted. *)
Lemma erase_commit (first last : Z) (m : memory) (e : Z) :
  SBEPP_ASSERT size_checks_enabled
    (b <- dynamic_array_ref.begin_ native size_checks_enabled size_type E this m ;;
     if first >=? b
     then e <- dynamic_array_ref.end_ native size_checks_enabled size_type E this m ;;
          Some (last <? e)
     else Some false) = Some tt ->
  dynamic_array_ref.end_ native size_checks_enabled size_type E this m
  = Some e ->
  first <= last ->
  exists s1,
    size (std_copy last e first m) = Some s1
    /\ span_check (as_size_type (s1 - (last - first))) = Some tt.
Proof.
  intros Hassert He Hle.
  destruct (end_inv m e He) as (s & Hs & -> & Hfit).
  pose proof (size_fits_prefix native size_checks_enabled size_type E this m s Hs)
    as Hfit0.
  rewrite (size_spec native size_checks_enabled size_type E this), Hfit0.
  cbn [obind]. eexists. split; [reflexivity |].
  pose proof (as_size_type_range size_type
                (get_primitive native size_type E
                   (std_copy last (data_unchecked + s) first m) (addressof this)
                 - (last - first))) as Hrange.
  pose proof pow_bits_le as Hpow.
  apply span_check_spec; [lia |]. intros Hen.
  destruct (position_assert_inv m first last true Hassert Hen)
    as (s' & Hs' & _ & Hfirst & Hlast).
  rewrite Hs in Hs'. injection Hs' as <-.
  assert (Hsame : get_primitive native size_type E
                    (std_copy last (data_unchecked + s) first m) (addressof this)
                  = s).
  { pose proof (size_ext native size_checks_enabled size_type E this m
                  (std_copy last (data_unchecked + s) first m)) as Hext.
    rewrite !(size_spec native size_checks_enabled size_type E this), Hfit0 in Hext.
    cbn [obind] in Hext.
    assert (Hget : Some (get_primitive native size_type E
                           (std_copy last (data_unchecked + s) first m)
                           (addressof this))
                   = Some (get_primitive native size_type E m (addressof this))).
    { apply Hext. intros a Ha. unfold std_copy. apply copy_loop_outside.
      pose proof (prefix_below_data size_type this a Ha). lia. }
    rewrite (size_spec native size_checks_enabled size_type E this), Hfit0 in Hs.
    cbn [obind] in Hs. congruence. }
  rewrite Hsame in *.
  pose proof (size_range native size_checks_enabled size_type E this
                Hunsigned m s) as Hsr.
  rewrite (size_spec native size_checks_enabled size_type E this), Hfit0 in Hsr.
  cbn [obind] in Hsr.
  assert (Hs_range : 0 <= s < 2 ^ bits size_type).
  { rewrite (size_spec native size_checks_enabled size_type E this), Hfit0 in Hs.
    cbn [obind] in Hs. apply Hsr. exact Hs. }
  unfold dynamic_array_ref.as_size_type.
  rewrite to_unsigned_small by lia.
  destruct (proj1 (span_check_spec s ltac:(lia)) Hfit Hen) as [Hnz Hspan].
  split; [exact Hnz | lia].
Qed.

Lemma erase_range_atomic (first last : Z) (m m' : memory) :
  first <= last ->
  dynamic_array_ref.erase_range native size_checks_enabled size_type E this
    first last m = AssertionFailed m' -> m' = m.
Proof.
  intros Hle. unfold dynamic_array_ref.erase_range. rewrite bind_lift.
  destruct (SBEPP_ASSERT _ _) as [[] |] eqn:Hassert; [| fails_before_writing].
  rewrite bind_lift.
  destruct (dynamic_array_ref.end_ _ _ _ _ _ m) as [e |] eqn:He;
    [| fails_before_writing].
  rewrite <- He in Hassert.
  rewrite bind_write, bind_lift.
  destruct (erase_commit first last m e Hassert He Hle) as (s1 & Hs1 & Hfit).
  rewrite Hs1.
  rewrite (bind_ok _ _ _ _ _ (resize_default_init_spec _ _ _ _ _ _ _ Hfit)).
  discriminate.
Qed.

Lemma erase_atomic (pos : Z) (m m' : memory) :
  dynamic_array_ref.erase native size_checks_enabled size_type E this pos m
  = AssertionFailed m' -> m' = m.
Proof.
  unfold dynamic_array_ref.erase. rewrite bind_lift.
  destruct (SBEPP_ASSERT _ _) as [[] |] eqn:Hassert; [| fails_before_writing].
  rewrite bind_lift.
  destruct (dynamic_array_ref.end_ _ _ _ _ _ m) as [e |] eqn:He;
    [| fails_before_writing].
  rewrite <- He in Hassert.
  rewrite bind_write, bind_lift.
  destruct (end_inv m e He) as (s & Hs & -> & Hfit).
  pose proof (size_fits_prefix native size_checks_enabled size_type E this m s Hs)
    as Hfit0.
  rewrite (size_spec native size_checks_enabled size_type E this), Hfit0.
  cbn [obind].
  match goal with
  | |- context [dynamic_array_ref.as_size_type size_type ?x] =>
      pose proof (as_size_type_range size_type x) as Hrange;
      assert (Hnew : span_check (as_size_type x) = Some tt)
  end.
  { pose proof pow_bits_le as Hpow.
    apply span_check_spec; [lia |]. intros Hen.
    destruct (position_assert_inv m pos pos true Hassert Hen)
      as (s' & Hs' & _ & Hfirst & Hlast).
    rewrite Hs in Hs'. injection Hs' as <-.
    assert (Hget : size (std_copy (pos + 1) (data_unchecked + s) pos m)
                   = size m).
    { apply size_ext. intros a Ha. unfold std_copy. apply copy_loop_outside.
      pose proof (prefix_below_data size_type this a Ha). lia. }
    rewrite !(size_spec native size_checks_enabled size_type E this), Hfit0
      in Hget.
    cbn [obind] in Hget. injection Hget as Hget. 
    rewrite (size_spec native size_checks_enabled size_type E this), Hfit0 in Hs.
    cbn [obind] in Hs. injection Hs as Hs.
    rewrite Hget, Hs.
    pose proof (get_primitive_range native size_type E Hunsigned m
                  (addressof this)) as Hsr. rewrite Hs in Hsr.
    unfold dynamic_array_ref.as_size_type.
    rewrite to_unsigned_small by lia.
    destruct (proj1 (span_check_spec s ltac:(lia)) Hfit Hen) as [Hnz Hspan].
    split; [exact Hnz | lia]. }
  rewrite (bind_ok _ _ _ _ _ (resize_default_init_spec _ _ _ _ _ _ _ Hnew)).
  discriminate.
Qed.

(** After [insert] accepted the longer span, reading [end()] again cannot
    fail. *)
Lemma insert_commit (c s : Z) (m : memory) :
  size m = Some s ->
  span_check (as_size_type c) = Some tt ->
  dynamic_array_ref.end_ native size_checks_enabled size_type E this
    (set_primitive native size_type E m (addressof this) (as_size_type c))
  = Some (data_unchecked + as_size_type c).
Proof.
  intros Hs Hfit. apply end_spec; [| exact Hfit].
  apply size_after_set; try assumption.
  - apply as_size_type_range.
  - eapply size_fits_prefix; eassumption.
Qed.

Lemma insert_atomic (pos value : Z) (m m' : memory) :
  dynamic_array_ref.insert native size_checks_enabled size_type E this
    pos value m = AssertionFailed m' -> m' = m.
Proof.
  unfold dynamic_array_ref.insert, dynamic_array_ref.assert_insert_pos.
  rewrite bind_lift.
  destruct (SBEPP_ASSERT _ _) as [[] |]; [| fails_before_writing].
  rewrite bind_lift.
  destruct (dynamic_array_ref.end_ _ _ _ _ _ m) as [old_end |];
    [| fails_before_writing].
  rewrite bind_lift.
  destruct (size m) as [s |] eqn:Hs; [| fails_before_writing].
  destruct (resize_default_init_cases (as_size_type (s + 1)) m)
    as [[Hfit Hrun] | Hrun].
  - rewrite (bind_ok _ _ _ _ _ Hrun), bind_lift.
    rewrite (insert_commit (s + 1) s m Hs Hfit). discriminate.
  - rewrite (bind_failed _ _ _ _ Hrun). fails_before_writing.
Qed.

Lemma insert_n_atomic (pos count value : Z) (m m' : memory) :
  dynamic_array_ref.insert_n native size_checks_enabled size_type E this
    pos count value m = AssertionFailed m' -> m' = m.
Proof.
  unfold dynamic_array_ref.insert_n, dynamic_array_ref.assert_insert_pos.
  rewrite bind_lift.
  destruct (SBEPP_ASSERT _ _) as [[] |]; [| fails_before_writing].
  rewrite bind_lift.
  destruct (dynamic_array_ref.end_ _ _ _ _ _ m) as [old_end |];
    [| fails_before_writing].
  rewrite bind_lift.
  destruct (size m) as [s |] eqn:Hs; [| fails_before_writing].
  destruct (resize_default_init_cases (as_size_type (s + count)) m)
    as [[Hfit Hrun] | Hrun].
  - rewrite (bind_ok _ _ _ _ _ Hrun), bind_lift.
    rewrite (insert_commit (s + count) s m Hs Hfit). discriminate.
  - rewrite (bind_failed _ _ _ _ Hrun). fails_before_writing.
Qed.

Lemma insert_forward_atomic (pos : Z) (xs : list Z) (m m' : memory) :
  dynamic_array_ref.insert_range native size_checks_enabled size_type E this
    pos xs forward_iterator_tag m = AssertionFailed m' -> m' = m.
Proof.
  unfold dynamic_array_ref.insert_range, dynamic_array_ref.insert_forward,
    dynamic_array_ref.assert_insert_pos.
  rewrite bind_lift.
  destruct (SBEPP_ASSERT _ _) as [[] |]; [| fails_before_writing].
  rewrite bind_lift.
  destruct (dynamic_array_ref.end_ _ _ _ _ _ m) as [old_end |];
    [| fails_before_writing].
  rewrite bind_lift.
  destruct (size m) as [s |] eqn:Hs; [| fails_before_writing].
  destruct (resize_default_init_cases
              (as_size_type (s + Z.of_nat (length xs))) m)
    as [[Hfit Hrun] | Hrun].
  - rewrite (bind_ok _ _ _ _ _ Hrun), bind_lift.
    rewrite (insert_commit (s + Z.of_nat (length xs)) s m Hs Hfit).
    discriminate.
  - rewrite (bind_failed _ _ _ _ Hrun). fails_before_writing.
Qed.

Lemma assign_n_atomic (count value : Z) (m m' : memory) :
  0 <= count < 2 ^ bits size_type ->
  dynamic_array_ref.assign_n native size_checks_enabled size_type E this
    count value m = AssertionFailed m' -> m' = m.
Proof.
  intros Hc. unfold dynamic_array_ref.assign_n.
  destruct (resize_default_init_cases count m) as [[Hfit Hrun] | Hrun].
  - rewrite (bind_ok _ _ _ _ _ Hrun), bind_lift.
    unfold dynamic_array_ref.begin_.
    pose proof pow_bits_le as Hpow.
    rewrite (data_checked_spec native size_checks_enabled size_type E this
               _ count).
    + discriminate.
    + apply size_after_set; try assumption.
      apply (span_check_mono count 0); [lia | lia | exact Hfit].
    + exact Hfit.
  - rewrite (bind_failed _ _ _ _ Hrun). fails_before_writing.
Qed.

Lemma discard_failed {A : Type} (c : M A) (m m' : memory) :
  dynamic_array_ref.discard c m = AssertionFailed m' ->
  c m = AssertionFailed m'.
Proof.
  unfold dynamic_array_ref.discard, bind.
  destruct (c m); cbn; [discriminate | intros [= <-]; reflexivity].
Qed.

(** A call that checks before it writes leaves the memory as it found it
    when it fails. *)
Lemma run_atomic (op : dynamic_array_ref.mutation) (m m' : memory) :
  dynamic_array_ref.checks_before_writing native size_checks_enabled
    size_type E this op m ->
  dynamic_array_ref.run native size_checks_enabled size_type E this op m
  = AssertionFailed m' ->
  m' = m.
Proof.
  destruct op as [count | count value | count | | value | | pos | first last
                 | pos value | pos count value | pos xs [|] | count value | xs];
    cbn [dynamic_array_ref.checks_before_writing dynamic_array_ref.run];
    intros Hpre Hrun; try contradiction; try apply discard_failed in Hrun.
  - eapply resize_value_atomic; eassumption.
  - eapply resize_value_atomic; eassumption.
  - eapply resize_default_init_atomic; eassumption.
  - eapply resize_default_init_atomic; eassumption.
  - eapply push_back_atomic; eassumption.
  - eapply pop_back_atomic; eassumption.
  - eapply erase_atomic; eassumption.
  - eapply erase_range_atomic; eassumption.
  - eapply insert_atomic; eassumption.
  - eapply insert_n_atomic; eassumption.
  - eapply insert_forward_atomic; eassumption.
  - eapply assign_n_atomic; eassumption.
Qed.

(** The length prefix is written by [resize(count, default_init)] alone,
    and only after the span of the new length was accepted. *)
Lemma resize_default_init_checked (count : Z) (m m' : memory) :
  dynamic_array_ref.resize_default_init native size_checks_enabled size_type
    E this count m = Ok tt m' ->
  span_check count = Some tt
  /\ m' = set_primitive native size_type E m (addressof this) count.
Proof.
  destruct (resize_default_init_cases count m) as [[Hfit Hrun] | Hrun];
    rewrite Hrun; [| discriminate].
  intros [= <-]. split; [exact Hfit | reflexivity].
Qed.

(** *** A call that completes has committed a length that fits *)

(** The array in [m'] has a length whose span passed the size check. *)
Local Abbreviation committed m' :=
  (exists n, size m' = Some n /\ span_check n = Some tt).

Lemma committed_off (m' : memory) :
  size_checks_enabled = false -> committed m'.
Proof.
  intros Hoff. eexists. split; [| apply span_check_off, Hoff].
  rewrite (size_spec native size_checks_enabled size_type E this).
  rewrite (span_check_off 0 Hoff). reflexivity.
Qed.

Lemma committed_set (m : memory) (count : Z) :
  0 <= count < 2 ^ bits size_type ->
  span_check count = Some tt ->
  committed (set_primitive native size_type E m (addressof this) count).
Proof.
  intros Hc Hfit. pose proof pow_bits_le as Hpow.
  exists count. split; [| exact Hfit].
  apply size_after_set; try assumption.
  apply (span_check_mono count 0); [lia | lia | exact Hfit].
Qed.

Lemma committed_ext (m1 m2 : memory) :
  committed m1 ->
  (forall a, addressof this <= a < addressof this + sizeof size_type ->
             m2 a = m1 a) ->
  committed m2.
Proof.
  intros (n & Hn & Hfit) Hagree. exists n. split; [| exact Hfit].
  rewrite <- Hn. apply size_ext. exact Hagree.
Qed.

Lemma bind_ok_inv {A B : Type} (c : M A) (k : A -> M B) (m m' : memory)
    (b : B) :
  bind c k m = Ok b m' -> exists a m1, c m = Ok a m1 /\ k a m1 = Ok b m'.
Proof.
  unfold bind. destruct (c m) as [a m1 | m1]; [| discriminate].
  intros Hk. exists a, m1. split; [reflexivity | exact Hk].
Qed.

Lemma ret_ok_inv {A : Type} (a b : A) (m m' : memory) :
  ret a m = Ok b m' -> m' = m.
Proof. unfold ret. intros [= _ <-]. reflexivity. Qed.

Ltac without_checks Hoff :=
  destruct (bool_dec size_checks_enabled true) as [Hen | Hoff];
  [| intros; apply committed_off; apply not_true_is_false, Hoff].

Lemma resize_default_init_commits (count : Z) (m m' : memory) :
  0 <= count < 2 ^ bits size_type ->
  dynamic_array_ref.resize_default_init native size_checks_enabled size_type
    E this count m = Ok tt m' ->
  committed m'.
Proof.
  intros Hc Hrun.
  destruct (resize_default_init_checked count m m' Hrun) as [Hfit ->].
  apply committed_set; assumption.
Qed.

Lemma resize_value_commits (count value : Z) (m m' : memory) :
  0 <= count < 2 ^ bits size_type ->
  dynamic_array_ref.resize_value native size_checks_enabled size_type E this
    count value m = Ok tt m' ->
  committed m'.
Proof.
  intros Hc.
  destruct (size m) as [k |] eqn:Hk.
  - destruct (span_check_unit size_checks_enabled size_type this count)
      as [Hfit | Hfit].
    + destruct (resize_value_spec native size_checks_enabled size_type E this
                  Hunsigned count value k m Hc Hk Hfit)
        as (m1 & Hrun & Hsize & _).
      rewrite Hrun. intros [= <-]. exists count. split; assumption.
    + unfold dynamic_array_ref.resize_value. rewrite bind_lift, Hk.
      rewrite (bind_failed _ _ m m (resize_default_init_fail _ _ _ _ _ _ m Hfit)).
      discriminate.
  - unfold dynamic_array_ref.resize_value. rewrite bind_lift, Hk.
    discriminate.
Qed.

Lemma push_back_commits (value : Z) (m m' : memory) :
  (forall k, size m = Some k -> k + 1 < 2 ^ bits size_type) ->
  dynamic_array_ref.push_back native size_checks_enabled size_type E this
    value m = Ok tt m' ->
  committed m'.
Proof.
  intros Hroom. unfold dynamic_array_ref.push_back. rewrite bind_lift.
  destruct (size m) as [k |] eqn:Hk; [| discriminate].
  pose proof (size_range native size_checks_enabled size_type E this
                Hunsigned m k Hk) as Hkr.
  specialize (Hroom k eq_refl).
  assert (Hc : as_size_type (k + 1) = k + 1) by (apply to_unsigned_small; lia).
  rewrite Hc.
  destruct (resize_default_init_cases (k + 1) m) as [[Hfit Hrun] | Hrun].
  - rewrite (bind_ok _ _ _ _ _ Hrun), bind_lift.
    rewrite (index_spec native size_checks_enabled size_type E this _ (k + 1) k).
    + unfold write. intros [= <-].
      apply (committed_ext
               (set_primitive native size_type E m (addressof this) (k + 1)));
        [apply committed_set; [lia | exact Hfit] |].
      intros a Ha. apply store_byte_other.
      pose proof (prefix_below_data size_type this a Ha). lia.
    + apply size_after_set; try assumption; try lia.
      eapply size_fits_prefix; eassumption.
    + exact Hfit.
    + lia.
  - rewrite (bind_failed _ _ _ _ Hrun). discriminate.
Qed.

Lemma pop_back_commits (m m' : memory) :
  dynamic_array_ref.pop_back native size_checks_enabled size_type E this m
  = Ok tt m' ->
  committed m'.
Proof.
  unfold dynamic_array_ref.pop_back. rewrite bind_lift.
  destruct (SBEPP_ASSERT _ _); [| discriminate].
  rewrite bind_lift.
  destruct (size m) as [s |]; [| discriminate].
  apply resize_default_init_commits. apply as_size_type_range.
Qed.

Lemma erase_commits (pos r : Z) (m m' : memory) :
  dynamic_array_ref.erase native size_checks_enabled size_type E this pos m
  = Ok r m' ->
  committed m'.
Proof.
  unfold dynamic_array_ref.erase. rewrite bind_lift.
  destruct (SBEPP_ASSERT _ _) as [[] |]; [| discriminate].
  rewrite bind_lift.
  destruct (dynamic_array_ref.end_ _ _ _ _ _ m) as [e |]; [| discriminate].
  rewrite bind_write, bind_lift.
  destruct (size _) as [s |]; [| discriminate].
  intros Hrun. apply bind_ok_inv in Hrun as ([] & m1 & Hresize & Hret).
  apply ret_ok_inv in Hret. subst m'.
  eapply resize_default_init_commits; [apply as_size_type_range | exact Hresize].
Qed.

Lemma erase_range_commits (first last r : Z) (m m' : memory) :
  dynamic_array_ref.erase_range native size_checks_enabled size_type E this
    first last m = Ok r m' ->
  committed m'.
Proof.
  unfold dynamic_array_ref.erase_range. rewrite bind_lift.
  destruct (SBEPP_ASSERT _ _) as [[] |]; [| discriminate].
  rewrite bind_lift.
  destruct (dynamic_array_ref.end_ _ _ _ _ _ m) as [e |]; [| discriminate].
  rewrite bind_write, bind_lift.
  destruct (size _) as [s |]; [| discriminate].
  intros Hrun. apply bind_ok_inv in Hrun as ([] & m1 & Hresize & Hret).
  apply ret_ok_inv in Hret. subst m'.
  eapply resize_default_init_commits; [apply as_size_type_range | exact Hresize].
Qed.

(** The part [insert(pos, value)], [insert(pos, count, value)] and
    [insert(pos, first, last)] share: after the position was accepted and
    the array resized to [s + n] elements, the tail is moved up and [fill]
    writes the [n] new elements from [pos] on. *)
Lemma insert_tail_commits (pos n r : Z) (fill : memory -> memory)
    (m m' : memory) :
  size_checks_enabled = true ->
  (forall m0 a, a < pos -> fill m0 a = m0 a) ->
  0 <= n ->
  (forall k, size m = Some k -> k + n < 2 ^ bits size_type) ->
  (dynamic_array_ref.assert_insert_pos native size_checks_enabled size_type E
     this pos ;;~
   old_end <~ lift (dynamic_array_ref.end_ native size_checks_enabled
                      size_type E this) ;;
   s <~ lift size ;;
   dynamic_array_ref.resize_default_init native size_checks_enabled size_type
     E this (as_size_type (s + n)) ;;~
   e <~ lift (dynamic_array_ref.end_ native size_checks_enabled size_type E
                this) ;;
   write (std_copy_backward pos old_end e) ;;~
   write fill ;;~
   ret pos) m = Ok r m' ->
  committed m'.
Proof.
  intros Hen Hfill Hn Hroom.
  unfold dynamic_array_ref.assert_insert_pos. rewrite bind_lift.
  destruct (SBEPP_ASSERT _ _) as [[] |] eqn:Hassert; [| discriminate].
  rewrite bind_lift.
  destruct (dynamic_array_ref.end_ _ _ _ _ _ m) as [old_end |] eqn:Hend;
    [| discriminate].
  rewrite bind_lift.
  destruct (size m) as [s |] eqn:Hs; [| discriminate].
  rewrite <- Hend in Hassert.
  destruct (position_assert_inv m pos pos false Hassert Hen)
    as (s' & Hs' & Hfit_s & Hlow & Hhigh).
  rewrite Hs in Hs'. injection Hs' as <-.
  destruct (end_inv m old_end Hend) as (s2 & Hs2 & -> & _).
  rewrite Hs in Hs2. injection Hs2 as <-.
  pose proof (size_range native size_checks_enabled size_type E this
                Hunsigned m s Hs) as Hsr.
  specialize (Hroom s eq_refl).
  assert (Hc : as_size_type (s + n) = s + n)
    by (apply to_unsigned_small; lia).
  rewrite Hc.
  destruct (resize_default_init_cases (s + n) m) as [[Hfit Hrun] | Hrun].
  - rewrite (bind_ok _ _ _ _ _ Hrun), bind_lift.
    rewrite (end_spec _ (s + n)); [| | exact Hfit].
    + rewrite !bind_write. intros Hret. apply ret_ok_inv in Hret. subst m'.
      apply (committed_ext
               (set_primitive native size_type E m (addressof this) (s + n)));
        [apply committed_set; [lia | exact Hfit] |].
      intros a Ha. pose proof (prefix_below_data size_type this a Ha) as Hbelow.
      rewrite Hfill by lia. unfold std_copy_backward.
      apply copy_backward_loop_outside. left.
      rewrite Z2Nat.id by lia. lia.
    + apply size_after_set; try assumption; try lia.
      eapply size_fits_prefix; eassumption.
  - rewrite (bind_failed _ _ _ _ Hrun). discriminate.
Qed.

Lemma insert_commits (pos value r : Z) (m m' : memory) :
  (forall k, size m = Some k -> k + 1 < 2 ^ bits size_type) ->
  dynamic_array_ref.insert native size_checks_enabled size_type E this
    pos value m = Ok r m' ->
  committed m'.
Proof.
  intros Hroom. without_checks Hoff.
  apply (insert_tail_commits pos 1 r (fun m0 => store_byte m0 pos value));
    try assumption; try lia.
  intros m0 a Ha. apply store_byte_other. lia.
Qed.

Lemma insert_n_commits (pos count value r : Z) (m m' : memory) :
  0 <= count ->
  (forall k, size m = Some k -> k + count < 2 ^ bits size_type) ->
  dynamic_array_ref.insert_n native size_checks_enabled size_type E this
    pos count value m = Ok r m' ->
  committed m'.
Proof.
  intros Hcount Hroom. without_checks Hoff.
  apply (insert_tail_commits pos count r (std_fill_n pos count value));
    try assumption.
  intros m0 a Ha. unfold std_fill_n. apply fill_loop_outside. lia.
Qed.

Lemma insert_forward_commits (pos r : Z) (xs : list Z) (m m' : memory) :
  (forall k, size m = Some k ->
             k + Z.of_nat (length xs) < 2 ^ bits size_type) ->
  dynamic_array_ref.insert_range native size_checks_enabled size_type E this
    pos xs forward_iterator_tag m = Ok r m' ->
  committed m'.
Proof.
  intros Hroom. without_checks Hoff.
  apply (insert_tail_commits pos (Z.of_nat (length xs)) r
           (std_copy_from xs pos)); try assumption; try lia.
  intros m0 a Ha. unfold std_copy_from. apply store_bytes_below. exact Ha.
Qed.

Lemma assign_n_commits (count value : Z) (m m' : memory) :
  0 <= count < 2 ^ bits size_type ->
  dynamic_array_ref.assign_n native size_checks_enabled size_type E this
    count value m = Ok tt m' ->
  committed m'.
Proof.
  intros Hc. unfold dynamic_array_ref.assign_n.
  destruct (resize_default_init_cases count m) as [[Hfit Hrun] | Hrun].
  - rewrite (bind_ok _ _ _ _ _ Hrun), bind_lift.
    unfold dynamic_array_ref.begin_.
    pose proof pow_bits_le as Hpow.
    rewrite (data_checked_spec native size_checks_enabled size_type E this
               _ count).
    + unfold write. intros [= <-].
      apply (committed_ext
               (set_primitive native size_type E m (addressof this) count));
        [apply committed_set; assumption |].
      intros a Ha. unfold std_fill_n. apply fill_loop_outside. left.
      apply (prefix_below_data size_type this a Ha).
    + apply size_after_set; try assumption.
      apply (span_check_mono count 0); [lia | lia | exact Hfit].
    + exact Hfit.
  - rewrite (bind_failed _ _ _ _ Hrun). discriminate.
Qed.

Lemma discard_ok {A : Type} (c : M A) (m m' : memory) :
  dynamic_array_ref.discard c m = Ok tt m' -> exists r, c m = Ok r m'.
Proof.
  unfold dynamic_array_ref.discard. intros Hrun.
  apply bind_ok_inv in Hrun as (r & m1 & Hc & Hret).
  apply ret_ok_inv in Hret. subst m'. exists r. exact Hc.
Qed.

(** A call that checks before it writes and completes leaves an array
    whose length passed the size check. *)
Lemma run_commits (op : dynamic_array_ref.mutation) (m m' : memory) :
  dynamic_array_ref.checks_before_writing native size_checks_enabled
    size_type E this op m ->
  dynamic_array_ref.new_size_in_size_type native size_checks_enabled
    size_type E this op m ->
  dynamic_array_ref.run native size_checks_enabled size_type E this op m
  = Ok tt m' ->
  committed m'.
Proof.
  destruct op as [count | count value | count | | value | | pos | first last
                 | pos value | pos count value | pos xs [|] | count value | xs];
    cbn [dynamic_array_ref.checks_before_writing dynamic_array_ref.run
         dynamic_array_ref.new_size_in_size_type];
    intros Hpre Hnew Hrun; try contradiction;
    try (apply discard_ok in Hrun as [r Hrun]).
  - eapply resize_value_commits; eassumption.
  - eapply resize_value_commits; eassumption.
  - eapply resize_default_init_commits; eassumption.
  - eapply resize_default_init_commits; [| exact Hrun].
    pose proof (bits_pos size_type). split; [lia |].
    apply Z.pow_pos_nonneg; lia.
  - eapply push_back_commits; eassumption.
  - eapply pop_back_commits; eassumption.
  - eapply erase_commits; eassumption.
  - eapply erase_range_commits; eassumption.
  - eapply insert_commits; eassumption.
  - destruct Hnew as [Hcount Hroom].
    eapply insert_n_commits; eassumption.
  - eapply insert_forward_commits; eassumption.
  - eapply assign_n_commits; eassumption.
Qed.

End DynamicArrayAtomicity.




(** Two more calls reach the assertion hook after writing: [insert] of an
    input-iterator range commits the elements one [insert] at a time, and
    [push_back] on an array whose length is the largest value of [size_type]
    first commits the wrapped length 0. *)
Lemma insert_input_range_partial :
  exists m',
    dynamic_array_ref.run little true uint8_t little
      {| range_begin := 100; range_end := 103 |}
      (dynamic_array_ref.call_insert_range 101 [5; 6; 7] input_iterator_tag)
      (fun _ => 0)
    = AssertionFailed m'
    /\ m' 100 = 2 /\ m' 101 = 5 /\ m' 102 = 6.
Proof. eexists. split; [reflexivity |]. cbn. repeat split. Qed.

Lemma push_back_full_fails_after_write :
  exists m',
    dynamic_array_ref.run little true uint8_t little
      {| range_begin := 100; range_end := 400 |}
      (dynamic_array_ref.call_push_back 5)
      (fun a => if a =? 100 then 255 else 1)
    = AssertionFailed m'
    /\ m' 100 = 0.
Proof. eexists. split; [reflexivity |]. reflexivity. Qed.
(** ** Cursors *)

Lemma obind_some {A B : Type} (x : option A) (f : A -> option B) (b : B) :
  obind x f = Some b -> exists a, x = Some a /\ f a = Some b.
Proof.
  destruct x as [a |]; cbn; [| discriminate].
  intros H. exists a. split; [reflexivity | exact H].
Qed.

Section CursorFacts.

Variable native : endian.
Variable size_checks_enabled : bool.
Variable E : endian.

(** When [view(get_level_tag{}) + view(get_block_length_tag{})] can be
    computed it is the end of the level's block. *)
Lemma next_level_is_level_end (view : level_view) (m : memory) (p : Z) :
  next_level native size_checks_enabled E view m = Some p ->
  p = level_end native E view m.
Proof.
  unfold next_level. intros H.
  apply obind_some in H. destruct H as (level & Hlevel & H).
  apply obind_some in H. destruct H as (bl & Hbl & H).
  injection H as <-.
  destruct view as [range H | e]; cbn in *.
  - unfold message_get_level, message_get_block_length, message_get_header
      in *.
    destruct (SBEPP_SIZE_CHECK _ _ _ _ _); cbn in *; [| discriminate].
    injection Hlevel as <-.
    unfold composite_get, get_value in Hbl.
    destruct (SBEPP_SIZE_CHECK _ _ _ _ _); cbn in *; [| discriminate].
    injection Hbl as <-. reflexivity.
  - injection Hlevel as <-. injection Hbl as <-. reflexivity.
Qed.

(** For an entry the jump never fails. *)
Lemma next_level_entry (e : entry_base) (m : memory) :
  next_level native size_checks_enabled E (entry_view e) m
  = Some (addressof (entry_range e) + entry_block_length e).
Proof. reflexivity. Qed.

Lemma get_last_value_position (policy : cursor_policy) (view : level_view)
    (U : prim_type) (offset absolute_offset ptr : Z) (m : memory)
    (x : option Z) (ptr' : Z) :
  get_last_value native size_checks_enabled E policy view U offset
    absolute_offset ptr m = Some (x, ptr') ->
  ptr' = cursor_after_last native E policy view offset absolute_offset ptr m.
Proof.
  destruct policy; cbn [get_last_value cursor_after_last]; intros H;
    apply obind_some in H; destruct H as (r & Hr & H); injection H as _ <-.
  - unfold cursor_get_last_value in Hr.
    destruct (SBEPP_SIZE_CHECK _ _ _ _ _); cbn in Hr; [| discriminate].
    apply obind_some in Hr. destruct Hr as (next & Hnext & Hr).
    injection Hr as <-. cbn. apply next_level_is_level_end in Hnext. exact Hnext.
  - unfold init_get_last_value in Hr.
    destruct (SBEPP_SIZE_CHECK _ _ _ _ _); cbn in Hr; [| discriminate].
    apply obind_some in Hr. destruct Hr as (next & Hnext & Hr).
    injection Hr as <-. cbn. apply next_level_is_level_end in Hnext. exact Hnext.
  - unfold init_dont_move_get_value in Hr.
    destruct (SBEPP_SIZE_CHECK _ _ _ _ _); cbn in Hr; [| discriminate].
    injection Hr as <-. reflexivity.
  - unfold dont_move_get_value in Hr.
    destruct (SBEPP_SIZE_CHECK _ _ _ _ _); cbn in Hr; [| discriminate].
    injection Hr as <-. reflexivity.
  - unfold skip_get_last_value in Hr.
    destruct (SBEPP_SIZE_CHECK _ _ _ _ _); cbn in Hr; [| discriminate].
    apply next_level_is_level_end in Hr. exact Hr.
Qed.

Lemma set_last_value_position (policy : cursor_policy) (view : level_view)
    (T : prim_type) (offset absolute_offset value ptr : Z) (c : M Z)
    (m m' : memory) (ptr' : Z) :
  set_last_value native size_checks_enabled E policy view T offset
    absolute_offset value ptr = Some c ->
  c m = Ok ptr' m' ->
  ptr' = cursor_after_last native E policy view offset absolute_offset ptr m'.
Proof.
  destruct policy; cbn [set_last_value cursor_after_last];
    intros [= <-]; try discriminate.
  - unfold cursor_set_last_value. rewrite bind_lift.
    destruct (SBEPP_SIZE_CHECK _ _ _ _ _); [| discriminate].
    rewrite bind_write. unfold lift.
    destruct (next_level _ _ _ _ _) as [p |] eqn:Hnext; [| discriminate].
    intros [= <- <-]. apply next_level_is_level_end in Hnext. exact Hnext.
  - unfold init_set_last_value. rewrite bind_lift.
    destruct (SBEPP_SIZE_CHECK _ _ _ _ _); [| discriminate].
    rewrite bind_write. unfold lift.
    destruct (next_level _ _ _ _ _) as [p |] eqn:Hnext; [| discriminate].
    intros [= <- <-]. apply next_level_is_level_end in Hnext. exact Hnext.
  - unfold init_dont_move_set_value. rewrite bind_lift.
    destruct (SBEPP_SIZE_CHECK _ _ _ _ _); [| discriminate].
    rewrite bind_write. unfold ret. intros [= <- <-]. reflexivity.
  - unfold dont_move_set_value. rewrite bind_lift.
    destruct (SBEPP_SIZE_CHECK _ _ _ _ _); [| discriminate].
    rewrite bind_write. unfold ret. intros [= <- <-]. reflexivity.
Qed.

Lemma get_last_static_field_view_position (policy : cursor_policy)
    (view : level_view) (offset absolute_offset ptr : Z) (m : memory)
    (ptr' : Z) :
  get_last_static_field_view native size_checks_enabled E policy view offset
    absolute_offset ptr m = Some ptr' ->
  ptr' = cursor_after_last native E policy view offset absolute_offset ptr m.
Proof.
  destruct policy; cbn [get_last_static_field_view cursor_after_last];
    intros H.
  - apply obind_some in H. destruct H as (r & Hr & H). injection H as <-.
    unfold cursor_get_last_static_field_view in Hr.
    destruct (SBEPP_SIZE_CHECK _ _ _ _ _); cbn in Hr; [| discriminate].
    apply obind_some in Hr. destruct Hr as (next & Hnext & Hr).
    injection Hr as <-. cbn. apply next_level_is_level_end in Hnext. exact Hnext.
  - apply obind_some in H. destruct H as (r & Hr & H). injection H as <-.
    unfold init_get_last_static_field_view in Hr.
    destruct (SBEPP_SIZE_CHECK _ _ _ _ _); cbn in Hr; [| discriminate].
    apply obind_some in Hr. destruct Hr as (next & Hnext & Hr).
    injection Hr as <-. cbn. apply next_level_is_level_end in Hnext. exact Hnext.
  - apply obind_some in H. destruct H as (r & Hr & H). injection H as <-.
    unfold init_dont_move_get_static_field_view in Hr.
    destruct (SBEPP_SIZE_CHECK _ _ _ _ _); cbn in Hr; [| discriminate].
    injection Hr as <-. reflexivity.
  - apply obind_some in H. destruct H as (r & Hr & H). injection H as <-.
    unfold dont_move_get_static_field_view in Hr.
    destruct (SBEPP_SIZE_CHECK _ _ _ _ _); cbn in Hr; [| discriminate].
    injection Hr as <-. reflexivity.
  - unfold skip_get_last_static_field_view in H.
    destruct (SBEPP_SIZE_CHECK _ _ _ _ _); cbn in H; [| discriminate].
    apply next_level_is_level_end in H. exact H.
Qed.

(** The access itself succeeds on an entry as soon as its size check does. *)
Lemma get_last_value_entry_succeeds (policy : cursor_policy) (e : entry_base)
    (U : prim_type) (offset absolute_offset ptr : Z) (m : memory) :
  SBEPP_SIZE_CHECK size_checks_enabled ptr
    (view_end_ptr size_checks_enabled (entry_view e)) offset (sizeof U)
  = Some tt ->
  SBEPP_SIZE_CHECK size_checks_enabled (addressof (entry_range e))
    (view_end_ptr size_checks_enabled (entry_view e)) absolute_offset
    (sizeof U) = Some tt ->
  exists x,
    get_last_value native size_checks_enabled E policy (entry_view e) U offset
      absolute_offset ptr m
    = Some (x, cursor_after_last native E policy (entry_view e) offset
                 absolute_offset ptr m).
Proof.
  intros Hrel Habs.
  destruct policy; cbn [get_last_value cursor_after_last];
    unfold cursor_get_last_value, init_get_last_value,
      init_dont_move_get_value, dont_move_get_value, skip_get_last_value;
    cbn [view_range] in *; rewrite ?Hrel, ?Habs; cbn; eexists; reflexivity.
Qed.

End CursorFacts.

(** C9, as the code has it.  Accessing the last fixed-block member of a level
    (reading or writing a value, or taking a static view) leaves the cursor
    at the level's start address plus its block length under the plain
    cursor and the initialising and skipping wrappers; under [dont_move] the
    cursor stays where it was, and under [init_dont_move] it is set to the
    member's address minus the member's relative offset. *)
Theorem last_member_cursor_position (native E : endian)
    (size_checks_enabled : bool) (policy : cursor_policy) (view : level_view)
    (T : prim_type) (offset absolute_offset value ptr : Z) (m m' : memory)
    (x : option Z) (c : M Z) (ptr' : Z) :
  (get_last_value native size_checks_enabled E policy view T offset
     absolute_offset ptr m = Some (x, ptr') ->
   ptr' = cursor_after_last native E policy view offset absolute_offset ptr m)
  /\ (set_last_value native size_checks_enabled E policy view T offset
        absolute_offset value ptr = Some c ->
      c m = Ok ptr' m' ->
      ptr' = cursor_after_last native E policy view offset absolute_offset
               ptr m')
  /\ (get_last_static_field_view native size_checks_enabled E policy view
        offset absolute_offset ptr m = Some ptr' ->
      ptr' = cursor_after_last native E policy view offset absolute_offset
               ptr m).
Proof.
  split; [apply get_last_value_position |].
  split; [apply set_last_value_position |].
  apply get_last_static_field_view_position.
Qed.

(** C9 as stated fails for the two wrappers that do not move the cursor: on
    an entry at address 100 with block length 8, reading its last member
    (two bytes at offset 4) through [dont_move] with the cursor at 100 leaves
    the cursor at 100, and through [init_dont_move] at 100 as well, not at
    108. *)
Lemma dont_move_keeps_cursor :
  let e := entry_view {| entry_range := {| range_begin := 100; range_end := 200 |};
                         entry_block_length := 8 |} in
  level_end little little e (fun _ => 0) = 108
  /\ get_last_value little true little dont_move_cursor_wrapper e uint16_t 4 4
       100 (fun _ => 0) = Some (Some 0, 100)
  /\ get_last_value little true little init_dont_move_cursor_wrapper e
       uint16_t 4 4 100 (fun _ => 0) = Some (Some 0, 100)
  /\ get_last_value little true little plain_cursor e uint16_t 4 4
       100 (fun _ => 0) = Some (Some 0, 108).
Proof. cbv zeta. repeat split; reflexivity. Qed.

Lemma last_member_cursor_position_witness :
  get_last_value little true little plain_cursor
    (entry_view {| entry_range := {| range_begin := 100; range_end := 200 |};
                   entry_block_length := 8 |})
    uint16_t 4 4 100 (fun _ => 0) = Some (Some 0, 108)
  /\ 108 = cursor_after_last little little plain_cursor
             (entry_view {| entry_range := {| range_begin := 100; range_end := 200 |};
                            entry_block_length := 8 |})
             4 4 100 (fun _ => 0).
Proof.
  split; [reflexivity |].
  exact (proj1 (last_member_cursor_position little little true plain_cursor
                  (entry_view {| entry_range :=
                                   {| range_begin := 100; range_end := 200 |};
                                 entry_block_length := 8 |})
                  uint16_t 4 4 0 100 (fun _ => 0) (fun _ => 0) (Some 0)
                  (ret 0) 108) eq_refl).
Defined.
(** ** Size checks *)

Lemma size_t_modulus : 2 ^ size_t_bits = 18446744073709551616.
Proof. reflexivity. Qed.

Lemma size_check_spec (enabled : bool) (begin_ end_ offset size : Z) :
  0 <= offset + size < 2 ^ size_t_bits ->
  SBEPP_SIZE_CHECK enabled begin_ end_ offset size = Some tt <->
  (enabled = true ->
   begin_ <> 0 /\ offset + size <= to_unsigned size_t_bits (end_ - begin_)).
Proof.
  intros Hrange. unfold SBEPP_SIZE_CHECK. rewrite assert_spec.
  unfold size_check_cond. rewrite (to_unsigned_small _ (offset + size)) by exact Hrange.
  split; intros H Hen; specialize (H Hen).
  - injection H as H. apply andb_true_iff in H. destruct H as [Hnz Hle].
    apply negb_true_iff, Z.eqb_neq in Hnz. apply Z.leb_le in Hle. auto.
  - destruct H as [Hnz Hle]. f_equal. apply andb_true_iff. split.
    + apply negb_true_iff, Z.eqb_neq. exact Hnz.
    + apply Z.leb_le. exact Hle.
Qed.

(** A check that passed covers every smaller extent from the same start. *)
Lemma size_check_weaken (enabled : bool) (begin_ end_ offset size offset'
    size' : Z) :
  0 <= offset' + size' <= offset + size ->
  offset + size < 2 ^ size_t_bits ->
  SBEPP_SIZE_CHECK enabled begin_ end_ offset size = Some tt ->
  SBEPP_SIZE_CHECK enabled begin_ end_ offset' size' = Some tt.
Proof.
  intros Hle Hlt Hcheck.
  apply size_check_spec; [lia |]. intros Hen.
  destruct (proj1 (size_check_spec enabled begin_ end_ offset size
                     ltac:(lia)) Hcheck Hen) as [Hnz Hspan].
  split; [exact Hnz | lia].
Qed.

(** ** Flat groups *)

Section GroupFacts.

Variable native : endian.
Variable size_checks_enabled : bool.
Variable E : endian.
Variable D : dimension_type.

Hypothesis Hwf : dimension_wf D.

Lemma group_get_header_inv (this dimension : byte_range) :
  group_get_header size_checks_enabled this D = Some dimension ->
  dimension = this
  /\ SBEPP_SIZE_CHECK size_checks_enabled (addressof this)
       (end_ptr size_checks_enabled this) 0 (dimension_size D) = Some tt.
Proof.
  unfold group_get_header.
  destruct (SBEPP_SIZE_CHECK _ _ _ _ _) as [[] |]; cbn; [| discriminate].
  intros [= <-]. split; reflexivity.
Qed.

Lemma dimension_size_nonneg : 0 <= dimension_size D.
Proof.
  destruct Hwf as (_ & [Hoff Hin] & _).
  pose proof (sizeof_cases (field_type (dimension_blockLength D))). lia.
Qed.

(** Once the header check passed, a header field is read without failure. *)
Lemma header_field_read (this : byte_range) (f : header_field)
    (m : memory) :
  field_inside f (dimension_size D) ->
  SBEPP_SIZE_CHECK size_checks_enabled (addressof this)
    (end_ptr size_checks_enabled this) 0 (dimension_size D) = Some tt ->
  composite_get native size_checks_enabled E this f m
  = Some (get_primitive native (field_type f) E m
            (addressof this + field_offset f)).
Proof.
  intros [Hoff Hin] Hcheck. unfold composite_get, get_value.
  destruct Hwf as (Hsize & _).
  pose proof (sizeof_cases (field_type f)) as Hs.
  rewrite (size_check_weaken _ _ _ 0 (dimension_size D)) by (assumption || lia).
  reflexivity.
Qed.

Lemma unsigned_field_range (T : prim_type) (m : memory) (p : Z) :
  is_signed T = false ->
  0 <= get_primitive native T E m p < 2 ^ bits T.
Proof. intros Hu. apply get_primitive_range. exact Hu. Qed.

Lemma to_unsigned_product (w a b : Z) :
  0 <= a -> 0 <= b -> a < 2 ^ w -> b < 2 ^ w -> a * b < 2 ^ w ->
  to_unsigned w (to_unsigned w a * to_unsigned w b) = a * b.
Proof.
  intros Ha Hb Haw Hbw Hab.
  rewrite (to_unsigned_small w a), (to_unsigned_small w b) by lia.
  apply to_unsigned_small. split; [apply Z.mul_nonneg_nonneg; lia | lia].
Qed.

Ltac exact_product :=
  match goal with
  | |- Some (to_unsigned ?w _) = Some _ =>
      f_equal; apply to_unsigned_product; lia
  | |- (if ?c then Some ?x else None) = Some ?x =>
      replace c with true; [reflexivity |];
      symmetry; apply andb_true_iff; split;
      [apply Z.leb_le | apply Z.ltb_lt]; nia
  end.

(** [multiply] is exact below [product_bound]. *)
Lemma multiply_exact (T1 T2 : prim_type) (a b : Z) :
  is_signed T1 = false -> is_signed T2 = false ->
  0 <= a < 2 ^ bits T1 -> 0 <= b < 2 ^ bits T2 ->
  a * b < product_bound T1 T2 ->
  multiply T1 T2 a b = Some (a * b).
Proof.
  intros Hs1 Hs2 Ha Hb Hprod.
  destruct T1; try discriminate Hs1; destruct T2; try discriminate Hs2;
    unfold multiply, product_bound, promoted_bits, promoted_signed, bits,
      sizeof, is_signed in *;
    cbn in Ha, Hb, Hprod |- *; exact_product.
Qed.

(** What [size_bytes()] of a flat group returns when the product does not
    overflow. *)
Lemma flat_size_bytes_exact (this : byte_range) (m : memory) :
  SBEPP_SIZE_CHECK size_checks_enabled (addressof this)
    (end_ptr size_checks_enabled this) 0 (dimension_size D) = Some tt ->
  let n := get_primitive native (field_type (dimension_numInGroup D)) E m
             (addressof this + field_offset (dimension_numInGroup D)) in
  let block_length :=
    get_primitive native (field_type (dimension_blockLength D)) E m
      (addressof this + field_offset (dimension_blockLength D)) in
  n * block_length
  < product_bound (field_type (dimension_numInGroup D))
      (field_type (dimension_blockLength D)) ->
  dimension_size D + n * block_length < 2 ^ size_t_bits ->
  flat_size_bytes native size_checks_enabled E D this m
  = Some (dimension_size D + n * block_length).
Proof.
  intros Hcheck n block_length Hprod Hsum.
  destruct Hwf as (Hsize & Hbl & Hn & Hsbl & Hsn).
  unfold flat_size_bytes, group_get_header, numInGroup, blockLength.
  rewrite Hcheck. cbn [obind].
  rewrite !header_field_read by assumption. cbn [obind].
  fold n. fold block_length.
  pose proof (unsigned_field_range (field_type (dimension_numInGroup D)) m
                (addressof this + field_offset (dimension_numInGroup D)) Hsn)
    as Hnr.
  pose proof (unsigned_field_range (field_type (dimension_blockLength D)) m
                (addressof this + field_offset (dimension_blockLength D)) Hsbl)
    as Hblr.
  fold n in Hnr. fold block_length in Hblr.
  rewrite multiply_exact by assumption. cbn [obind]. f_equal.
  apply to_unsigned_small. pose proof dimension_size_nonneg.
  assert (0 <= n * block_length) by (apply Z.mul_nonneg_nonneg; lia). lia.
Qed.

(** [size_bytes()] of a flat group reads the dimension header only. *)
Lemma flat_size_bytes_ext (this : byte_range) (m m' : memory) :
  (forall a, addressof this <= a < addressof this + dimension_size D ->
             m' a = m a) ->
  flat_size_bytes native size_checks_enabled E D this m'
  = flat_size_bytes native size_checks_enabled E D this m.
Proof.
  intros Hagree. destruct Hwf as (Hsize & [Hbo Hbi] & [Hno Hni] & _).
  unfold flat_size_bytes, group_get_header, numInGroup, blockLength,
    composite_get, get_value.
  destruct (SBEPP_SIZE_CHECK _ _ _ 0 (dimension_size D)); cbn [obind];
    [| reflexivity].
  rewrite (get_primitive_ext native _ E m m')
    by (intros a Ha; apply Hagree; lia).
  rewrite (get_primitive_ext native (field_type (dimension_blockLength D))
             E m m')
    by (intros a Ha; apply Hagree; lia).
  reflexivity.
Qed.

End GroupFacts.

(** C7, as the code has it.  For a flat group whose dimension header fits in
    the buffer, [size_bytes()] is the header's size plus [numInGroup] times
    [blockLength] whenever that product is below the bound of the type C++
    multiplies in ([int] when both fields are narrower than 32 bits,
    otherwise the wider unsigned type) and the sum fits [std::size_t]; it
    depends on the bytes of the dimension header only. *)
Theorem flat_group_size_bytes (native E : endian) (size_checks_enabled : bool)
    (D : dimension_type) (this : byte_range) (m m' : memory) :
  dimension_wf D ->
  SBEPP_SIZE_CHECK size_checks_enabled (addressof this)
    (end_ptr size_checks_enabled this) 0 (dimension_size D) = Some tt ->
  let n := get_primitive native (field_type (dimension_numInGroup D)) E m
             (addressof this + field_offset (dimension_numInGroup D)) in
  let block_length :=
    get_primitive native (field_type (dimension_blockLength D)) E m
      (addressof this + field_offset (dimension_blockLength D)) in
  n * block_length
  < product_bound (field_type (dimension_numInGroup D))
      (field_type (dimension_blockLength D)) ->
  dimension_size D + n * block_length < 2 ^ size_t_bits ->
  (forall a, addressof this <= a < addressof this + dimension_size D ->
             m' a = m a) ->
  flat_size_bytes native size_checks_enabled E D this m
  = Some (dimension_size D + n * block_length)
  /\ flat_size_bytes native size_checks_enabled E D this m'
     = Some (dimension_size D + n * block_length).
Proof.
  intros Hwf Hcheck n block_length Hprod Hsum Hagree.
  assert (Hm : flat_size_bytes native size_checks_enabled E D this m
               = Some (dimension_size D + n * block_length)).
  { apply flat_size_bytes_exact; assumption. }
  split; [exact Hm |].
  rewrite <- Hm. apply flat_size_bytes_ext; assumption.
Qed.

Lemma flat_group_size_bytes_witness :
  flat_size_bytes little true little
    {| dimension_size := 4;
       dimension_blockLength := {| field_offset := 0; field_type := uint16_t |};
       dimension_numInGroup := {| field_offset := 2; field_type := uint16_t |} |}
    {| range_begin := 100; range_end := 110 |}
    (fun a => if a =? 100 then 2 else if a =? 102 then 3 else 0)
  = Some (4 + 3 * 2).
Proof.
  refine (proj1 (flat_group_size_bytes little little true
            {| dimension_size := 4;
               dimension_blockLength :=
                 {| field_offset := 0; field_type := uint16_t |};
               dimension_numInGroup :=
                 {| field_offset := 2; field_type := uint16_t |} |}
            {| range_begin := 100; range_end := 110 |}
            (fun a => if a =? 100 then 2 else if a =? 102 then 3 else 0)
            (fun a => if a =? 100 then 2 else if a =? 102 then 3 else 0)
            _ eq_refl _ _ _)).
  - unfold dimension_wf, field_inside. cbn. repeat split; lia.
  - vm_compute. reflexivity.
  - vm_compute. reflexivity.
  - intros a _. reflexivity.
Defined.

(** C7 as stated fails when the product overflows: with 32-bit header
    fields holding [numInGroup = blockLength = 65536] the product wraps to 0
    and [size_bytes()] is the header size 8, not [8 + 65536 * 65536]; with
    the 16-bit fields of the standard group header and both at 65535 the
    [int] product has no defined value. *)
Lemma flat_group_size_bytes_overflow :
  flat_size_bytes little true little
    {| dimension_size := 8;
       dimension_blockLength := {| field_offset := 0; field_type := uint32_t |};
       dimension_numInGroup := {| field_offset := 4; field_type := uint32_t |} |}
    {| range_begin := 100; range_end := 108 |}
    (fun a => if a =? 102 then 1 else if a =? 106 then 1 else 0)
  = Some 8
  /\ get_primitive little uint32_t little
       (fun a => if a =? 102 then 1 else if a =? 106 then 1 else 0) 100
     = 65536
  /\ get_primitive little uint32_t little
       (fun a => if a =? 102 then 1 else if a =? 106 then 1 else 0) 104
     = 65536
  /\ flat_size_bytes little true little
       {| dimension_size := 4;
          dimension_blockLength := {| field_offset := 0; field_type := uint16_t |};
          dimension_numInGroup := {| field_offset := 2; field_type := uint16_t |} |}
       {| range_begin := 100; range_end := 104 |}
       (fun _ => 255)
     = None.
Proof. repeat split; vm_compute; reflexivity. Qed.

(** ** Nested groups *)

Section NestedGroupFacts.

Variable native : endian.
Variable size_checks_enabled : bool.
Variable E : endian.
Variable D : dimension_type.
Variable entry_size_bytes : entry_base -> memory -> option Z.

Hypothesis Hwf : dimension_wf D.

Lemma nested_begin_spec (this : byte_range) (m : memory) :
  SBEPP_SIZE_CHECK size_checks_enabled (addressof this)
    (end_ptr size_checks_enabled this) 0 (dimension_size D) = Some tt ->
  nested_begin native size_checks_enabled E D this m
  = Some {| it_ptr := addressof this + dimension_size D;
            it_index := 0;
            it_block_length :=
              get_primitive native (field_type (dimension_blockLength D)) E m
                (addressof this + field_offset (dimension_blockLength D));
            it_end := end_ptr size_checks_enabled this |}.
Proof.
  intros Hcheck. destruct Hwf as (_ & Hbl & _).
  unfold nested_begin, group_get_header, blockLength. rewrite Hcheck.
  cbn [obind]. rewrite (header_field_read native size_checks_enabled E D Hwf)
    by assumption.
  reflexivity.
Qed.

Lemma nested_end_spec (this : byte_range) (m : memory) :
  SBEPP_SIZE_CHECK size_checks_enabled (addressof this)
    (end_ptr size_checks_enabled this) 0 (dimension_size D) = Some tt ->
  nested_end native size_checks_enabled E D this m
  = Some {| it_ptr := 0;
            it_index :=
              get_primitive native (field_type (dimension_numInGroup D)) E m
                (addressof this + field_offset (dimension_numInGroup D));
            it_block_length :=
              get_primitive native (field_type (dimension_blockLength D)) E m
                (addressof this + field_offset (dimension_blockLength D));
            it_end := end_ptr size_checks_enabled this |}.
Proof.
  intros Hcheck. destruct Hwf as (_ & Hbl & Hn & _).
  unfold nested_end, group_get_header, blockLength, numInGroup.
  rewrite Hcheck. cbn [obind].
  rewrite !(header_field_read native size_checks_enabled E D Hwf)
    by assumption.
  reflexivity.
Qed.

Lemma as_index_small (i : Z) :
  0 <= i < 2 ^ bits (field_type (dimension_numInGroup D)) ->
  as_index D i = i.
Proof.
  intros Hi. destruct Hwf as (_ & _ & _ & _ & Hsn).
  unfold as_index, cast. rewrite Hsn. apply to_unsigned_small, Hi.
Qed.

(** The loop that sums the entry sizes and the loop that records the
    entries take the same steps. *)
Lemma for_each_entry_visits (m : memory) (last : forward_iterator)
    (fuel : nat) :
  forall (it : forward_iterator) (acc : Z) (seen : list entry_base)
         (it_sum : forward_iterator) (total : Z),
    0 <= it_index it ->
    it_index it + Z.of_nat fuel = it_index last ->
    it_index last < 2 ^ bits (field_type (dimension_numInGroup D)) ->
    for_each_entry size_checks_enabled D entry_size_bytes fuel it last
      (fun entry size =>
         entry_size <- entry_size_bytes entry m ;; Some (size + entry_size))
      acc m = Some (it_sum, total) ->
    exists visited,
      for_each_entry size_checks_enabled D entry_size_bytes fuel it last
        (fun entry visited => Some (visited ++ [entry])) seen m
      = Some (it_sum, seen ++ visited)
      /\ length visited = fuel
      /\ it_ptr it_sum = it_ptr it + (total - acc)
      /\ it_index it_sum = it_index last
      /\ consecutive entry_size_bytes visited (it_ptr it) (it_ptr it_sum) m.
Proof.
  induction fuel as [| fuel' IH];
    intros it acc seen it_sum total Hlow Hidx Hmax Hsum.
  - cbn [for_each_entry] in *. unfold iterator_eqb in *.
    replace (it_index it =? it_index last) with true in *
      by (symmetry; apply Z.eqb_eq; lia).
    injection Hsum as <- <-. exists []. rewrite app_nil_r.
    repeat split; try reflexivity; try lia.
  - cbn [for_each_entry] in *. unfold iterator_eqb in *.
    replace (it_index it =? it_index last) with false in *
      by (symmetry; apply Z.eqb_neq; lia).
    apply obind_some in Hsum. destruct Hsum as (acc' & Hbody & Hsum).
    apply obind_some in Hbody. destruct Hbody as (size & Hsize & Hacc).
    injection Hacc as <-.
    apply obind_some in Hsum. destruct Hsum as (it' & Hinc & Hsum).
    cbn [obind]. rewrite Hinc. cbn [obind].
    assert (Hit' : it_ptr it' = it_ptr it + size
                   /\ it_index it' = it_index it + 1).
    { unfold increment in Hinc.
      destruct (SBEPP_ASSERT _ _); cbn [obind] in Hinc; [| discriminate].
      rewrite Hsize in Hinc. cbn [obind] in Hinc. injection Hinc as <-.
      cbn. split; [reflexivity |]. apply as_index_small. lia. }
    destruct Hit' as [Hptr Hindex].
    destruct (IH it' (acc + size) (seen ++ [deref it]) it_sum total)
      as (visited & Hrun & Hlen & Hend & Hlast & Hchain);
      try lia; try assumption.
    exists (deref it :: visited). split.
    + rewrite Hrun, <- app_assoc. reflexivity.
    + split; [cbn; lia |]. split; [lia |]. split; [exact Hlast |].
      cbn [consecutive]. split; [reflexivity |].
      exists size. split; [exact Hsize |]. rewrite <- Hptr. exact Hchain.
Qed.

End NestedGroupFacts.


(** ** The size-validating visitor *)

Lemma validate_funded (n budget block_length : Z) :
  size_bytes_checked_visitor.validate_and_subtract n (funded budget block_length)
  = if budget <? n
    then (false,
          {| size_bytes_checked_visitor.size := budget;
             size_bytes_checked_visitor.valid := false;
             size_bytes_checked_visitor.group_block_length := block_length |})
    else (true, funded (budget - n) block_length).
Proof.
  unfold size_bytes_checked_visitor.validate_and_subtract, funded. cbn.
  destruct (budget <? n); reflexivity.
Qed.

Lemma set_block_length_funded (budget block_length block_length' : Z) :
  size_bytes_checked_visitor.set_group_block_length block_length'
    (funded budget block_length)
  = (block_length, funded budget block_length').
Proof. reflexivity. Qed.

Lemma charged_covered (budget size block_length next : Z) (r : option step) :
  size <= budget ->
  charged budget size block_length next r ->
  r = Some {| stop := false; cursor := next;
              visitor := funded (budget - size) block_length |}.
Proof.
  intros Hle. unfold charged.
  replace (size <=? budget) with true by (symmetry; apply Z.leb_le; lia).
  auto.
Qed.

Lemma charged_short (budget size block_length next : Z) (r : option step) :
  budget < size ->
  charged budget size block_length next r ->
  exists s, r = Some s /\ stop s = true
            /\ size_bytes_checked_visitor.valid (visitor s) = false.
Proof.
  intros Hlt. unfold charged.
  replace (size <=? budget) with false by (symmetry; apply Z.leb_gt; lia).
  auto.
Qed.

Lemma charged_intro_covered (budget size block_length next : Z) :
  size <= budget ->
  charged budget size block_length next
    (Some {| stop := false; cursor := next;
             visitor := funded (budget - size) block_length |}).
Proof.
  intros Hle. unfold charged.
  replace (size <=? budget) with true by (symmetry; apply Z.leb_le; lia).
  reflexivity.
Qed.

Lemma charged_intro_short (budget size block_length next : Z) (s : step) :
  budget < size -> stop s = true ->
  size_bytes_checked_visitor.valid (visitor s) = false ->
  charged budget size block_length next (Some s).
Proof.
  intros Hlt Hstop Hvalid. unfold charged.
  replace (size <=? budget) with false by (symmetry; apply Z.leb_gt; lia).
  exists s. auto.
Qed.

Lemma charged_shift (budget n size block_length next : Z) (r : option step) :
  0 <= n <= budget ->
  charged (budget - n) size block_length next r ->
  charged budget (n + size) block_length next r.
Proof.
  intros Hn. unfold charged.
  replace (n + size <=? budget) with (size <=? budget - n)
    by (destruct (Z.leb_spec size (budget - n)), (Z.leb_spec (n + size) budget);
        reflexivity || lia).
  replace (budget - (n + size)) with (budget - n - size) by lia.
  auto.
Qed.

Lemma charged_eq (budget size size' block_length next next' : Z)
    (r : option step) :
  size = size' -> next = next' ->
  charged budget size block_length next r ->
  charged budget size' block_length next' r.
Proof. intros <- <-. auto. Qed.

(** Two parts visited one after the other are charged their sum. *)
Lemma charged_then (budget size1 size2 block_length next1 next2 : Z)
    (r1 : option step)
    (k : Z -> size_bytes_checked_visitor.t -> option step) :
  0 <= size1 -> 0 <= size2 ->
  charged budget size1 block_length next1 r1 ->
  (size1 <= budget ->
   charged (budget - size1) size2 block_length next2
     (k next1 (funded (budget - size1) block_length))) ->
  charged budget (size1 + size2) block_length next2
    (r <- r1 ;; if stop r then Some r else k (cursor r) (visitor r)).
Proof.
  intros H1 H2 Hfirst Hsecond.
  destruct (Z.le_gt_cases size1 budget) as [Hle | Hgt].
  - rewrite (charged_covered _ _ _ _ _ Hle Hfirst). cbn.
    apply charged_shift; [lia |]. apply Hsecond. exact Hle.
  - destruct (charged_short _ _ _ _ _ Hgt Hfirst) as (s & -> & Hstop & Hvalid).
    cbn. rewrite Hstop.
    apply charged_intro_short; [lia | exact Hstop | exact Hvalid].
Qed.

Lemma bits_le_size_t (T : prim_type) : 2 ^ bits T <= 2 ^ size_t_bits.
Proof.
  apply Z.pow_le_mono_r; [lia |]. unfold bits, size_t_bits.
  pose proof (sizeof_cases T). lia.
Qed.

(** Steps that unfold one definition of the traversal. *)
Ltac expose_traversal_end := unfold traversal_end.
Ltac expose_view_end_ptr := unfold view_end_ptr.
Ltac expose_size_bytes_checked :=
  unfold size_bytes_checked, top_range, addressof.
Ltac step_visit_fields := cbn [visit_fields].
Ltac step_visit_data := cbn [visit_data].
Ltac step_visit_groups :=
  cbn [visit_groups obind stop cursor visitor has_no_groups].
Ltac step_data_encoded_size H := cbn [data_encoded_size] in H.

Section VisitorFacts.

Variable native : endian.
Variable size_checks_enabled : bool.
Variable E : endian.
Variable m : memory.

(** The buffer [[base, buffer_end)] of the visited view. *)
Variable base : Z.
Variable buffer_end : Z.

Hypothesis Hbase : 0 < base.
Hypothesis Hextent : buffer_end - base < 2 ^ size_t_bits.

Local Abbreviation traversal_end :=
  (traversal_end size_checks_enabled buffer_end).
Local Abbreviation view_end_ptr := (view_end_ptr size_checks_enabled).
Local Abbreviation next_level := (next_level native size_checks_enabled E).
Local Abbreviation visit_fields :=
  (visit_fields native size_checks_enabled E).
Local Abbreviation visit_data := (visit_data native size_checks_enabled E).
Local Abbreviation visit_level := (visit_level native size_checks_enabled E).
Local Abbreviation visit_groups :=
  (visit_groups native size_checks_enabled E).
Local Abbreviation data_encoded_size :=
  (data_encoded_size native E buffer_end m).
Local Abbreviation level_encoded_size :=
  (level_encoded_size native E buffer_end m).
Local Abbreviation groups_encoded_size :=
  (groups_encoded_size native E buffer_end m).

Lemma check_inside (begin_ offset size : Z) :
  base <= begin_ -> 0 <= offset + size ->
  begin_ + offset + size <= buffer_end ->
  SBEPP_SIZE_CHECK size_checks_enabled begin_ traversal_end offset size
  = Some tt.
Proof.
  intros Hb Hnn Hin. rewrite size_t_modulus in Hextent.
  apply size_check_spec.
  - rewrite size_t_modulus. lia.
  - intros Hen. expose_traversal_end. rewrite Hen. split; [lia |].
    rewrite to_unsigned_small; [lia |]. rewrite size_t_modulus. lia.
Qed.

Lemma end_ptr_sub_view (p : Z) :
  end_ptr size_checks_enabled
    {| range_begin := p; range_end := traversal_end |} = traversal_end.
Proof.
  unfold end_ptr. expose_traversal_end. cbn. destruct size_checks_enabled; reflexivity.
Qed.

Lemma visit_fields_spec (view : level_view) (start block_length : Z)
    (fields : list block_member) :
  view_end_ptr view = traversal_end ->
  next_level view m = Some (start + block_length) ->
  base <= start -> start + block_length <= buffer_end ->
  forall pos c,
    fields_fit fields pos block_length = true -> 0 <= pos ->
    c = start + pos ->
    visit_fields view fields c m
    = Some (match fields with [] => c | _ :: _ => start + block_length end).
Proof.
  intros Hend Hnext Hstart Hin.
  induction fields as [| f rest IH]; intros pos c Hfit Hpos ->;
    [reflexivity |].
  cbn [fields_fit] in Hfit.
  apply andb_prop in Hfit as [Hfit Hrest].
  apply andb_prop in Hfit as [Hfit Hle].
  apply andb_prop in Hfit as [Hoff Hsize].
  apply Z.leb_le in Hoff, Hsize, Hle.
  assert (Hread : forall size, 0 <= size <= member_size (kind f) ->
            SBEPP_SIZE_CHECK size_checks_enabled (start + pos) (view_end_ptr view)
              (offset f) size = Some tt).
  { intros size Hs. rewrite Hend.
    apply check_inside; lia. }
  step_visit_fields. destruct rest as [| f' rest'].
  - unfold access_member.
    destruct (kind f) as [U | size] eqn:Hkind; cbn [member_size] in *.
    + unfold cursor_get_last_value. rewrite Hread by lia. cbn.
      rewrite Hnext. reflexivity.
    + unfold cursor_get_last_static_field_view. rewrite Hread by lia. cbn.
      rewrite Hnext. reflexivity.
  - assert (Hstep : access_member native size_checks_enabled E view f false
                      (start + pos) m
                    = Some (start + (pos + offset f + member_size (kind f)))).
    { unfold access_member.
      destruct (kind f) as [U | size] eqn:Hkind; cbn [member_size] in *.
      - unfold cursor_get_value. rewrite Hread by lia. cbn.
        f_equal. lia.
      - unfold cursor_get_static_field_view. rewrite Hread by lia. cbn.
        f_equal. lia. }
    rewrite Hstep. cbn [obind].
    apply (IH (pos + offset f + member_size (kind f))); [exact Hrest | lia |].
    reflexivity.
Qed.

Lemma data_size_bytes (view : level_view) (T : prim_type) (p : Z) :
  view_end_ptr view = traversal_end ->
  is_signed T = false ->
  base <= p ->
  p + sizeof T + get_primitive native T E m p <= buffer_end ->
  dynamic_array_ref.size_bytes native size_checks_enabled T E
    (group_at size_checks_enabled view p) m
  = Some (sizeof T + get_primitive native T E m p).
Proof.
  intros Hend Hu Hp Hin.
  pose proof (unsigned_field_range native E T m p Hu) as Hlen.
  pose proof (sizeof_cases T) as Hsize.
  unfold dynamic_array_ref.size_bytes. rewrite size_spec.
  unfold dynamic_array_ref.span_check, group_at, addressof.
  cbn [range_begin]. rewrite Hend, end_ptr_sub_view.
  rewrite check_inside by lia.
  cbn. f_equal. apply to_unsigned_small.
  rewrite size_t_modulus in *. lia.
Qed.

Lemma data_encoded_size_nonneg (data : list prim_type) :
  Forall (fun T => is_signed T = false) data ->
  forall p S, data_encoded_size data p = Some S -> 0 <= S.
Proof.
  induction 1 as [| T rest Hu _ IH]; intros p S; cbn.
  - intros [= <-]. lia.
  - destruct (_ <=? buffer_end); [| discriminate].
    intros Hsize. apply obind_some in Hsize as (S' & Hrest & [= <-]).
    pose proof (IH _ _ Hrest).
    pose proof (unsigned_field_range native E T m p Hu).
    pose proof (sizeof_cases T). lia.
Qed.

Lemma cursor_get_data_view_spec (view : level_view) (T : prim_type) (p : Z) :
  view_end_ptr view = traversal_end ->
  is_signed T = false ->
  base <= p ->
  p + sizeof T + get_primitive native T E m p <= buffer_end ->
  cursor_get_data_view native size_checks_enabled E view T p m
  = Some (group_at size_checks_enabled view p,
          p + (sizeof T + get_primitive native T E m p)).
Proof.
  intros Hend Hu Hp Hin. unfold cursor_get_data_view. cbv zeta.
  rewrite data_size_bytes by assumption. reflexivity.
Qed.

Lemma visit_data_spec (view : level_view) (data : list prim_type) :
  view_end_ptr view = traversal_end ->
  Forall (fun T => is_signed T = false) data ->
  forall first c p budget g S,
    data_encoded_size data p = Some S ->
    base <= p -> 0 <= budget ->
    (first = true -> next_level view m = Some p) ->
    (first = false \/ data = [] -> c = p) ->
    charged budget S g (p + S)
      (visit_data view data first c (funded budget g) m).
Proof.
  intros Hend Hdata.
  induction Hdata as [| T rest Hu Hrest IH];
    intros first c p budget g S Hsize Hp Hbudget Hfirst Hc.
  - cbn in Hsize. injection Hsize as <-. cbn.
    rewrite (Hc (or_intror eq_refl)).
    replace (funded budget g) with (funded (budget - 0) g)
      by (f_equal; lia).
    rewrite Z.add_0_r.
    apply charged_intro_covered. exact Hbudget.
  - step_data_encoded_size Hsize.
    destruct (_ <=? buffer_end) eqn:Hin; [| discriminate].
    apply Z.leb_le in Hin.
    apply obind_some in Hsize as (S' & Hsize' & [= <-]).
    pose proof (unsigned_field_range native E T m p Hu) as Hlen.
    pose proof (sizeof_cases T) as HT.
    pose proof (data_encoded_size_nonneg rest Hrest _ _ Hsize') as HS'.
    set (len := get_primitive native T E m p) in *.
    assert (Hview :
      (if first
       then cursor_get_first_data_view native size_checks_enabled E view T m
       else cursor_get_data_view native size_checks_enabled E view T c m)
      = Some (group_at size_checks_enabled view p, p + (sizeof T + len))).
    { destruct first.
      - unfold cursor_get_first_data_view. rewrite (Hfirst eq_refl). cbn [obind].
        apply cursor_get_data_view_spec; assumption.
      - rewrite (Hc (or_introl eq_refl)).
        apply cursor_get_data_view_spec; assumption. }
    step_visit_data. rewrite Hview. cbn [obind fst snd].
    unfold on_data. rewrite data_size_bytes by assumption. cbn [obind].
    fold len. rewrite validate_funded.
    destruct (budget <? sizeof T + len) eqn:Hshort.
    + apply Z.ltb_lt in Hshort. cbn.
      apply charged_intro_short; [lia | reflexivity | reflexivity].
    + apply Z.ltb_ge in Hshort. cbn [fst snd negb].
      apply charged_shift; [lia |].
      rewrite Z.add_assoc.
      apply IH; try lia; try discriminate; try (intros _; reflexivity).
      rewrite Z.add_assoc. exact Hsize'.
Qed.

(** The equations of the mutually recursive definitions. *)
Lemma level_encoded_size_eq (fields : list block_member) (groups : group_list)
    (data : list prim_type) (start block_length : Z) :
  level_encoded_size (Level fields groups data) start block_length
  = if fields_fit fields 0 block_length
       && (start + block_length <=? buffer_end)
    then
      groups_size <- groups_encoded_size groups (start + block_length) ;;
      data_size <- data_encoded_size data
                     (start + block_length + groups_size) ;;
      Some (block_length + groups_size + data_size)
    else None.
Proof. reflexivity. Qed.

Lemma groups_encoded_size_eq (D : dimension_type) (entry : level_schema)
    (rest : group_list) (p : Z) :
  groups_encoded_size (group_then D entry rest) p
  = if p + dimension_size D <=? buffer_end
    then
      entries_size <-
        entries_encoded_size (level_encoded_size entry)
          (Z.to_nat (get_primitive native (field_type (dimension_numInGroup D))
                       E m (p + field_offset (dimension_numInGroup D))))
          (p + dimension_size D)
          (get_primitive native (field_type (dimension_blockLength D)) E m
             (p + field_offset (dimension_blockLength D))) ;;
      rest_size <- groups_encoded_size rest
                     (p + dimension_size D + entries_size) ;;
      Some (dimension_size D + entries_size + rest_size)
    else None.
Proof. reflexivity. Qed.

Lemma visit_level_eq (fields : list block_member) (groups : group_list)
    (data : list prim_type) (view : level_view) (c : Z)
    (v : size_bytes_checked_visitor.t) :
  visit_level (Level fields groups data) view c v m
  = (c' <- visit_fields view fields c m ;;
     r <- visit_groups groups view true c' v m ;;
     if stop r then Some r
     else visit_data view data (has_no_groups groups) (cursor r)
            (visitor r) m).
Proof. reflexivity. Qed.

Lemma visit_groups_eq (D : dimension_type) (entry : level_schema)
    (rest : group_list) (view : level_view) (first : bool) (c : Z)
    (v : size_bytes_checked_visitor.t) :
  visit_groups (group_then D entry rest) view first c v m
  = (g <- (if first
           then cursor_get_first_group_view native size_checks_enabled E
                  view D m
           else cursor_get_group_view size_checks_enabled view D c) ;;
     r <- on_group native size_checks_enabled E (visit_level entry)
            (has_no_members entry) (fst g) D (snd g) v m ;;
     if stop r then Some r
     else visit_groups rest view false (cursor r) (visitor r) m).
Proof. reflexivity. Qed.

Lemma on_entry_spec (visit_children : children_visitor) (e : entry_base)
    (c budget block_length size next : Z) :
  0 <= block_length <= size ->
  (block_length <= budget ->
   charged (budget - block_length) (size - block_length) block_length next
     (visit_children (entry_view e) c
        (funded (budget - block_length) block_length) m)) ->
  charged budget size block_length next
    (on_entry visit_children e c (funded budget block_length) m).
Proof.
  intros Hbl Hchildren. unfold on_entry.
  cbn [funded size_bytes_checked_visitor.group_block_length].
  fold (funded budget block_length). rewrite validate_funded.
  destruct (budget <? block_length) eqn:Hshort.
  - apply Z.ltb_lt in Hshort. cbn.
    apply charged_intro_short; [lia | reflexivity | reflexivity].
  - apply Z.ltb_ge in Hshort. cbn [fst snd negb].
    specialize (Hchildren Hshort).
    destruct (Z.le_gt_cases size budget) as [Hle | Hgt].
    + apply charged_covered in Hchildren; [| lia]. rewrite Hchildren. cbn.
      replace (budget - block_length - (size - block_length))
        with (budget - size) by lia.
      apply charged_intro_covered. exact Hle.
    + apply charged_short in Hchildren; [| lia].
      destruct Hchildren as (s & -> & Hstop & Hvalid).
      cbn. unfold size_bytes_checked_visitor.is_valid. rewrite Hvalid.
      apply charged_intro_short; [lia | reflexivity | exact Hvalid].
Qed.

(** What [visit_children] of a level does when the level is well-formed:
    the groups and data after the fixed block are charged. *)
Local Abbreviation level_charged s :=
  (forall view start block_length c budget g S,
     schema_wf s ->
     view_end_ptr view = traversal_end ->
     next_level view m = Some (start + block_length) ->
     base <= start -> 0 <= block_length -> 0 <= budget ->
     c = (if has_no_members s then start + block_length else start) ->
     level_encoded_size s start block_length = Some S ->
     charged budget (S - block_length) g (start + S)
       (visit_level s view c (funded budget g) m)).

Local Abbreviation level_sized s :=
  (forall start block_length S,
     schema_wf s -> 0 <= block_length ->
     level_encoded_size s start block_length = Some S ->
     block_length <= S).

Lemma entries_encoded_size_nonneg (entry : level_schema) (block_length : Z) :
  level_sized entry -> schema_wf entry -> 0 <= block_length ->
  forall n p S,
    entries_encoded_size (level_encoded_size entry) n p block_length = Some S ->
    0 <= S.
Proof.
  intros Hentry Hwf Hbl. induction n as [| n IH]; intros p S; cbn.
  - intros [= <-]. lia.
  - intros Hsize.
    apply obind_some in Hsize as (S1 & Hfirst & Hsize).
    apply obind_some in Hsize as (S2 & Hrest & [= <-]).
    pose proof (Hentry _ _ _ Hwf Hbl Hfirst). pose proof (IH _ _ Hrest). lia.
Qed.

Lemma entries_loop_spec (entry : level_schema) (D : dimension_type)
    (block_length last : Z) :
  level_charged entry -> level_sized entry ->
  schema_wf entry -> dimension_wf D -> 0 <= block_length ->
  last < 2 ^ bits (field_type (dimension_numInGroup D)) ->
  forall n index p budget S,
    0 <= index -> index + Z.of_nat n = last ->
    entries_encoded_size (level_encoded_size entry) n p block_length = Some S ->
    base <= p -> 0 <= budget ->
    charged budget S block_length (p + S)
      (entries_loop (visit_level entry)
         (has_no_members entry) D n index last block_length traversal_end
         p (funded budget block_length) m).
Proof.
  intros Hcharged Hsized Hwf HD Hbl Hlast.
  induction n as [| n IH]; intros index p budget S Hindex Hn Hsize Hp Hbudget.
  - cbn in Hsize. injection Hsize as <-. cbn [entries_loop].
    replace (index =? last) with true by (symmetry; apply Z.eqb_eq; lia).
    rewrite Z.add_0_r.
    replace (funded budget block_length)
      with (funded (budget - 0) block_length) by (f_equal; lia).
    apply charged_intro_covered. exact Hbudget.
  - cbn [entries_encoded_size] in Hsize.
    apply obind_some in Hsize as (S1 & Hfirst & Hsize).
    apply obind_some in Hsize as (S2 & Hrest & [= <-]).
    pose proof (Hsized _ _ _ Hwf Hbl Hfirst) as HS1.
    pose proof (entries_encoded_size_nonneg entry block_length Hsized Hwf Hbl
                  _ _ _ Hrest) as HS2.
    cbn [entries_loop].
    replace (index =? last) with false by (symmetry; apply Z.eqb_neq; lia).
    unfold entry_from_cursor. cbn [fst snd].
    set (e := {| entry_range := {| range_begin := p; range_end := traversal_end |};
                 entry_block_length := block_length |}).
    set (c := if has_no_members entry then p + block_length else p).
    assert (Hentry : charged budget S1 block_length (p + S1)
                       (on_entry (visit_level entry) e c
                          (funded budget block_length) m)).
    { apply on_entry_spec; [lia |]. intros Hle.
      apply Hcharged; try assumption; try lia; try reflexivity.
      expose_view_end_ptr. cbn. apply end_ptr_sub_view. }
    destruct (Z.le_gt_cases S1 budget) as [Hle | Hgt].
    + rewrite (charged_covered _ _ _ _ _ Hle Hentry). cbn [obind stop cursor visitor].
      rewrite (as_index_small D HD) by lia.
      apply charged_shift; [lia |]. rewrite Z.add_assoc.
      apply IH; try lia. exact Hrest.
    + destruct (charged_short _ _ _ _ _ Hgt Hentry) as (s & -> & Hstop & Hvalid).
      cbn [obind]. rewrite Hstop.
      apply charged_intro_short; [lia | reflexivity | exact Hvalid].
Qed.

Lemma group_header_read (g : byte_range) (D : dimension_type) :
  dimension_wf D ->
  end_ptr size_checks_enabled g = traversal_end ->
  base <= addressof g -> addressof g + dimension_size D <= buffer_end ->
  group_get_header size_checks_enabled g D = Some g
  /\ blockLength native size_checks_enabled E D g m
     = Some (get_primitive native (field_type (dimension_blockLength D)) E m
               (addressof g + field_offset (dimension_blockLength D)))
  /\ numInGroup native size_checks_enabled E D g m
     = Some (get_primitive native (field_type (dimension_numInGroup D)) E m
               (addressof g + field_offset (dimension_numInGroup D))).
Proof.
  intros HD Hend Hg Hin.
  pose proof (dimension_size_nonneg D HD) as Hdim.
  assert (Hcheck : SBEPP_SIZE_CHECK size_checks_enabled (addressof g)
                     (end_ptr size_checks_enabled g) 0 (dimension_size D)
                   = Some tt).
  { rewrite Hend. apply check_inside; lia. }
  split; [| split].
  - unfold group_get_header. rewrite Hcheck. reflexivity.
  - apply (header_field_read native size_checks_enabled E D HD);
      [apply HD | exact Hcheck].
  - apply (header_field_read native size_checks_enabled E D HD);
      [apply HD | exact Hcheck].
Qed.

Lemma on_group_spec (entry : level_schema) (D : dimension_type)
    (g : byte_range) (budget outer entries_size : Z) :
  level_charged entry -> level_sized entry ->
  schema_wf entry -> dimension_wf D ->
  end_ptr size_checks_enabled g = traversal_end ->
  base <= addressof g -> addressof g + dimension_size D <= buffer_end ->
  0 <= budget ->
  entries_encoded_size (level_encoded_size entry)
    (Z.to_nat (get_primitive native (field_type (dimension_numInGroup D)) E m
                 (addressof g + field_offset (dimension_numInGroup D))))
    (addressof g + dimension_size D)
    (get_primitive native (field_type (dimension_blockLength D)) E m
       (addressof g + field_offset (dimension_blockLength D)))
  = Some entries_size ->
  charged budget (dimension_size D + entries_size) outer
    (addressof g + dimension_size D + entries_size)
    (on_group native size_checks_enabled E (visit_level entry)
       (has_no_members entry) g D (addressof g + dimension_size D)
       (funded budget outer) m).
Proof.
  intros Hcharged Hsized Hwf HD Hend Hg Hin Hbudget Hsize.
  pose proof (dimension_size_nonneg D HD) as Hdim.
  destruct (group_header_read g D HD Hend Hg Hin) as (Hheader & Hbl & Hnum).
  set (n := get_primitive native (field_type (dimension_numInGroup D)) E m
              (addressof g + field_offset (dimension_numInGroup D))) in *.
  set (block_length :=
         get_primitive native (field_type (dimension_blockLength D)) E m
           (addressof g + field_offset (dimension_blockLength D))) in *.
  assert (Hn : 0 <= n < 2 ^ bits (field_type (dimension_numInGroup D))).
  { apply unsigned_field_range. apply HD. }
  assert (Hblock :
            0 <= block_length < 2 ^ bits (field_type (dimension_blockLength D))).
  { apply unsigned_field_range. apply HD. }
  pose proof (bits_le_size_t (field_type (dimension_blockLength D))) as Hw.
  pose proof (entries_encoded_size_nonneg entry block_length Hsized Hwf
                (proj1 Hblock) _ _ _ Hsize) as Hentries.
  unfold on_group. rewrite Hheader. cbn [obind]. cbv zeta.
  rewrite validate_funded.
  destruct (budget <? dimension_size D) eqn:Hshort.
  - apply Z.ltb_lt in Hshort. cbn.
    apply charged_intro_short; [lia | reflexivity | reflexivity].
  - apply Z.ltb_ge in Hshort. cbn [fst snd negb].
    rewrite Hbl. cbn [obind].
    unfold to_size_t. rewrite (to_unsigned_small size_t_bits block_length) by lia.
    rewrite set_block_length_funded. cbn [fst snd].
    unfold group_visit_children. rewrite Hheader. cbn [obind].
    rewrite Hbl. cbn [obind].
    unfold group_size. rewrite Hheader. cbn [obind]. rewrite Hnum. cbn [obind].
    rewrite Z.add_0_l, (as_index_small D HD n Hn), Hend.
    pose proof (entries_loop_spec entry D block_length n Hcharged Hsized Hwf HD
                  (proj1 Hblock) (proj2 Hn) (Z.to_nat n) 0
                  (addressof g + dimension_size D)
                  (budget - dimension_size D) entries_size
                  ltac:(lia) ltac:(lia) Hsize ltac:(lia) ltac:(lia)) as Hloop.
    destruct (Z.le_gt_cases entries_size (budget - dimension_size D))
      as [Hle | Hgt].
    + apply charged_covered in Hloop; [| exact Hle]. rewrite Hloop.
      cbn.
      replace (budget - dimension_size D - entries_size)
        with (budget - (dimension_size D + entries_size)) by lia.
      apply charged_intro_covered. lia.
    + apply charged_short in Hloop; [| exact Hgt].
      destruct Hloop as (s & -> & Hstop & Hvalid).
      cbn. unfold size_bytes_checked_visitor.is_valid. cbn. rewrite Hvalid.
      apply charged_intro_short; [lia | reflexivity | cbn; auto].
Qed.

Local Abbreviation groups_sized gs :=
  (forall p S, groups_wf gs -> groups_encoded_size gs p = Some S -> 0 <= S).

Lemma schema_encoded_size_lower :
  (forall s, level_sized s) /\ (forall gs, groups_sized gs).
Proof.
  apply schema_mutind.
  - intros fields groups IHgroups data start block_length S [Hgroups Hdata]
      Hbl Hsize.
    rewrite level_encoded_size_eq in Hsize.
    destruct (_ && _); [| discriminate].
    apply obind_some in Hsize as (Sg & Hg & Hsize).
    apply obind_some in Hsize as (Sd & Hd & [= <-]).
    pose proof (IHgroups _ _ Hgroups Hg).
    pose proof (data_encoded_size_nonneg data Hdata _ _ Hd). lia.
  - intros p S _ [= <-]. lia.
  - intros D entry IHentry rest IHrest p S (HD & Hentry & Hrest) Hsize.
    rewrite groups_encoded_size_eq in Hsize.
    destruct (_ <=? _); [| discriminate].
    apply obind_some in Hsize as (Se & He & Hsize).
    apply obind_some in Hsize as (Sr & Hr & [= <-]).
    pose proof (IHrest _ _ Hrest Hr).
    pose proof (dimension_size_nonneg D HD).
    assert (0 <= Se).
    { eapply entries_encoded_size_nonneg;
        [exact IHentry | exact Hentry | | exact He].
      apply unsigned_field_range. apply HD. }
    lia.
Qed.

Local Abbreviation groups_charged gs :=
  (forall view first c p budget g S,
     groups_wf gs ->
     view_end_ptr view = traversal_end ->
     base <= p -> 0 <= budget ->
     (first = true -> gs <> no_groups /\ next_level view m = Some p) ->
     (first = false -> c = p) ->
     groups_encoded_size gs p = Some S ->
     charged budget S g (p + S)
       (visit_groups gs view first c (funded budget g) m)).

Lemma visit_schema_spec :
  (forall s, level_charged s) /\ (forall gs, groups_charged gs).
Proof.
  destruct schema_encoded_size_lower as [Hlevel_sized Hgroups_sized].
  apply schema_mutind.
  - intros fields groups IHgroups data view start block_length c budget g S
      [Hgroups Hdata] Hend Hnext Hstart Hbl Hbudget Hc Hsize.
    rewrite level_encoded_size_eq in Hsize.
    destruct (_ && _) eqn:Hfit; [| discriminate].
    apply andb_prop in Hfit as [Hfit Hin]. apply Z.leb_le in Hin.
    apply obind_some in Hsize as (Sg & Hg & Hsize).
    apply obind_some in Hsize as (Sd & Hd & [= <-]).
    pose proof (data_encoded_size_nonneg data Hdata _ _ Hd) as HSd.
    pose proof (Hgroups_sized _ _ _ Hgroups Hg) as HSg.
    rewrite visit_level_eq.
    assert (Hfields :
      visit_fields view fields c m
      = Some (match fields with [] => c | _ :: _ => start + block_length end)).
    { destruct fields as [| f fields']; [reflexivity |].
      apply (visit_fields_spec view start block_length (f :: fields') Hend
               Hnext Hstart Hin 0); [exact Hfit | lia |].
      rewrite Hc. cbn. lia. }
    rewrite Hfields. cbn [obind].
    destruct groups as [| D entry rest].
    + (* no groups: the data goes first *)
      cbn in Hg. injection Hg as <-. step_visit_groups.
      eapply charged_eq;
        [ | | apply (visit_data_spec view data Hend Hdata true _
                       (start + block_length + 0) budget g Sd Hd) ];
        [lia | lia | lia | exact Hbudget | | ].
      * intros _. rewrite Z.add_0_r. exact Hnext.
      * intros [Hfalse | ->]; [discriminate |].
        destruct fields as [| f fields']; [| lia].
        rewrite Hc. cbn. lia.
    + eapply charged_eq;
        [ | | apply (charged_then budget Sg Sd g (start + block_length + Sg)
                       (start + block_length + Sg + Sd)
                       (visit_groups (group_then D entry rest) view true _
                          (funded budget g) m)
                       (fun c' v' => visit_data view data false c' v' m)
                       HSg HSd) ];
        [lia | lia | | ].
      * apply IHgroups; try assumption; try lia; try discriminate.
        intros _. split; [discriminate | exact Hnext].
      * intros Hle.
        apply visit_data_spec; try assumption; try lia; try discriminate.
  - (* no more groups *)
    intros view first c p budget g S _ Hend Hp Hbudget Hfirst Hc [= <-].
    step_visit_groups.
    destruct first.
    + destruct (Hfirst eq_refl) as [Hne _]. contradiction.
    + rewrite (Hc eq_refl), Z.add_0_r.
      replace (funded budget g) with (funded (budget - 0) g) by (f_equal; lia).
      apply charged_intro_covered. exact Hbudget.
  - intros D entry IHentry rest IHrest view first c p budget g S
      (HD & Hentry & Hrest) Hend Hp Hbudget Hfirst Hc Hsize.
    rewrite groups_encoded_size_eq in Hsize.
    destruct (_ <=? _) eqn:Hin; [| discriminate]. apply Z.leb_le in Hin.
    apply obind_some in Hsize as (Se & He & Hsize).
    apply obind_some in Hsize as (Sr & Hr & [= <-]).
    pose proof (Hgroups_sized _ _ _ Hrest Hr) as HSr.
    pose proof (dimension_size_nonneg D HD) as Hdim.
    assert (HSe : 0 <= Se).
    { eapply entries_encoded_size_nonneg;
        [apply Hlevel_sized | exact Hentry | | exact He].
      apply unsigned_field_range. apply HD. }
    assert (Hgroup_end :
              end_ptr size_checks_enabled (group_at size_checks_enabled view p)
              = traversal_end).
    { unfold group_at. rewrite Hend. apply end_ptr_sub_view. }
    assert (Hview :
      (if first
       then cursor_get_first_group_view native size_checks_enabled E view D m
       else cursor_get_group_view size_checks_enabled view D c)
      = Some (group_at size_checks_enabled view p, p + dimension_size D)).
    { assert (Hat : cursor_get_group_view size_checks_enabled view D p
                    = Some (group_at size_checks_enabled view p,
                            p + dimension_size D)).
      { unfold cursor_get_group_view. cbv zeta.
        destruct (group_header_read (group_at size_checks_enabled view p) D
                    HD Hgroup_end Hp Hin) as (-> & _).
        reflexivity. }
      destruct first.
      - unfold cursor_get_first_group_view.
        destruct (Hfirst eq_refl) as [_ ->]. exact Hat.
      - rewrite (Hc eq_refl). exact Hat. }
    rewrite visit_groups_eq, Hview. cbn [obind fst snd].
    eapply charged_eq;
      [ | | apply (charged_then budget (dimension_size D + Se) Sr g
                     (p + dimension_size D + Se)
                     (p + dimension_size D + Se + Sr)
                     (on_group native size_checks_enabled E (visit_level entry)
                        (has_no_members entry)
                        (group_at size_checks_enabled view p) D
                        (p + dimension_size D) (funded budget g) m)
                     (fun c' v' => visit_groups rest view false c' v' m)) ];
      [lia | lia | lia | exact HSr | | ].
    + apply (on_group_spec entry D (group_at size_checks_enabled view p));
        try assumption.
      apply Hlevel_sized.
    + intros Hle. apply IHrest; try assumption; try lia; try discriminate.
Qed.

Lemma visit_level_spec (s : level_schema) : level_charged s.
Proof. apply visit_schema_spec. Qed.

Lemma level_encoded_size_lower (s : level_schema) : level_sized s.
Proof. apply schema_encoded_size_lower. Qed.

End VisitorFacts.

Lemma end_ptr_top (size_checks_enabled : bool) (this : byte_range)
    (buffer_end : Z) :
  (size_checks_enabled = true -> range_end this = buffer_end) ->
  end_ptr size_checks_enabled this
  = traversal_end size_checks_enabled buffer_end.
Proof.
  intros Hend. unfold end_ptr. expose_traversal_end.
  destruct size_checks_enabled; [apply Hend |]; reflexivity.
Qed.

Section SizeBytesChecked.

Variable native : endian.
Variable size_checks_enabled : bool.
Variable E : endian.
Variable m : memory.

(** The end of the buffer that holds the encoding; with the size checks
    compiled in, the view ends there too. *)
Variable buffer_end : Z.

Local Abbreviation size_bytes_checked :=
  (size_bytes_checked native size_checks_enabled E).

Lemma size_bytes_checked_message (this : byte_range) (H : message_header)
    (schema : level_schema) (size S : Z) :
  top_view_wf (top_message this H schema) -> 0 <= size ->
  (size_checks_enabled = true -> range_end this = buffer_end) ->
  encoded_size native E buffer_end (top_message this H schema) m = Some S ->
  size_bytes_checked (top_message this H schema) size m
  = Some (if S <=? size
          then {| result_valid := true; result_size := S |}
          else {| result_valid := false; result_size := 0 |}).
Proof.
  intros [(Hhs & [Hoff Hfield] & Hu) Hwf] Hsize Hend Henc.
  pose proof (end_ptr_top size_checks_enabled this buffer_end Hend) as Htop.
  unfold encoded_size in Henc.
  destruct (_ && _) eqn:Hcond; [| discriminate].
  apply andb_prop in Hcond as [Hcond Hheader_in].
  apply andb_prop in Hcond as [Hbase Hextent].
  apply Z.ltb_lt in Hbase, Hextent. apply Z.leb_le in Hheader_in.
  cbv zeta in Henc.
  apply obind_some in Henc as (S' & Hlevel & [= <-]).
  set (block_length :=
         get_primitive native (field_type (message_blockLength H)) E m
           (range_begin this + field_offset (message_blockLength H))) in *.
  pose proof (unsigned_field_range native E _ m
                (range_begin this + field_offset (message_blockLength H)) Hu)
    as Hbl.
  fold block_length in Hbl.
  pose proof (bits_le_size_t (field_type (message_blockLength H))) as Hw.
  pose proof (sizeof_cases (field_type (message_blockLength H))) as Hsizeof.
  pose proof (level_encoded_size_lower native E m buffer_end schema
                _ _ _ Hwf (proj1 Hbl) Hlevel) as Hlow.
  assert (Hheader : message_get_header size_checks_enabled this H = Some this).
  { unfold message_get_header. rewrite Htop.
    rewrite (check_inside size_checks_enabled (range_begin this)
               buffer_end Hbase Hextent);
      [reflexivity | unfold addressof; lia ..]. }
  assert (Hblock : composite_get native size_checks_enabled E this
                     (message_blockLength H) m = Some block_length).
  { unfold composite_get, get_value. rewrite Htop.
    rewrite (check_inside size_checks_enabled (range_begin this)
               buffer_end Hbase Hextent);
      [reflexivity | unfold addressof; lia ..]. }
  expose_size_bytes_checked.
  replace (range_begin this =? 0) with false
    by (symmetry; apply Z.eqb_neq; lia).
  unfold init_cursor, get_header_size. rewrite Hheader. cbn [obind].
  destruct (size <? message_header_size H) eqn:Hshort.
  { apply Z.ltb_lt in Hshort.
    replace (message_header_size H + S' <=? size) with false
      by (symmetry; apply Z.leb_gt; lia).
    reflexivity. }
  apply Z.ltb_ge in Hshort.
  unfold visit, on_message, top_range, addressof. rewrite Hheader. cbn [obind].
  change (size_bytes_checked_visitor.make size) with (funded size 0).
  rewrite validate_funded.
  replace (size <? message_header_size H) with false
    by (symmetry; apply Z.ltb_ge; lia).
  cbn [fst snd negb]. rewrite Hblock. cbn [obind].
  unfold to_size_t. rewrite (to_unsigned_small size_t_bits block_length) by lia.
  rewrite validate_funded.
  destruct (size - message_header_size H <? block_length) eqn:Hshort'.
  { apply Z.ltb_lt in Hshort'. cbn.
    replace (message_header_size H + S' <=? size) with false
      by (symmetry; apply Z.leb_gt; lia).
    reflexivity. }
  apply Z.ltb_ge in Hshort'. cbn [fst snd negb].
  destruct (has_no_members schema) eqn:Hempty.
  - destruct schema as [[| f fields] [| D entry rest] [| T data]];
      try discriminate.
    cbn in Hlevel. destruct (_ <=? _); [| discriminate].
    injection Hlevel as <-. cbn.
    replace (message_header_size H + (block_length + 0 + 0) <=? size) with true
      by (symmetry; apply Z.leb_le; lia).
    f_equal. f_equal. lia.
  - pose proof (visit_level_spec native size_checks_enabled E m
                  (range_begin this) buffer_end Hbase Hextent schema
                  (message_view this H)
                  (range_begin this + message_header_size H) block_length
                  (range_begin this + message_header_size H)
                  (size - message_header_size H - block_length) 0 S' Hwf)
      as Hvisit.
    rewrite Hempty in Hvisit.
    specialize (Hvisit Htop).
    assert (Hnext : next_level native size_checks_enabled E
                      (message_view this H) m
                    = Some (range_begin this + message_header_size H
                            + block_length)).
    { unfold next_level, get_level, get_block_length, message_get_level,
        message_get_block_length.
      rewrite Hheader. cbn [obind]. rewrite Hblock. reflexivity. }
    specialize (Hvisit Hnext ltac:(lia) ltac:(lia) ltac:(lia) eq_refl Hlevel).
    destruct (Z.le_gt_cases (S' - block_length)
                (size - message_header_size H - block_length)) as [Hle | Hgt].
    + apply charged_covered in Hvisit; [| exact Hle]. rewrite Hvisit. cbn.
      replace (message_header_size H + S' <=? size) with true
        by (symmetry; apply Z.leb_le; lia).
      f_equal. f_equal. lia.
    + apply charged_short in Hvisit; [| exact Hgt].
      destruct Hvisit as (s & -> & _ & Hinvalid). cbn.
      unfold size_bytes_checked_visitor.is_valid. rewrite Hinvalid.
      replace (message_header_size H + S' <=? size) with false
        by (symmetry; apply Z.leb_gt; lia).
      reflexivity.
Qed.

Lemma size_bytes_checked_group (this : byte_range) (D : dimension_type)
    (entry : level_schema) (size S : Z) :
  top_view_wf (top_group this D entry) -> 0 <= size ->
  (size_checks_enabled = true -> range_end this = buffer_end) ->
  encoded_size native E buffer_end (top_group this D entry) m = Some S ->
  size_bytes_checked (top_group this D entry) size m
  = Some (if S <=? size
          then {| result_valid := true; result_size := S |}
          else {| result_valid := false; result_size := 0 |}).
Proof.
  intros [HD Hwf] Hsize Hend Henc.
  pose proof (end_ptr_top size_checks_enabled this buffer_end Hend) as Htop.
  unfold encoded_size in Henc.
  destruct (_ && _) eqn:Hcond; [| discriminate].
  apply andb_prop in Hcond as [Hbase Hextent].
  apply Z.ltb_lt in Hbase, Hextent.
  rewrite groups_encoded_size_eq in Henc.
  destruct (_ <=? _) eqn:Hin; [| discriminate]. apply Z.leb_le in Hin.
  apply obind_some in Henc as (Se & Hentries & Henc).
  cbn in Henc. injection Henc as <-.
  pose proof (dimension_size_nonneg D HD) as Hdim.
  assert (HSe : 0 <= Se).
  { eapply (entries_encoded_size_nonneg native E m buffer_end);
      [apply level_encoded_size_lower | exact Hwf | | exact Hentries].
    apply unsigned_field_range. apply HD. }
  destruct (group_header_read native size_checks_enabled E m
              (range_begin this) buffer_end Hbase Hextent this D HD
              Htop (Z.le_refl _) Hin) as (Hheader & _).
  expose_size_bytes_checked.
  replace (range_begin this =? 0) with false
    by (symmetry; apply Z.eqb_neq; lia).
  unfold init_cursor, get_header_size. rewrite Hheader. cbn [obind].
  destruct (size <? dimension_size D) eqn:Hshort.
  { apply Z.ltb_lt in Hshort.
    replace (dimension_size D + Se + 0 <=? size) with false
      by (symmetry; apply Z.leb_gt; lia).
    reflexivity. }
  apply Z.ltb_ge in Hshort.
  unfold visit, top_range.
  change (size_bytes_checked_visitor.make size) with (funded size 0).
  pose proof (on_group_spec native size_checks_enabled E m
                (range_begin this) buffer_end Hbase Hextent entry D this
                size 0 Se
                (visit_level_spec native size_checks_enabled E m
                   (range_begin this) buffer_end Hbase Hextent entry)
                (level_encoded_size_lower native E m buffer_end entry)
                Hwf HD Htop (Z.le_refl _) Hin Hsize Hentries)
    as Hgroup.
  destruct (Z.le_gt_cases (dimension_size D + Se) size) as [Hle | Hgt].
  - apply charged_covered in Hgroup; [| exact Hle].
    unfold addressof in *. rewrite Hgroup. cbn.
    replace (dimension_size D + Se + 0 <=? size) with true
      by (symmetry; apply Z.leb_le; lia).
    f_equal. f_equal. lia.
  - apply charged_short in Hgroup; [| exact Hgt].
    destruct Hgroup as (s & Hs & _ & Hinvalid).
    unfold addressof in *. rewrite Hs. cbn.
    unfold size_bytes_checked_visitor.is_valid. rewrite Hinvalid.
    replace (dimension_size D + Se + 0 <=? size) with false
      by (symmetry; apply Z.leb_gt; lia).
    reflexivity.
Qed.

End SizeBytesChecked.



(* ===================================================================== *)
(** * Further properties of the primitive codec *)
(* ===================================================================== *)

(** Byte [k] of a value, read off its bits. *)
Lemma byte_by_bits (x y s t : Z) :
  0 <= s -> 0 <= t ->
  (forall j, 0 <= j < 8 -> Z.testbit x (j + s) = Z.testbit y (j + t)) ->
  (x / 2 ^ s) mod 256 = (y / 2 ^ t) mod 256.
Proof.
  intros Hs Ht Hbits. change 256 with (2 ^ 8).
  apply Z.bits_inj'. intros i Hi.
  destruct (Z.lt_ge_cases i 8) as [Hlt | Hge].
  - rewrite !Z.mod_pow2_bits_low, !Z.div_pow2_bits by lia.
    apply Hbits. lia.
  - rewrite !Z.mod_pow2_bits_high by lia. reflexivity.
Qed.

Lemma le_bytes_2 (u : Z) :
  le_bytes 2 u = [(u / 2 ^ 0) mod 256; (u / 2 ^ 8) mod 256].
Proof. cbn [le_bytes]. rewrite Z.pow_0_r, Z.div_1_r. reflexivity. Qed.

Lemma le_bytes_4 (u : Z) :
  le_bytes 4 u = [(u / 2 ^ 0) mod 256; (u / 2 ^ 8) mod 256;
                  (u / 2 ^ 16) mod 256; (u / 2 ^ 24) mod 256].
Proof.
  cbn [le_bytes]. rewrite !Z.div_div by lia.
  rewrite Z.pow_0_r, Z.div_1_r. reflexivity.
Qed.

Lemma le_bytes_8 (u : Z) :
  le_bytes 8 u = [(u / 2 ^ 0) mod 256; (u / 2 ^ 8) mod 256;
                  (u / 2 ^ 16) mod 256; (u / 2 ^ 24) mod 256;
                  (u / 2 ^ 32) mod 256; (u / 2 ^ 40) mod 256;
                  (u / 2 ^ 48) mod 256; (u / 2 ^ 56) mod 256].
Proof.
  cbn [le_bytes]. rewrite !Z.div_div by lia.
  rewrite Z.pow_0_r, Z.div_1_r. reflexivity.
Qed.

Ltac swapped_byte lemma :=
  apply byte_by_bits; [lia | lia |];
  let j := fresh "j" in let Hj := fresh "Hj" in
  intros j Hj; rewrite lemma by lia; decide_comparisons; f_equal; lia.

Lemma le_bytes_byteswap16 (u : Z) :
  le_bytes 2 (byteswap16 u) = rev (le_bytes 2 u).
Proof.
  rewrite !le_bytes_2. cbn [rev app].
  repeat (apply (f_equal2 (@cons Z)); [swapped_byte byteswap16_bits |]).
  reflexivity.
Qed.

Lemma le_bytes_byteswap32 (u : Z) :
  le_bytes 4 (byteswap32 u) = rev (le_bytes 4 u).
Proof.
  rewrite !le_bytes_4. cbn [rev app].
  repeat (apply (f_equal2 (@cons Z)); [swapped_byte byteswap32_bits |]).
  reflexivity.
Qed.

Lemma le_bytes_byteswap64 (u : Z) :
  le_bytes 8 (byteswap64 u) = rev (le_bytes 8 u).
Proof.
  rewrite !le_bytes_8. cbn [rev app].
  repeat (apply (f_equal2 (@cons Z)); [swapped_byte byteswap64_bits |]).
  reflexivity.
Qed.

(** In memory, the swapped value of a multi-byte type has the bytes of the
    original in reverse order. *)
Lemma le_bytes_byteswap (T : prim_type) (u : Z) :
  sizeof T <> 1 ->
  le_bytes (Z.to_nat (sizeof T)) (byteswap (sizeof T) u)
  = rev (le_bytes (Z.to_nat (sizeof T)) u).
Proof.
  intros Hne. destruct (byteswap_by_size u) as (H2 & H4 & H8 & _).
  destruct T; try (exfalso; apply Hne; reflexivity).
  all: unfold sizeof; rewrite ?H2, ?H4, ?H8.
  - exact (le_bytes_byteswap16 u).
  - exact (le_bytes_byteswap16 u).
  - exact (le_bytes_byteswap32 u).
  - exact (le_bytes_byteswap32 u).
  - exact (le_bytes_byteswap64 u).
  - exact (le_bytes_byteswap64 u).
Qed.

Lemma object_repr_one_byte (E native : endian) (u : Z) :
  object_repr native 1 u = object_repr E 1 u.
Proof. destruct E, native; reflexivity. Qed.

(** The bytes [set_primitive] stores are those of the value in the wire
    order, whatever the host's order is. *)
Lemma set_primitive_wire (native E : endian) (T : prim_type) (m : memory)
    (ptr v : Z) :
  set_primitive native T E m ptr v
  = store_bytes m ptr
      (object_repr E (Z.to_nat (sizeof T)) (to_unsigned (bits T) v)).
Proof.
  unfold set_primitive, memcpy_store.
  destruct (Z.eqb_spec (sizeof T) 1) as [Hone | Hmulti].
  - rewrite andb_false_r. rewrite Hone.
    change (Z.to_nat 1) with 1%nat.
    rewrite (object_repr_one_byte E native). reflexivity.
  - rewrite andb_true_r.
    destruct E, native; cbn [endian_eqb negb]; try reflexivity.
    + rewrite to_unsigned_cast.
      rewrite (to_unsigned_small _ (byteswap _ _))
        by (apply byteswap_range; exact Hmulti).
      unfold object_repr. rewrite le_bytes_byteswap by exact Hmulti.
      rewrite rev_involutive. reflexivity.
    + rewrite to_unsigned_cast.
      rewrite (to_unsigned_small _ (byteswap _ _))
        by (apply byteswap_range; exact Hmulti).
      unfold object_repr. rewrite le_bytes_byteswap by exact Hmulti.
      reflexivity.
Qed.

Lemma set_primitive_bitcast_wire (native E : endian) (T : prim_type)
    (m : memory) (ptr v : Z) :
  set_primitive_bitcast native T E m ptr v
  = store_bytes m ptr
      (object_repr E (Z.to_nat (sizeof T)) (to_unsigned (bits T) v)).
Proof.
  unfold set_primitive_bitcast.
  destruct (Z.eqb_spec (sizeof T) 1) as [Hone | Hmulti].
  - rewrite orb_true_r. rewrite Hone. change (Z.to_nat 1) with 1%nat.
    rewrite (object_repr_one_byte E native). reflexivity.
  - rewrite orb_false_r.
    destruct E, native; cbn [endian_eqb]; unfold object_repr;
      rewrite ?rev_involutive; reflexivity.
Qed.

(** X1. The bytes that [set_primitive] writes are fixed by the wire byte
    order alone: on a little-endian and on a big-endian host alike, and on
    the [memcpy]/[byteswap] branch as on the [std::bit_cast] branch, the
    value's least significant byte comes first for [endian::little] and
    last for [endian::big]. *)
Theorem wire_bytes_host_independent (native E : endian) (T : prim_type)
    (m : memory) (ptr v : Z) :
  let wire := match E with
              | little => le_bytes (Z.to_nat (sizeof T)) (to_unsigned (bits T) v)
              | big => rev (le_bytes (Z.to_nat (sizeof T))
                              (to_unsigned (bits T) v))
              end in
  set_primitive native T E m ptr v = store_bytes m ptr wire
  /\ set_primitive_bitcast native T E m ptr v = store_bytes m ptr wire.
Proof.
  cbv zeta. rewrite set_primitive_wire, set_primitive_bitcast_wire.
  unfold object_repr. destruct E; split; reflexivity.
Qed.

(** X2. A value written on a host of one byte order is read back unchanged
    on a host of the other (or the same) byte order, for every integer type
    and wire order. *)
Theorem cross_host_round_trip (writer reader E : endian) (T : prim_type)
    (m : memory) (ptr v : Z) :
  in_type T v ->
  get_primitive reader T E (set_primitive writer T E m ptr v) ptr = v.
Proof.
  intros Hv.
  rewrite (set_primitive_wire writer), <- (set_primitive_wire reader).
  apply get_set_primitive. exact Hv.
Qed.

Lemma cross_host_round_trip_witness :
  get_primitive big int32_t little
    (set_primitive little int32_t little (fun _ => 0) 100 (-2)) 100 = -2.
Proof.
  apply (cross_host_round_trip little big little int32_t (fun _ => 0) 100 (-2)).
  unfold in_type. cbn. lia.
Defined.

(** X3. [set_primitive] changes no byte outside the [sizeof(T)] bytes at
    [ptr], and [get_primitive] depends on no byte outside them: a write to
    one field leaves the value read from any field that does not overlap it
    as it was. *)
Theorem primitive_access_is_local (native E : endian) (T U : prim_type)
    (m : memory) (ptr other v : Z) :
  other + sizeof U <= ptr \/ ptr + sizeof T <= other ->
  get_primitive native U E (set_primitive native T E m ptr v) other
  = get_primitive native U E m other
  /\ (forall a, a < ptr \/ ptr + sizeof T <= a ->
                set_primitive native T E m ptr v a = m a).
Proof.
  intros Hdisjoint. split.
  - apply get_primitive_ext. intros a Ha.
    apply set_primitive_frame. lia.
  - intros a Ha. apply set_primitive_frame. exact Ha.
Qed.

Lemma primitive_access_is_local_witness :
  get_primitive little uint16_t big
    (set_primitive little uint32_t big (fun _ => 7) 100 1) 104
  = get_primitive little uint16_t big (fun _ => 7) 104
  /\ (forall a, a < 100 \/ 100 + sizeof uint32_t <= a ->
                set_primitive little uint32_t big (fun _ => 7) 100 1 a = 7).
Proof.
  apply (primitive_access_is_local little big uint32_t uint16_t
           (fun _ => 7) 100 104 1).
  right. cbn. lia.
Defined.
(* ===================================================================== *)
(** * Further properties of optional wrappers and bitsets *)
(* ===================================================================== *)

(** Decide every comparison of two integers in the goal, then the
    arithmetic that is left. *)
Ltac decide_order :=
  repeat match goal with
         | |- context [?x =? ?y] => destruct (Z.eqb_spec x y)
         | |- context [?x <? ?y] => destruct (Z.ltb_spec x y)
         | |- context [?x <=? ?y] => destruct (Z.leb_spec x y)
         | |- context [?x ?= ?y] => destruct (Z.compare_spec x y)
         end;
  cbn; try reflexivity; try discriminate; try lia; try tauto;
  try (intuition (try discriminate; try lia)).

(** X4. For the optional wrappers of an integer value type, the comparison
    operators describe one strict total order in which the null value comes
    first: a wrapper holding [null_value()] is less than every wrapper
    holding another value and equal exactly to the wrappers holding
    [null_value()], two wrappers holding other values compare as those
    values do, [<] is irreflexive and transitive, exactly one of [a < b],
    [a == b], [b < a] holds, and [>], [<=], [>=], [!=] and [<=>] are the
    operators derived from [<] and [==]. *)
Theorem optional_comparisons_total_order (Derived : optional_traits Z)
    (a b c : optional_base.t Z) :
  let null := null_value Derived in
  let lt := optional_base.lt integer_operators Derived in
  let eq := optional_base.eq integer_operators in
  (optional_base.val a = null -> optional_base.val b <> null ->
   lt a b = true /\ lt b a = false /\ eq a b = false)
  /\ (optional_base.val a = null -> optional_base.val b = null ->
      lt a b = false /\ eq a b = true)
  /\ (optional_base.val a <> null -> optional_base.val b <> null ->
      lt a b = (optional_base.val a <? optional_base.val b)
      /\ eq a b = (optional_base.val a =? optional_base.val b))
  /\ lt a a = false
  /\ (lt a b = true -> lt b c = true -> lt a c = true)
  /\ (lt a b = true /\ eq a b = false /\ lt b a = false
      \/ lt a b = false /\ eq a b = true /\ lt b a = false
      \/ lt a b = false /\ eq a b = false /\ lt b a = true)
  /\ optional_base.gt integer_operators Derived a b = lt b a
  /\ optional_base.le integer_operators Derived a b = negb (lt b a)
  /\ optional_base.ge integer_operators Derived a b = negb (lt a b)
  /\ optional_base.ne integer_operators a b = negb (eq a b)
  /\ optional_base.three_way integer_operators Derived Z.compare a b
     = (if lt a b then Lt else if eq a b then Eq else Gt).
Proof.
  cbv zeta.
  unfold optional_base.lt, optional_base.gt, optional_base.le,
    optional_base.ge, optional_base.ne, optional_base.eq,
    optional_base.three_way, optional_base.has_value.
  cbn [equal less less_equal integer_operators].
  repeat match goal with
         | |- _ /\ _ => split
         end.
  all: try (intros Ha Hb; revert Ha Hb).
  all: decide_order.
Qed.

(** ** Bitsets *)

(** X5. For a bitset of at most 32 bits and every choice index of its
    type, and for a 64-bit bitset and the indices below 31: setting bit [n]
    to [b] and then reading bit [n] returns [b], every other bit keeps its
    value, and the result stays a value of the underlying type. *)
Theorem bitset_set_then_get (T : prim_type) (n x : Z) (b : bool) :
  is_signed T = false ->
  0 <= n < bits T ->
  bits T <= 32 \/ n < 31 ->
  0 <= x < 2 ^ bits T ->
  exists x',
    bitset_base.set_bit T x n b = Some x'
    /\ bitset_base.get_bit T x' n = Some b
    /\ (forall i, 0 <= i -> i <> n -> Z.testbit x' i = Z.testbit x i)
    /\ 0 <= x' < 2 ^ bits T.
Proof.
  intros Hu Hn Hor Hx.
  destruct (set_bit_exact T n (conj Hu (conj Hn Hor)) x b Hx)
    as (x' & Hset & Hrange & Hbits & Hget).
  exists x'. repeat split; try assumption; try apply Hrange.
  intros i Hi Hne. rewrite Hbits by exact Hi.
  replace (n =? i) with false by (symmetry; apply Z.eqb_neq; congruence).
  reflexivity.
Qed.

Lemma bitset_set_then_get_witness :
  exists x',
    bitset_base.set_bit uint8_t 5 7 true = Some x'
    /\ bitset_base.get_bit uint8_t x' 7 = Some true
    /\ (forall i, 0 <= i -> i <> 7 -> Z.testbit x' i = Z.testbit 5 i)
    /\ 0 <= x' < 2 ^ bits uint8_t.
Proof.
  apply (bitset_set_then_get uint8_t 7 5 true).
  - reflexivity.
  - cbn. lia.
  - left. cbn. lia.
  - cbn. lia.
Defined.

(** Two values of the type with the same bits are equal. *)
Lemma bits_determine (x y : Z) :
  (forall i, 0 <= i -> Z.testbit x i = Z.testbit y i) -> x = y.
Proof. intros H. apply Z.bits_inj'. exact H. Qed.

(** X6. On the indices where the accessors are exact, choices behave as
    independent flags: setting two different bits gives the same bitset in
    either order, and setting the same bit twice keeps the last value. *)
Theorem bitset_sets_compose (T : prim_type) (n1 n2 x : Z) (b1 b2 : bool) :
  bitset_base.exact_index T n1 ->
  bitset_base.exact_index T n2 ->
  0 <= x < 2 ^ bits T ->
  (n1 <> n2 ->
   exists y,
     (x1 <- bitset_base.set_bit T x n1 b1 ;; bitset_base.set_bit T x1 n2 b2)
     = Some y
     /\ (x2 <- bitset_base.set_bit T x n2 b2 ;; bitset_base.set_bit T x2 n1 b1)
        = Some y)
  /\ (x1 <- bitset_base.set_bit T x n1 b1 ;; bitset_base.set_bit T x1 n1 b2)
     = bitset_base.set_bit T x n1 b2.
Proof.
  intros H1 H2 Hx.
  destruct (set_bit_exact T n1 H1 x b1 Hx) as (x1 & Hs1 & Hr1 & Hb1 & _).
  destruct (set_bit_exact T n2 H2 x b2 Hx) as (x2 & Hs2 & Hr2 & Hb2 & _).
  destruct (set_bit_exact T n2 H2 x1 b2 Hr1) as (y & Hs12 & _ & Hb12 & _).
  destruct (set_bit_exact T n1 H1 x2 b1 Hr2) as (y' & Hs21 & _ & Hb21 & _).
  destruct (set_bit_exact T n1 H1 x1 b2 Hr1) as (z & Hs11 & _ & Hb11 & _).
  destruct (set_bit_exact T n1 H1 x b2 Hx) as (z' & Hs1' & _ & Hb1' & _).
  rewrite Hs1, Hs2. cbn [obind]. split.
  - intros Hne. exists y. split; [exact Hs12 |].
    rewrite Hs21. f_equal. apply bits_determine. intros i Hi.
    rewrite Hb21, Hb12, Hb1, Hb2 by exact Hi.
    destruct (Z.eqb_spec n1 i), (Z.eqb_spec n2 i); try reflexivity.
    congruence.
  - rewrite Hs11, Hs1'. f_equal. apply bits_determine. intros i Hi.
    rewrite Hb11, Hb1', Hb1 by exact Hi.
    destruct (n1 =? i); reflexivity.
Qed.

Lemma bitset_sets_compose_witness :
  (3 <> 9 ->
   exists y,
     (x1 <- bitset_base.set_bit uint16_t 0 3 true ;;
      bitset_base.set_bit uint16_t x1 9 false) = Some y
     /\ (x2 <- bitset_base.set_bit uint16_t 0 9 false ;;
         bitset_base.set_bit uint16_t x2 3 true) = Some y)
  /\ (x1 <- bitset_base.set_bit uint16_t 0 3 true ;;
      bitset_base.set_bit uint16_t x1 3 false)
     = bitset_base.set_bit uint16_t 0 3 false.
Proof.
  apply (bitset_sets_compose uint16_t 3 9 0 true false).
  - unfold bitset_base.exact_index. cbn. repeat split; lia.
  - unfold bitset_base.exact_index. cbn. repeat split; lia.
  - cbn. lia.
Defined.
(* ===================================================================== *)
(** * Further properties of dynamic arrays *)
(* ===================================================================== *)

(** ** The standard algorithms on memory *)

(** [std::copy] to a destination at or below the source reads every source
    byte before it is overwritten. *)
Lemma copy_loop_content (n : nat) :
  forall (m : memory) (first d_first i : Z),
    d_first <= first -> 0 <= i < Z.of_nat n ->
    copy_loop n m first d_first (d_first + i) = m (first + i).
Proof.
  induction n as [| k IH]; intros m first d_first i Hle Hi; [lia |].
  cbn [copy_loop].
  destruct (Z.eq_dec i 0) as [-> | Hpos].
  - rewrite copy_loop_outside by lia.
    rewrite !Z.add_0_r. apply store_byte_same.
  - replace (d_first + i) with (d_first + 1 + (i - 1)) by lia.
    rewrite IH by lia.
    rewrite store_byte_other by lia. f_equal. lia.
Qed.

(** [std::copy_backward] to a destination at or above the source. *)
Lemma copy_backward_loop_content (n : nat) :
  forall (m : memory) (last d_last i : Z),
    last <= d_last -> 0 <= i < Z.of_nat n ->
    copy_backward_loop n m last d_last (d_last - 1 - i) = m (last - 1 - i).
Proof.
  induction n as [| k IH]; intros m last d_last i Hle Hi; [lia |].
  cbn [copy_backward_loop].
  destruct (Z.eq_dec i 0) as [-> | Hpos].
  - rewrite copy_backward_loop_outside by lia.
    rewrite !Z.sub_0_r. apply store_byte_same.
  - replace (d_last - 1 - i) with (d_last - 1 - 1 - (i - 1)) by lia.
    rewrite IH by lia.
    rewrite store_byte_other by lia. f_equal. lia.
Qed.

Lemma fill_loop_content (n : nat) :
  forall (m : memory) (first value i : Z),
    0 <= i < Z.of_nat n ->
    fill_loop n m first value (first + i) = value.
Proof.
  induction n as [| k IH]; intros m first value i Hi; [lia |].
  cbn [fill_loop].
  destruct (Z.eq_dec i 0) as [-> | Hpos].
  - rewrite fill_loop_outside by lia.
    rewrite Z.add_0_r. apply store_byte_same.
  - replace (first + i) with (first + 1 + (i - 1)) by lia.
    apply IH. lia.
Qed.

Lemma store_bytes_content (xs : list Z) :
  forall (m : memory) (p : Z) (i : nat),
    (i < length xs)%nat ->
    store_bytes m p xs (p + Z.of_nat i) = nth i xs 0.
Proof.
  induction xs as [| x rest IH]; intros m p i Hi; cbn in Hi; [lia |].
  cbn [store_bytes]. destruct i as [| j].
  - rewrite store_bytes_below by lia. cbn.
    rewrite Z.add_0_r. apply store_byte_same.
  - replace (p + Z.of_nat (S j)) with (p + 1 + Z.of_nat j) by lia.
    rewrite IH by lia. reflexivity.
Qed.

(** ** The members of [dynamic_array_ref] on an array that lies in its
    buffer *)

Section DynamicArrayOps.

Variable native : endian.
Variable size_checks_enabled : bool.
Variable size_type : prim_type.
Variable E : endian.
Variable this : byte_range.

(** [Length] is unsigned (the class [static_assert]s it); the facts of this
    section are for length types of at most 32 bits, for which
    [sizeof(size_type) + count] cannot wrap around in a 64-bit
    [std::size_t]. *)
Hypothesis Hunsigned : is_signed size_type = false.
Hypothesis Hnarrow : bits size_type <= 32.

Local Abbreviation size :=
  (dynamic_array_ref.size native size_checks_enabled size_type E this).
Local Abbreviation span_check :=
  (dynamic_array_ref.span_check size_checks_enabled size_type this).
Local Abbreviation data_unchecked :=
  (dynamic_array_ref.data_unchecked size_type this).
Local Abbreviation as_size_type := (dynamic_array_ref.as_size_type size_type).
Local Abbreviation resized m count :=
  (set_primitive native size_type E m (addressof this) count).

Lemma count_below_2_32 (count : Z) :
  count < 2 ^ bits size_type -> count < 2 ^ 32.
Proof. pose proof (pow_bits_le size_type Hnarrow). lia. Qed.

(** A smaller array fits where a larger one does. *)
Lemma span_check_smaller (count count' : Z) :
  0 <= count' <= count -> count < 2 ^ bits size_type ->
  span_check count = Some tt -> span_check count' = Some tt.
Proof.
  intros Hle Hlt. apply span_check_mono; try assumption.
  apply count_below_2_32, Hlt.
Qed.

Lemma as_size_type_small (v : Z) :
  0 <= v < 2 ^ bits size_type -> as_size_type v = v.
Proof. apply to_unsigned_small. Qed.

(** The length prefix after it is rewritten, and the bytes around it. *)
Lemma resized_size (m : memory) (count : Z) :
  0 <= count < 2 ^ bits size_type ->
  span_check count = Some tt ->
  size (resized m count) = Some count.
Proof.
  intros Hcount Hspan. apply size_after_set; try assumption.
  apply (span_check_smaller count); try assumption; lia.
Qed.

Lemma resized_elements (m : memory) (count a : Z) :
  data_unchecked <= a -> resized m count a = m a.
Proof.
  intros Ha. apply set_primitive_frame.
  unfold dynamic_array_ref.data_unchecked in Ha. lia.
Qed.

(** Writes to the elements leave the length as it is. *)
Lemma size_of_elements_written (m m' : memory) :
  (forall a, a < data_unchecked -> m' a = m a) -> size m' = size m.
Proof.
  intros Hsame. apply size_ext. intros a Ha. apply Hsame.
  apply prefix_below_data, Ha.
Qed.

(** X7. For an unsigned length type of at most 32 bits (and a 64-bit
    [std::size_t]): [push_back(value)] on an array of [k] elements, when
    [k + 1] is a value of the length type and the buffer has room for
    [k + 1] elements: the size becomes [k + 1], the new last element holds
    [value] (and [back()] refers to it), and the [k] elements before it
    keep their bytes. *)
Theorem push_back_appends (value k : Z) (m : memory) :
  size m = Some k -> k + 1 < 2 ^ bits size_type ->
  span_check (k + 1) = Some tt ->
  exists m',
    dynamic_array_ref.push_back native size_checks_enabled size_type E this
      value m = Ok tt m'
    /\ size m' = Some (k + 1)
    /\ m' (data_unchecked + k) = value
    /\ (forall i, 0 <= i < k -> m' (data_unchecked + i) = m (data_unchecked + i))
    /\ dynamic_array_ref.back native size_checks_enabled size_type E this m'
       = Some (data_unchecked + k).
Proof.
  intros Hsize Hroom Hspan.
  pose proof (size_range native size_checks_enabled size_type E this
                Hunsigned m k Hsize) as Hk.
  assert (Hsize1 : size (resized m (k + 1)) = Some (k + 1))
    by (apply resized_size; [lia | exact Hspan]).
  set (m' := store_byte (resized m (k + 1)) (data_unchecked + k) value).
  assert (Hsize' : size m' = Some (k + 1)).
  { rewrite <- Hsize1. apply size_of_elements_written.
    intros a Ha. apply store_byte_other. lia. }
  exists m'. split; [| split; [exact Hsize' | split; [| split]]].
  - unfold dynamic_array_ref.push_back.
    rewrite bind_lift, Hsize. rewrite as_size_type_small by lia.
    rewrite (bind_ok _ _ _ _ _
               (resize_default_init_spec native size_checks_enabled size_type
                  E this (k + 1) m Hspan)).
    rewrite bind_lift.
    rewrite (index_spec native size_checks_enabled size_type E this _
               (k + 1) k Hsize1 Hspan) by lia.
    reflexivity.
  - apply store_byte_same.
  - intros i Hi. unfold m'. rewrite store_byte_other by lia.
    apply resized_elements. lia.
  - unfold dynamic_array_ref.back, dynamic_array_ref.data.
    unfold dynamic_array_ref.empty. rewrite Hsize'. cbn [obind].
    replace (k + 1 =? 0) with false by (symmetry; apply Z.eqb_neq; lia).
    cbn [negb]. rewrite assert_true. cbn [obind].
    rewrite (data_checked_spec native size_checks_enabled size_type E this
               m' (k + 1) Hsize' Hspan).
    cbn [obind]. f_equal. lia.
Qed.

Lemma array_begin (m : memory) (k : Z) :
  size m = Some k -> span_check k = Some tt ->
  dynamic_array_ref.begin_ native size_checks_enabled size_type E this m
  = Some data_unchecked.
Proof. intros Hsize Hspan. apply (data_checked_spec _ _ _ _ _ m k); assumption. Qed.

Lemma array_not_empty (m : memory) (k : Z) :
  size m = Some k -> 0 < k ->
  SBEPP_ASSERT size_checks_enabled
    (e <- dynamic_array_ref.empty native size_checks_enabled size_type E this m ;;
     Some (negb e)) = Some tt.
Proof.
  intros Hsize Hk. unfold dynamic_array_ref.empty. rewrite Hsize. cbn [obind].
  replace (k =? 0) with false by (symmetry; apply Z.eqb_neq; lia).
  apply assert_true.
Qed.

(** X8. For an unsigned length type of at most 32 bits (and a 64-bit
    [std::size_t]): [pop_back()] on an array of [k > 0] elements that lies
    in its buffer sets the size to [k - 1] and changes no byte but the
    length prefix; on an empty array, with assertions compiled in, it
    reaches the assertion hook and leaves the buffer as it was. *)
Theorem pop_back_removes_last (k : Z) (m : memory) :
  size m = Some k -> span_check k = Some tt ->
  (0 < k ->
   exists m',
     dynamic_array_ref.pop_back native size_checks_enabled size_type E this m
       = Ok tt m'
     /\ size m' = Some (k - 1)
     /\ (forall a, a < addressof this \/ data_unchecked <= a -> m' a = m a))
  /\ (k = 0 -> size_checks_enabled = true ->
      dynamic_array_ref.pop_back native size_checks_enabled size_type E this m
      = AssertionFailed m).
Proof.
  intros Hsize Hspan.
  pose proof (size_range native size_checks_enabled size_type E this
                Hunsigned m k Hsize) as Hk.
  split.
  - intros Hpos.
    assert (Hspan' : span_check (k - 1) = Some tt)
      by (apply (span_check_smaller k); [lia | lia | exact Hspan]).
    exists (resized m (k - 1)). split; [| split].
    + unfold dynamic_array_ref.pop_back.
      rewrite bind_lift, (array_not_empty m k Hsize Hpos).
      rewrite bind_lift, Hsize. rewrite as_size_type_small by lia.
      apply resize_default_init_spec. exact Hspan'.
    + apply resized_size; [lia | exact Hspan'].
    + intros a Ha. apply set_primitive_frame.
      unfold dynamic_array_ref.data_unchecked in Ha. lia.
  - intros -> Hen. unfold dynamic_array_ref.pop_back.
    rewrite bind_lift. unfold dynamic_array_ref.empty. rewrite Hsize.
    cbn [obind]. unfold SBEPP_ASSERT. rewrite Hen. reflexivity.
Qed.

Lemma array_end (m : memory) (k : Z) :
  size m = Some k -> span_check k = Some tt ->
  dynamic_array_ref.end_ native size_checks_enabled size_type E this m
  = Some (data_unchecked + k).
Proof. intros Hsize Hspan. apply end_spec; assumption. Qed.

(** The position assertion of [erase] and [insert] holds inside the
    array. *)
Lemma position_assert (m : memory) (k pos q : Z) (strict : bool) :
  size m = Some k -> span_check k = Some tt ->
  data_unchecked <= pos ->
  (if strict then q < data_unchecked + k else q <= data_unchecked + k) ->
  SBEPP_ASSERT size_checks_enabled
    (b <- dynamic_array_ref.begin_ native size_checks_enabled size_type E this m ;;
     if pos >=? b
     then e <- dynamic_array_ref.end_ native size_checks_enabled size_type E
                 this m ;;
          Some (if strict then q <? e else q <=? e)
     else Some false) = Some tt.
Proof.
  intros Hsize Hspan Hpos Hq.
  rewrite (array_begin m k Hsize Hspan). cbn [obind].
  replace (pos >=? data_unchecked) with true
    by (symmetry; apply Z.geb_le; lia).
  rewrite (array_end m k Hsize Hspan). cbn [obind].
  destruct strict.
  - replace (q <? data_unchecked + k) with true
      by (symmetry; apply Z.ltb_lt; lia).
    apply assert_true.
  - replace (q <=? data_unchecked + k) with true
      by (symmetry; apply Z.leb_le; lia).
    apply assert_true.
Qed.

(** X9. For an unsigned length type of at most 32 bits (and a 64-bit
    [std::size_t]): [erase(pos)] of element [j] of an array of [k] elements
    that lies in its buffer returns [pos], sets the size to [k - 1], keeps
    the elements before [j] and moves every later element one place
    down. *)
Theorem erase_shifts_down (j k : Z) (m : memory) :
  size m = Some k -> span_check k = Some tt -> 0 <= j < k ->
  exists m',
    dynamic_array_ref.erase native size_checks_enabled size_type E this
      (data_unchecked + j) m = Ok (data_unchecked + j) m'
    /\ size m' = Some (k - 1)
    /\ (forall i, 0 <= i < j ->
          m' (data_unchecked + i) = m (data_unchecked + i))
    /\ (forall i, j <= i < k - 1 ->
          m' (data_unchecked + i) = m (data_unchecked + i + 1)).
Proof.
  intros Hsize Hspan Hj.
  pose proof (size_range native size_checks_enabled size_type E this
                Hunsigned m k Hsize) as Hk.
  assert (Hspan' : span_check (k - 1) = Some tt)
    by (apply (span_check_smaller k); [lia | lia | exact Hspan]).
  set (pos := data_unchecked + j).
  set (m1 := std_copy (pos + 1) (data_unchecked + k) pos m).
  assert (Hcount : Z.of_nat (Z.to_nat (data_unchecked + k - (pos + 1)))
                   = k - j - 1) by (unfold pos; lia).
  assert (Hbelow : forall a, a < pos -> m1 a = m a).
  { intros a Ha. unfold m1, std_copy. apply copy_loop_outside. lia. }
  assert (Hsize1 : size m1 = Some k).
  { rewrite <- Hsize. apply size_of_elements_written.
    intros a Ha. apply Hbelow. unfold pos. lia. }
  exists (resized m1 (k - 1)). split; [| split; [| split]].
  - unfold dynamic_array_ref.erase.
    rewrite bind_lift.
    rewrite (position_assert m k pos pos true Hsize Hspan)
      by (unfold pos; lia).
    rewrite bind_lift, (array_end m k Hsize Hspan).
    rewrite bind_write. fold m1.
    rewrite bind_lift, Hsize1. rewrite as_size_type_small by lia.
    rewrite (bind_ok _ _ _ _ _
               (resize_default_init_spec native size_checks_enabled size_type
                  E this (k - 1) m1 Hspan')).
    reflexivity.
  - apply resized_size; [lia | exact Hspan'].
  - intros i Hi. rewrite resized_elements by lia.
    apply Hbelow. unfold pos. lia.
  - intros i Hi. rewrite resized_elements by lia.
    unfold m1, std_copy.
    replace (data_unchecked + i) with (pos + (i - j)) by (unfold pos; lia).
    rewrite copy_loop_content by lia. f_equal. unfold pos. lia.
Qed.

(** X10. For an unsigned length type of at most 32 bits (and a 64-bit
    [std::size_t]): [insert(pos, value)] before element [j] (or at the end,
    [j = k]) of an array of [k] elements, when [k + 1] is a value of the
    length type and the buffer has room for [k + 1] elements: it returns
    [pos], the size becomes [k + 1], element [j] holds [value], the
    elements before it keep their bytes and every element from [j] on moves
    one place up. *)
Theorem insert_shifts_up (j k value : Z) (m : memory) :
  size m = Some k -> k + 1 < 2 ^ bits size_type ->
  span_check (k + 1) = Some tt -> 0 <= j <= k ->
  exists m',
    dynamic_array_ref.insert native size_checks_enabled size_type E this
      (data_unchecked + j) value m = Ok (data_unchecked + j) m'
    /\ size m' = Some (k + 1)
    /\ m' (data_unchecked + j) = value
    /\ (forall i, 0 <= i < j ->
          m' (data_unchecked + i) = m (data_unchecked + i))
    /\ (forall i, j < i <= k ->
          m' (data_unchecked + i) = m (data_unchecked + i - 1)).
Proof.
  intros Hsize Hroom Hspan' Hj.
  pose proof (size_range native size_checks_enabled size_type E this
                Hunsigned m k Hsize) as Hk.
  assert (Hspan : span_check k = Some tt)
    by (apply (span_check_smaller (k + 1)); [lia | lia | exact Hspan']).
  set (pos := data_unchecked + j).
  set (m1 := resized m (k + 1)).
  assert (Hsize1 : size m1 = Some (k + 1))
    by (apply resized_size; [lia | exact Hspan']).
  set (m2 := std_copy_backward pos (data_unchecked + k)
               (data_unchecked + (k + 1)) m1).
  assert (Hcount : Z.of_nat (Z.to_nat (data_unchecked + k - pos)) = k - j)
    by (unfold pos; lia).
  assert (Hbelow : forall a, a <= pos -> m2 a = m1 a).
  { intros a Ha. unfold m2, std_copy_backward.
    apply copy_backward_loop_outside. lia. }
  set (m' := store_byte m2 pos value).
  exists m'. split; [| split; [| split; [| split]]].
  - unfold dynamic_array_ref.insert, dynamic_array_ref.assert_insert_pos.
    rewrite bind_lift.
    rewrite (position_assert m k pos pos false Hsize Hspan)
      by (unfold pos; lia).
    rewrite bind_lift, (array_end m k Hsize Hspan).
    rewrite bind_lift, Hsize. rewrite as_size_type_small by lia.
    rewrite (bind_ok _ _ _ _ _
               (resize_default_init_spec native size_checks_enabled size_type
                  E this (k + 1) m Hspan')).
    fold m1. rewrite bind_lift, (array_end m1 (k + 1) Hsize1 Hspan').
    rewrite bind_write. fold m2. rewrite bind_write. reflexivity.
  - rewrite <- Hsize1. apply size_of_elements_written.
    intros a Ha. unfold m'. rewrite store_byte_other by (unfold pos; lia).
    apply Hbelow. unfold pos. lia.
  - apply store_byte_same.
  - intros i Hi. unfold m'. rewrite store_byte_other by (unfold pos; lia).
    rewrite Hbelow by (unfold pos; lia).
    apply resized_elements. lia.
  - intros i Hi. unfold m'. rewrite store_byte_other by (unfold pos; lia).
    unfold m2, std_copy_backward.
    replace (data_unchecked + i)
      with (data_unchecked + (k + 1) - 1 - (k - i)) by lia.
    rewrite copy_backward_loop_content by lia.
    unfold m1. rewrite resized_elements by lia. f_equal. lia.
Qed.

(** X11. For an unsigned length type of at most 32 bits (and a 64-bit
    [std::size_t]): [assign(count, value)] with [count] a value of the
    length type, on a buffer with room for [count] elements, whatever the
    array held before: the size becomes [count] and every element holds
    [value]. *)
Theorem assign_fills (count value : Z) (m : memory) :
  0 <= count < 2 ^ bits size_type ->
  span_check count = Some tt ->
  exists m',
    dynamic_array_ref.assign_n native size_checks_enabled size_type E this
      count value m = Ok tt m'
    /\ size m' = Some count
    /\ (forall i, 0 <= i < count -> m' (data_unchecked + i) = value).
Proof.
  intros Hcount Hspan.
  set (m1 := resized m count).
  assert (Hsize1 : size m1 = Some count)
    by (apply resized_size; assumption).
  set (m' := std_fill_n data_unchecked count value m1).
  exists m'. split; [| split].
  - unfold dynamic_array_ref.assign_n.
    rewrite (bind_ok _ _ _ _ _
               (resize_default_init_spec native size_checks_enabled size_type
                  E this count m Hspan)).
    fold m1. rewrite bind_lift, (array_begin m1 count Hsize1 Hspan).
    reflexivity.
  - rewrite <- Hsize1. apply size_of_elements_written.
    intros a Ha. unfold m', std_fill_n. apply fill_loop_outside. lia.
  - intros i Hi. unfold m', std_fill_n. apply fill_loop_content. lia.
Qed.

(** The loop of [assign(first, last)] while the elements fit. *)
Lemma assign_loop_spec (n : Z) (xs : list Z) :
  forall (count : Z) (m : memory),
    0 <= count -> count + Z.of_nat (length xs) = n ->
    n < 2 ^ bits size_type -> span_check n = Some tt ->
    dynamic_array_ref.assign_loop size_checks_enabled size_type this xs
      (data_unchecked + count) count m
    = Ok n (store_bytes m (data_unchecked + count) xs).
Proof.
  induction xs as [| x rest IH]; intros count m Hcount Hlen Hn Hspan.
  - cbn in *. unfold ret. f_equal. lia.
  - cbn [dynamic_array_ref.assign_loop store_bytes length] in *.
    rewrite bind_lift.
    rewrite (span_check_smaller n count) by (assumption || lia).
    rewrite bind_write.
    rewrite as_size_type_small by lia.
    replace (data_unchecked + count + 1) with (data_unchecked + (count + 1))
      by lia.
    apply IH; try assumption; lia.
Qed.

(** X12. For an unsigned length type of at most 32 bits (and a 64-bit
    [std::size_t]): [assign(first, last)] (and [assign(ilist)]) of a range
    whose elements fit the buffer and whose length is a value of the length
    type: the size becomes the number of elements and the array holds them
    in order. *)
Theorem assign_range_stores (xs : list Z) (m : memory) :
  Z.of_nat (length xs) < 2 ^ bits size_type ->
  span_check (Z.of_nat (length xs)) = Some tt ->
  exists m',
    dynamic_array_ref.assign_range native size_checks_enabled size_type E
      this xs m = Ok tt m'
    /\ size m' = Some (Z.of_nat (length xs))
    /\ (forall i, (i < length xs)%nat ->
          m' (data_unchecked + Z.of_nat i) = nth i xs 0).
Proof.
  intros Hlen Hspan.
  set (n := Z.of_nat (length xs)) in *.
  set (m1 := store_bytes m data_unchecked xs).
  exists (resized m1 n). split; [| split].
  - unfold dynamic_array_ref.assign_range.
    pose proof (assign_loop_spec n xs 0 m) as Hloop.
    rewrite Z.add_0_r in Hloop.
    rewrite (bind_ok _ _ _ _ _ (Hloop ltac:(lia) ltac:(lia) Hlen Hspan)).
    fold m1. apply resize_default_init_spec. exact Hspan.
  - apply resized_size; [lia | exact Hspan].
  - intros i Hi. rewrite resized_elements by lia.
    apply store_bytes_content. exact Hi.
Qed.

(** X13. For an unsigned length type of at most 32 bits (and a 64-bit
    [std::size_t]), with the size checks compiled in and a view whose range
    is ordered ([begin <= end]): [operator[]] only ever returns the address
    of an element of the array, and that address lies inside the buffer the
    view was made over: for an index that is not below [size()], for an
    empty array, or for an array that does not fit the buffer, the
    assertion hook is reached instead. *)
Theorem index_stays_in_bounds (pos p : Z) (m : memory) :
  size_checks_enabled = true ->
  0 <= pos ->
  range_begin this <= range_end this < range_begin this + 2 ^ size_t_bits ->
  dynamic_array_ref.index native size_checks_enabled size_type E this pos m
  = Some p ->
  exists k,
    size m = Some k /\ pos < k /\ p = data_unchecked + pos
    /\ range_begin this + sizeof size_type <= p < range_end this.
Proof.
  intros Hen Hpos Hrange Hindex.
  unfold dynamic_array_ref.index in Hindex.
  apply obind_some in Hindex as ([] & Hassert & Hindex).
  apply obind_some in Hindex as (d & Hdata & [= <-]).
  pose proof (proj1 (assert_spec _ _) Hassert Hen) as Hlt.
  apply obind_some in Hlt as (k & Hsize & [= Hlt]).
  apply Z.ltb_lt in Hlt.
  unfold dynamic_array_ref.data in Hdata.
  apply obind_some in Hdata as ([] & _ & Hdata).
  apply data_checked_inv in Hdata as [-> Hfits].
  destruct (Hfits Hen) as (k' & Hsize' & Hspan).
  assert (k' = k) by congruence. subst k'.
  pose proof (size_range native size_checks_enabled size_type E this
                Hunsigned m k Hsize) as Hk.
  pose proof (proj1 (span_check_spec size_checks_enabled size_type this
                       Hunsigned Hnarrow k
                       (conj (proj1 Hk) (count_below_2_32 k (proj2 Hk))))
                Hspan Hen) as [Hnonnull Hfit].
  unfold end_ptr, addressof in Hfit. rewrite Hen in Hfit.
  rewrite to_unsigned_small in Hfit by lia.
  exists k. repeat split; try assumption.
  - unfold dynamic_array_ref.data_unchecked, addressof. lia.
  - unfold dynamic_array_ref.data_unchecked, addressof. lia.
Qed.

(** X14. For an unsigned length type of at most 32 bits (and a 64-bit
    [std::size_t]): [erase(first, last)] of the elements [[j1, j2)] of an
    array of [k] elements that lies in its buffer, with [j2 < k]: it
    returns [first], the size drops by [j2 - j1], the elements before [j1]
    keep their bytes and the elements from [j2] on move down by [j2 - j1].
    Its assertion asks for [last < end()]: with assertions compiled in, a
    range that reaches the end of the array ([j2 = k]) reaches the
    assertion hook and nothing is erased. *)
Theorem erase_range_shifts_down (j1 j2 k : Z) (m : memory) :
  size m = Some k -> span_check k = Some tt -> 0 <= j1 <= j2 -> j2 <= k ->
  (j2 < k ->
   exists m',
     dynamic_array_ref.erase_range native size_checks_enabled size_type E this
       (data_unchecked + j1) (data_unchecked + j2) m
     = Ok (data_unchecked + j1) m'
     /\ size m' = Some (k - (j2 - j1))
     /\ (forall i, 0 <= i < j1 ->
           m' (data_unchecked + i) = m (data_unchecked + i))
     /\ (forall i, j1 <= i < k - (j2 - j1) ->
           m' (data_unchecked + i) = m (data_unchecked + i + (j2 - j1))))
  /\ (j2 = k -> size_checks_enabled = true ->
      dynamic_array_ref.erase_range native size_checks_enabled size_type E this
        (data_unchecked + j1) (data_unchecked + j2) m
      = AssertionFailed m).
Proof.
  intros Hsize Hspan Hj1 Hj2.
  pose proof (size_range native size_checks_enabled size_type E this
                Hunsigned m k Hsize) as Hk.
  set (first := data_unchecked + j1).
  set (last := data_unchecked + j2).
  split.
  - intros Hlt.
    assert (Hspan' : span_check (k - (j2 - j1)) = Some tt)
      by (apply (span_check_smaller k); [lia | lia | exact Hspan]).
    set (m1 := std_copy last (data_unchecked + k) first m).
    assert (Hcount : Z.of_nat (Z.to_nat (data_unchecked + k - last)) = k - j2)
      by (unfold last; lia).
    assert (Hbelow : forall a, a < first -> m1 a = m a).
    { intros a Ha. unfold m1, std_copy. apply copy_loop_outside. lia. }
    assert (Hsize1 : size m1 = Some k).
    { rewrite <- Hsize. apply size_of_elements_written.
      intros a Ha. apply Hbelow. unfold first. lia. }
    exists (resized m1 (k - (j2 - j1))). split; [| split; [| split]].
    + unfold dynamic_array_ref.erase_range.
      rewrite bind_lift.
      rewrite (position_assert m k first last true Hsize Hspan)
        by (unfold first, last; lia).
      rewrite bind_lift, (array_end m k Hsize Hspan).
      rewrite bind_write. fold m1.
      rewrite bind_lift, Hsize1.
      replace (last - first) with (j2 - j1) by (unfold first, last; lia).
      rewrite as_size_type_small by lia.
      rewrite (bind_ok _ _ _ _ _
                 (resize_default_init_spec native size_checks_enabled
                    size_type E this (k - (j2 - j1)) m1 Hspan')).
      reflexivity.
    + apply resized_size; [lia | exact Hspan'].
    + intros i Hi. rewrite resized_elements by lia.
      apply Hbelow. unfold first. lia.
    + intros i Hi. rewrite resized_elements by lia.
      unfold m1, std_copy.
      replace (data_unchecked + i) with (first + (i - j1))
        by (unfold first; lia).
      rewrite copy_loop_content by (unfold first, last; lia).
      f_equal. unfold last. lia.
  - intros -> Hen. unfold dynamic_array_ref.erase_range.
    rewrite bind_lift.
    rewrite (array_begin m k Hsize Hspan). cbn [obind].
    replace (first >=? data_unchecked) with true
      by (symmetry; apply Z.geb_le; unfold first; lia).
    rewrite (array_end m k Hsize Hspan). cbn [obind].
    unfold last. rewrite Z.ltb_irrefl.
    unfold SBEPP_ASSERT. rewrite Hen. reflexivity.
Qed.

(** The tail of an array after room was made for [count] more elements at
    [pos]. *)
Lemma make_room (j k count : Z) (m : memory) :
  size m = Some k -> 0 <= count -> k + count < 2 ^ bits size_type ->
  span_check (k + count) = Some tt -> 0 <= j <= k ->
  let m1 := resized m (k + count) in
  let m2 := std_copy_backward (data_unchecked + j) (data_unchecked + k)
              (data_unchecked + (k + count)) m1 in
  size m1 = Some (k + count)
  /\ dynamic_array_ref.end_ native size_checks_enabled size_type E this m1
     = Some (data_unchecked + (k + count))
  /\ (forall a, a < data_unchecked + j + count -> m2 a = m1 a)
  /\ (forall i, j + count <= i < k + count ->
        m2 (data_unchecked + i) = m (data_unchecked + i - count)).
Proof.
  intros Hsize Hcount Hroom Hspan' Hj. cbv zeta.
  pose proof (size_range native size_checks_enabled size_type E this
                Hunsigned m k Hsize) as Hk.
  assert (Hsize1 : size (resized m (k + count)) = Some (k + count))
    by (apply resized_size; [lia | exact Hspan']).
  assert (Hn : Z.of_nat (Z.to_nat (data_unchecked + k - (data_unchecked + j)))
               = k - j) by lia.
  split; [exact Hsize1 | split; [| split]].
  - apply array_end; assumption.
  - intros a Ha. unfold std_copy_backward.
    apply copy_backward_loop_outside. lia.
  - intros i Hi. unfold std_copy_backward.
    replace (data_unchecked + i)
      with (data_unchecked + (k + count) - 1 - (k + count - 1 - i)) by lia.
    rewrite copy_backward_loop_content by lia.
    rewrite resized_elements by lia. f_equal. lia.
Qed.

(** X15. For an unsigned length type of at most 32 bits (and a 64-bit
    [std::size_t]): [insert(pos, count, value)] before element [j] of an
    array of [k] elements, when [k + count] is a value of the length type
    and the buffer has room for [k + count] elements: it returns [pos], the
    size becomes [k + count], the elements [[j, j + count)] hold [value],
    the elements before them keep their bytes and the old elements from [j]
    on move up by [count]. *)
Theorem insert_n_shifts_up (j k count value : Z) (m : memory) :
  size m = Some k -> 0 <= count -> k + count < 2 ^ bits size_type ->
  span_check (k + count) = Some tt -> 0 <= j <= k ->
  exists m',
    dynamic_array_ref.insert_n native size_checks_enabled size_type E this
      (data_unchecked + j) count value m = Ok (data_unchecked + j) m'
    /\ size m' = Some (k + count)
    /\ (forall i, 0 <= i < j ->
          m' (data_unchecked + i) = m (data_unchecked + i))
    /\ (forall i, j <= i < j + count -> m' (data_unchecked + i) = value)
    /\ (forall i, j + count <= i < k + count ->
          m' (data_unchecked + i) = m (data_unchecked + i - count)).
Proof.
  intros Hsize Hcount Hroom Hspan' Hj.
  pose proof (size_range native size_checks_enabled size_type E this
                Hunsigned m k Hsize) as Hk.
  assert (Hspan : span_check k = Some tt)
    by (apply (span_check_smaller (k + count)); [lia | lia | exact Hspan']).
  destruct (make_room j k count m Hsize Hcount Hroom Hspan' Hj)
    as (Hsize1 & Hend1 & Hbelow & Hmoved).
  set (pos := data_unchecked + j) in *.
  set (m1 := resized m (k + count)) in *.
  set (m2 := std_copy_backward pos (data_unchecked + k)
               (data_unchecked + (k + count)) m1) in *.
  set (m' := std_fill_n pos count value m2).
  exists m'. split; [| split; [| split; [| split]]].
  - unfold dynamic_array_ref.insert_n, dynamic_array_ref.assert_insert_pos.
    rewrite bind_lift.
    rewrite (position_assert m k pos pos false Hsize Hspan)
      by (unfold pos; lia).
    rewrite bind_lift, (array_end m k Hsize Hspan).
    rewrite bind_lift, Hsize. rewrite as_size_type_small by lia.
    rewrite (bind_ok _ _ _ _ _
               (resize_default_init_spec native size_checks_enabled size_type
                  E this (k + count) m Hspan')).
    fold m1. rewrite bind_lift, Hend1.
    rewrite bind_write. fold m2. rewrite bind_write. reflexivity.
  - rewrite <- Hsize1. apply size_of_elements_written.
    intros a Ha. unfold m', std_fill_n.
    rewrite fill_loop_outside by (unfold pos; lia).
    apply Hbelow. unfold pos. lia.
  - intros i Hi. unfold m', std_fill_n.
    rewrite fill_loop_outside by (unfold pos; lia).
    rewrite Hbelow by (unfold pos; lia).
    apply resized_elements. lia.
  - intros i Hi. unfold m', std_fill_n.
    replace (data_unchecked + i) with (pos + (i - j)) by (unfold pos; lia).
    apply fill_loop_content. lia.
  - intros i Hi. unfold m', std_fill_n.
    rewrite fill_loop_outside by (unfold pos; lia).
    apply Hmoved. exact Hi.
Qed.

(** X16. For an unsigned length type of at most 32 bits (and a 64-bit
    [std::size_t]): [insert(pos, first, last)] of a multi-pass range of [n]
    elements (forward iterators, an initializer list) before element [j] of
    an array of [k] elements, when [k + n] is a value of the length type
    and the buffer has room for [k + n] elements: it returns [pos], the
    size becomes [k + n], the elements [[j, j + n)] are those of the range
    in order, the elements before them keep their bytes and the old
    elements from [j] on move up by [n]. *)
Theorem insert_range_shifts_up (j k : Z) (xs : list Z) (m : memory) :
  size m = Some k ->
  k + Z.of_nat (length xs) < 2 ^ bits size_type ->
  span_check (k + Z.of_nat (length xs)) = Some tt -> 0 <= j <= k ->
  exists m',
    dynamic_array_ref.insert_range native size_checks_enabled size_type E this
      (data_unchecked + j) xs forward_iterator_tag m
    = Ok (data_unchecked + j) m'
    /\ size m' = Some (k + Z.of_nat (length xs))
    /\ (forall i, 0 <= i < j ->
          m' (data_unchecked + i) = m (data_unchecked + i))
    /\ (forall i, (i < length xs)%nat ->
          m' (data_unchecked + j + Z.of_nat i) = nth i xs 0)
    /\ (forall i, j + Z.of_nat (length xs) <= i < k + Z.of_nat (length xs) ->
          m' (data_unchecked + i)
          = m (data_unchecked + i - Z.of_nat (length xs))).
Proof.
  intros Hsize Hroom Hspan' Hj.
  set (count := Z.of_nat (length xs)) in *.
  assert (Hcount : 0 <= count) by (unfold count; lia).
  pose proof (size_range native size_checks_enabled size_type E this
                Hunsigned m k Hsize) as Hk.
  assert (Hspan : span_check k = Some tt)
    by (apply (span_check_smaller (k + count)); [lia | lia | exact Hspan']).
  destruct (make_room j k count m Hsize Hcount Hroom Hspan' Hj)
    as (Hsize1 & Hend1 & Hbelow & Hmoved).
  set (pos := data_unchecked + j) in *.
  set (m1 := resized m (k + count)) in *.
  set (m2 := std_copy_backward pos (data_unchecked + k)
               (data_unchecked + (k + count)) m1) in *.
  set (m' := std_copy_from xs pos m2).
  exists m'. split; [| split; [| split; [| split]]].
  - unfold dynamic_array_ref.insert_range, dynamic_array_ref.assert_insert_pos.
    rewrite bind_lift.
    rewrite (position_assert m k pos pos false Hsize Hspan)
      by (unfold pos; lia).
    unfold dynamic_array_ref.insert_forward.
    rewrite bind_lift, (array_end m k Hsize Hspan).
    rewrite bind_lift, Hsize. fold count.
    rewrite as_size_type_small by lia.
    rewrite (bind_ok _ _ _ _ _
               (resize_default_init_spec native size_checks_enabled size_type
                  E this (k + count) m Hspan')).
    fold m1. rewrite bind_lift, Hend1.
    rewrite bind_write. fold m2. rewrite bind_write. reflexivity.
  - rewrite <- Hsize1. apply size_of_elements_written.
    intros a Ha. unfold m', std_copy_from.
    rewrite store_bytes_outside by (unfold pos; lia).
    apply Hbelow. unfold pos. lia.
  - intros i Hi. unfold m', std_copy_from.
    rewrite store_bytes_outside by (unfold pos; lia).
    rewrite Hbelow by (unfold pos; lia).
    apply resized_elements. lia.
  - intros i Hi. unfold m', std_copy_from.
    apply store_bytes_content. exact Hi.
  - intros i Hi. unfold m', std_copy_from.
    rewrite store_bytes_outside by (unfold pos, count in *; lia).
    apply Hmoved. exact Hi.
Qed.

End DynamicArrayOps.

(** The theorems above at a concrete array: a one-byte length prefix at
    address 100 in a buffer of ten bytes, holding the two elements 7
    and 8. *)

Lemma uint8_narrow : bits uint8_t <= 32.
Proof. cbn. lia. Qed.

Lemma push_back_appends_witness :
  let this := {| range_begin := 100; range_end := 110 |} in
  let m := fun a => if a =? 100 then 2 else if a =? 101 then 7 else 8 in
  exists m',
    dynamic_array_ref.push_back little true uint8_t little this 9 m = Ok tt m'
    /\ dynamic_array_ref.size little true uint8_t little this m' = Some 3
    /\ m' 103 = 9.
Proof.
  cbv zeta.
  destruct (push_back_appends little true uint8_t little
              {| range_begin := 100; range_end := 110 |} eq_refl
              uint8_narrow 9 2
              (fun a => if a =? 100 then 2 else if a =? 101 then 7 else 8))
    as (m' & Hrun & Hsize & Hlast & _).
  - vm_compute. reflexivity.
  - vm_compute. reflexivity.
  - vm_compute. reflexivity.
  - exists m'. split; [exact Hrun | split; [exact Hsize | exact Hlast]].
Defined.

Lemma pop_back_removes_last_witness :
  let this := {| range_begin := 100; range_end := 110 |} in
  let m := fun a => if a =? 100 then 2 else if a =? 101 then 7 else 8 in
  exists m',
    dynamic_array_ref.pop_back little true uint8_t little this m = Ok tt m'
    /\ dynamic_array_ref.size little true uint8_t little this m' = Some 1.
Proof.
  cbv zeta.
  destruct (pop_back_removes_last little true uint8_t little
              {| range_begin := 100; range_end := 110 |} eq_refl
              uint8_narrow 2
              (fun a => if a =? 100 then 2 else if a =? 101 then 7 else 8))
    as [Hpop _].
  - vm_compute. reflexivity.
  - vm_compute. reflexivity.
  - destruct (Hpop ltac:(lia)) as (m' & Hrun & Hsize & _).
    exists m'. split; [exact Hrun | exact Hsize].
Defined.

Lemma erase_shifts_down_witness :
  let this := {| range_begin := 100; range_end := 110 |} in
  let m := fun a => if a =? 100 then 2 else if a =? 101 then 7 else 8 in
  exists m',
    dynamic_array_ref.erase little true uint8_t little this 101 m = Ok 101 m'
    /\ dynamic_array_ref.size little true uint8_t little this m' = Some 1
    /\ m' 101 = 8.
Proof.
  cbv zeta.
  destruct (erase_shifts_down little true uint8_t little
              {| range_begin := 100; range_end := 110 |} eq_refl
              uint8_narrow 0 2
              (fun a => if a =? 100 then 2 else if a =? 101 then 7 else 8))
    as (m' & Hrun & Hsize & _ & Hmoved).
  - vm_compute. reflexivity.
  - vm_compute. reflexivity.
  - lia.
  - exists m'. split; [exact Hrun | split; [exact Hsize |]].
    exact (Hmoved 0 ltac:(lia)).
Defined.

Lemma insert_shifts_up_witness :
  let this := {| range_begin := 100; range_end := 110 |} in
  let m := fun a => if a =? 100 then 2 else if a =? 101 then 7 else 8 in
  exists m',
    dynamic_array_ref.insert little true uint8_t little this 102 5 m
    = Ok 102 m'
    /\ dynamic_array_ref.size little true uint8_t little this m' = Some 3
    /\ m' 101 = 7 /\ m' 102 = 5 /\ m' 103 = 8.
Proof.
  cbv zeta.
  destruct (insert_shifts_up little true uint8_t little
              {| range_begin := 100; range_end := 110 |} eq_refl
              uint8_narrow 1 2 5
              (fun a => if a =? 100 then 2 else if a =? 101 then 7 else 8))
    as (m' & Hrun & Hsize & Hnew & Hkept & Hmoved).
  - vm_compute. reflexivity.
  - vm_compute. reflexivity.
  - vm_compute. reflexivity.
  - lia.
  - exists m'. split; [exact Hrun | split; [exact Hsize |]].
    split; [exact (Hkept 0 ltac:(lia)) | split; [exact Hnew |]].
    exact (Hmoved 2 ltac:(lia)).
Defined.

Lemma assign_fills_witness :
  let this := {| range_begin := 100; range_end := 110 |} in
  let m := fun a => if a =? 100 then 2 else if a =? 101 then 7 else 8 in
  exists m',
    dynamic_array_ref.assign_n little true uint8_t little this 4 1 m = Ok tt m'
    /\ dynamic_array_ref.size little true uint8_t little this m' = Some 4
    /\ m' 104 = 1.
Proof.
  cbv zeta.
  destruct (assign_fills little true uint8_t little
              {| range_begin := 100; range_end := 110 |} eq_refl
              uint8_narrow 4 1
              (fun a => if a =? 100 then 2 else if a =? 101 then 7 else 8))
    as (m' & Hrun & Hsize & Hall).
  - cbn. lia.
  - vm_compute. reflexivity.
  - exists m'. split; [exact Hrun | split; [exact Hsize |]].
    exact (Hall 3 ltac:(lia)).
Defined.

Lemma assign_range_stores_witness :
  let this := {| range_begin := 100; range_end := 110 |} in
  let m := fun a => if a =? 100 then 2 else if a =? 101 then 7 else 8 in
  exists m',
    dynamic_array_ref.assign_range little true uint8_t little this [4; 5; 6] m
    = Ok tt m'
    /\ dynamic_array_ref.size little true uint8_t little this m' = Some 3
    /\ m' 103 = 6.
Proof.
  cbv zeta.
  destruct (assign_range_stores little true uint8_t little
              {| range_begin := 100; range_end := 110 |} eq_refl
              uint8_narrow [4; 5; 6]
              (fun a => if a =? 100 then 2 else if a =? 101 then 7 else 8))
    as (m' & Hrun & Hsize & Hall).
  - cbn. lia.
  - vm_compute. reflexivity.
  - exists m'. split; [exact Hrun | split; [exact Hsize |]].
    exact (Hall 2%nat ltac:(cbn; lia)).
Defined.

Lemma index_stays_in_bounds_witness :
  let this := {| range_begin := 100; range_end := 110 |} in
  let m := fun a => if a =? 100 then 2 else if a =? 101 then 7 else 8 in
  exists k,
    dynamic_array_ref.size little true uint8_t little this m = Some k
    /\ 1 < k /\ 100 + sizeof uint8_t <= 102 < 110.
Proof.
  cbv zeta.
  destruct (index_stays_in_bounds little true uint8_t little
              {| range_begin := 100; range_end := 110 |} eq_refl
              uint8_narrow 1 102
              (fun a => if a =? 100 then 2 else if a =? 101 then 7 else 8))
    as (k & Hsize & Hlt & _ & Hin).
  - reflexivity.
  - lia.
  - cbn. lia.
  - vm_compute. reflexivity.
  - exists k. split; [exact Hsize | split; [exact Hlt | exact Hin]].
Defined.

Lemma erase_range_shifts_down_witness :
  let this := {| range_begin := 100; range_end := 110 |} in
  let m := fun a => if a =? 100 then 3 else a - 100 in
  exists m',
    dynamic_array_ref.erase_range little true uint8_t little this 101 102 m
    = Ok 101 m'
    /\ dynamic_array_ref.size little true uint8_t little this m' = Some 2
    /\ m' 101 = 2.
Proof.
  cbv zeta.
  destruct (erase_range_shifts_down little true uint8_t little
              {| range_begin := 100; range_end := 110 |} eq_refl
              uint8_narrow 0 1 3
              (fun a => if a =? 100 then 3 else a - 100))
    as [Herase _].
  - vm_compute. reflexivity.
  - vm_compute. reflexivity.
  - lia.
  - lia.
  - destruct (Herase ltac:(lia)) as (m' & Hrun & Hsize & _ & Hmoved).
    exists m'. split; [exact Hrun | split; [exact Hsize |]].
    exact (Hmoved 0 ltac:(lia)).
Defined.

Lemma insert_n_shifts_up_witness :
  let this := {| range_begin := 100; range_end := 110 |} in
  let m := fun a => if a =? 100 then 2 else if a =? 101 then 7 else 8 in
  exists m',
    dynamic_array_ref.insert_n little true uint8_t little this 102 2 5 m
    = Ok 102 m'
    /\ dynamic_array_ref.size little true uint8_t little this m' = Some 4
    /\ m' 103 = 5 /\ m' 104 = 8.
Proof.
  cbv zeta.
  destruct (insert_n_shifts_up little true uint8_t little
              {| range_begin := 100; range_end := 110 |} eq_refl
              uint8_narrow 1 2 2 5
              (fun a => if a =? 100 then 2 else if a =? 101 then 7 else 8))
    as (m' & Hrun & Hsize & _ & Hnew & Hmoved).
  - vm_compute. reflexivity.
  - lia.
  - vm_compute. reflexivity.
  - vm_compute. reflexivity.
  - lia.
  - exists m'. split; [exact Hrun | split; [exact Hsize |]].
    split; [exact (Hnew 2 ltac:(lia)) | exact (Hmoved 3 ltac:(lia))].
Defined.

Lemma insert_range_shifts_up_witness :
  let this := {| range_begin := 100; range_end := 110 |} in
  let m := fun a => if a =? 100 then 2 else if a =? 101 then 7 else 8 in
  exists m',
    dynamic_array_ref.insert_range little true uint8_t little this 102 [4; 5]
      forward_iterator_tag m = Ok 102 m'
    /\ dynamic_array_ref.size little true uint8_t little this m' = Some 4
    /\ m' 103 = 5 /\ m' 104 = 8.
Proof.
  cbv zeta.
  destruct (insert_range_shifts_up little true uint8_t little
              {| range_begin := 100; range_end := 110 |} eq_refl
              uint8_narrow 1 2 [4; 5]
              (fun a => if a =? 100 then 2 else if a =? 101 then 7 else 8))
    as (m' & Hrun & Hsize & _ & Hnew & Hmoved).
  - vm_compute. reflexivity.
  - vm_compute. reflexivity.
  - vm_compute. reflexivity.
  - lia.
  - exists m'. split; [exact Hrun | split; [exact Hsize |]].
    split; [exact (Hnew 1%nat ltac:(cbn; lia)) | exact (Hmoved 3 ltac:(cbn; lia))].
Defined.
(* ===================================================================== *)
(** * Static arrays, flat groups and their iterator *)
(* ===================================================================== *)

(** X17. With the size checks compiled in and a view over a buffer
    [[begin, end)], [operator[]] of a static array of [N] elements returns
    an address exactly for the indices below [N] of an array that lies
    inside the buffer, and the address is the one of that element; otherwise
    the assertion hook is reached. *)
Theorem static_array_index_in_bounds (N pos : Z) (this : byte_range) :
  0 <= N < 2 ^ size_t_bits -> 0 <= pos ->
  range_begin this <= range_end this < range_begin this + 2 ^ size_t_bits ->
  forall p,
    static_array_ref.index true N this pos = Some p
    <-> (pos < N /\ range_begin this <> 0
         /\ range_begin this + N <= range_end this
         /\ p = range_begin this + pos).
Proof.
  intros HN Hpos Hrange p.
  unfold static_array_ref.index, static_array_ref.data, static_array_ref.size.
  assert (Hcheck :
    SBEPP_SIZE_CHECK true (addressof this) (end_ptr true this) 0 N = Some tt
    <-> range_begin this <> 0 /\ range_begin this + N <= range_end this).
  { rewrite size_check_spec by lia.
    unfold end_ptr, addressof. rewrite to_unsigned_small by lia.
    split.
    - intros H. destruct (H eq_refl) as [Hnz Hle]. split; [exact Hnz | lia].
    - intros [Hnz Hle] _. split; [exact Hnz | lia]. }
  split.
  - intros Hindex.
    apply obind_some in Hindex as ([] & Hassert & Hindex).
    apply obind_some in Hindex as (d & Hdata & [= <-]).
    apply obind_some in Hdata as ([] & Hdata & [= <-]).
    pose proof (proj1 (assert_spec _ _) Hassert eq_refl) as [= Hlt].
    apply Z.ltb_lt in Hlt. apply Hcheck in Hdata as [Hnz Hle].
    unfold addressof. repeat split; assumption || reflexivity.
  - intros (Hlt & Hnz & Hle & ->).
    replace (pos <? N) with true by (symmetry; apply Z.ltb_lt; exact Hlt).
    rewrite assert_true. cbn [obind].
    rewrite (proj2 Hcheck (conj Hnz Hle)). reflexivity.
Qed.

Lemma static_array_index_in_bounds_witness :
  static_array_ref.index true 4 {| range_begin := 100; range_end := 104 |} 3
  = Some 103.
Proof.
  apply (static_array_index_in_bounds 4 3
           {| range_begin := 100; range_end := 104 |}).
  - cbn. lia.
  - lia.
  - cbn. lia.
  - cbn. repeat split; lia.
Defined.

(** ** Flat groups *)

(** The product of a difference and a block length when both are computed
    as [int]. *)
Lemma multiply_int (Tn Tb : prim_type) (a b : Z) :
  is_signed Tn = false -> bits Tn <= 32 -> bits Tb < 32 ->
  - 2 ^ 31 <= a * b < 2 ^ 31 ->
  multiply (make_signed Tn) Tb a b = Some (a * b).
Proof.
  intros Hu Hn Hb Hprod.
  destruct Tn; try discriminate Hu; destruct Tb; cbn in Hn, Hb; try lia.
  all: unfold multiply, promoted_bits, promoted_signed, bits, sizeof,
         make_signed, is_signed; cbn.
  all: replace (-2147483648 <=? a * b) with true
         by (symmetry; apply Z.leb_le; lia).
  all: replace (a * b <? 2147483648) with true
         by (symmetry; apply Z.ltb_lt; lia).
  all: reflexivity.
Qed.

Lemma cast_difference_small (Tn : prim_type) (v : Z) :
  is_signed Tn = false -> - 2 ^ (bits Tn - 1) <= v < 2 ^ (bits Tn - 1) ->
  cast (make_signed Tn) v = v.
Proof.
  intros Hu Hv. pose proof (bits_pos Tn) as Hw.
  assert (Hcast : cast (make_signed Tn) v = to_signed (bits Tn) v)
    by (destruct Tn; try discriminate Hu; reflexivity).
  rewrite Hcast.
  rewrite <- (to_signed_to_unsigned (bits Tn) v) at 2 by lia.
  unfold to_signed, to_unsigned. rewrite Z.mod_mod by lia. reflexivity.
Qed.

Section FlatGroupFacts.

Variable native : endian.
Variable size_checks_enabled : bool.
Variable E : endian.
Variable D : dimension_type.
Variable this : byte_range.
Variable m : memory.

Hypothesis Hwf : dimension_wf D.

(** The dimension header lies in the buffer. *)
Hypothesis Hheader :
  SBEPP_SIZE_CHECK size_checks_enabled (addressof this)
    (end_ptr size_checks_enabled this) 0 (dimension_size D) = Some tt.

Local Abbreviation n :=
  (get_primitive native (field_type (dimension_numInGroup D)) E m
     (addressof this + field_offset (dimension_numInGroup D))).
Local Abbreviation block_length :=
  (get_primitive native (field_type (dimension_blockLength D)) E m
     (addressof this + field_offset (dimension_blockLength D))).
Local Abbreviation entry_at i :=
  {| entry_range :=
       {| range_begin := addressof this + dimension_size D + i * block_length;
          range_end := end_ptr size_checks_enabled this |};
     entry_block_length := block_length |}.

Lemma flat_header : group_get_header size_checks_enabled this D = Some this.
Proof. unfold group_get_header. rewrite Hheader. reflexivity. Qed.

Lemma flat_block_length :
  blockLength native size_checks_enabled E D this m = Some block_length.
Proof.
  apply (header_field_read native size_checks_enabled E D Hwf);
    [apply Hwf | exact Hheader].
Qed.

Lemma flat_size :
  group_size native size_checks_enabled E D this m = Some n.
Proof.
  unfold group_size. rewrite flat_header. cbn [obind].
  apply (header_field_read native size_checks_enabled E D Hwf);
    [apply Hwf | exact Hheader].
Qed.

Lemma flat_n_range : 0 <= n < 2 ^ bits (field_type (dimension_numInGroup D)).
Proof. apply unsigned_field_range. apply Hwf. Qed.

Lemma flat_block_length_range :
  0 <= block_length < 2 ^ bits (field_type (dimension_blockLength D)).
Proof. apply unsigned_field_range. apply Hwf. Qed.

Lemma flat_begin_spec :
  flat_begin native size_checks_enabled E D this m
  = Some {| ra_ptr := addressof this + dimension_size D;
            ra_block_length := block_length;
            ra_index := 0;
            ra_end := end_ptr size_checks_enabled this |}.
Proof.
  unfold flat_begin. rewrite flat_header. cbn [obind].
  rewrite flat_block_length. reflexivity.
Qed.

Lemma flat_index_spec (pos : Z) :
  bits (field_type (dimension_numInGroup D)) <= 32 ->
  bits (field_type (dimension_blockLength D)) < 32 ->
  0 <= pos < n ->
  pos < 2 ^ (bits (field_type (dimension_numInGroup D)) - 1) ->
  pos * block_length < 2 ^ 31 ->
  flat_index native size_checks_enabled E D this pos m = Some (entry_at pos).
Proof.
  intros Hn32 Hb32 Hpos Hrepr Hprod.
  pose proof flat_block_length_range as Hbl.
  assert (Hun : is_signed (field_type (dimension_numInGroup D)) = false)
    by apply Hwf.
  unfold flat_index. rewrite flat_size. cbn [obind].
  replace (pos <? n) with true by (symmetry; apply Z.ltb_lt; lia).
  rewrite assert_true. cbn [obind].
  rewrite flat_begin_spec. cbn [obind].
  unfold ra_subscript, ra_add, ra_add_assign, difference_type, index_type,
    block_length_type.
  cbn [ra_block_length ra_ptr ra_index ra_end].
  rewrite cast_difference_small by (assumption || lia).
  rewrite multiply_int; try assumption.
  - cbn [obind]. unfold ra_deref. cbn. reflexivity.
  - assert (0 <= pos * block_length) by (apply Z.mul_nonneg_nonneg; lia).
    lia.
Qed.

(** X18. Element access of a flat group whose dimension header lies in the
    buffer, for header fields narrower than [int] (a 32-bit [numInGroup] is
    allowed): for a position below [numInGroup] that the signed
    [difference_type] can represent, [operator[]] returns the entry at the
    group's address plus the header size plus [pos] times [blockLength],
    with the header's block length; [front()] is the entry at position 0
    and [back()] the one at position [numInGroup - 1]; with assertions
    compiled in, a position that is not below [numInGroup] reaches the
    assertion hook. *)
Theorem flat_group_element_access (pos : Z) :
  bits (field_type (dimension_numInGroup D)) <= 32 ->
  bits (field_type (dimension_blockLength D)) < 32 ->
  0 <= pos ->
  (pos < n ->
   pos < 2 ^ (bits (field_type (dimension_numInGroup D)) - 1) ->
   pos * block_length < 2 ^ 31 ->
   flat_index native size_checks_enabled E D this pos m = Some (entry_at pos))
  /\ (n <= pos -> size_checks_enabled = true ->
      flat_index native size_checks_enabled E D this pos m = None)
  /\ (0 < n ->
      flat_front native size_checks_enabled E D this m = Some (entry_at 0))
  /\ (0 < n -> n * block_length < 2 ^ 31 ->
      dimension_size D + n * block_length < 2 ^ size_t_bits ->
      flat_back native size_checks_enabled E D this m
      = Some (entry_at (n - 1))).
Proof.
  intros Hn32 Hb32 Hpos.
  pose proof flat_n_range as Hn. pose proof flat_block_length_range as Hbl.
  assert (Hnonempty : 0 < n ->
            SBEPP_ASSERT size_checks_enabled
              (e <- flat_empty native size_checks_enabled E D this m ;;
               Some (negb e)) = Some tt).
  { intros Hlt. unfold flat_empty. rewrite flat_size. cbn [obind].
    replace (n =? 0) with false by (symmetry; apply Z.eqb_neq; lia).
    apply assert_true. }
  split; [| split; [| split]].
  - intros Hlt Hrepr Hprod. apply flat_index_spec; try assumption. lia.
  - intros Hge Hen. unfold flat_index. rewrite flat_size. cbn [obind].
    replace (pos <? n) with false by (symmetry; apply Z.ltb_ge; lia).
    unfold SBEPP_ASSERT. rewrite Hen. reflexivity.
  - intros Hlt. unfold flat_front. rewrite (Hnonempty Hlt). cbn [obind].
    rewrite flat_begin_spec. cbn [obind]. unfold ra_deref. cbn.
    rewrite Z.add_0_r. reflexivity.
  - intros Hlt Hprod Hsum. unfold flat_back.
    rewrite (Hnonempty Hlt). cbn [obind].
    unfold flat_end.
    rewrite (flat_size_bytes_exact native size_checks_enabled E D Hwf this m
               Hheader).
    + cbn [obind]. rewrite flat_header. cbn [obind].
      rewrite flat_block_length. cbn [obind]. rewrite flat_size.
      cbn [obind]. unfold ra_deref, ra_decrement. cbn. f_equal. f_equal.
      f_equal. lia.
    + unfold product_bound.
      destruct (Z.max _ _ <? 32) eqn:Hmax; [lia |].
      apply Z.ltb_ge in Hmax.
      assert (2 ^ 31 < 2 ^ Z.max (bits (field_type (dimension_numInGroup D)))
                             (bits (field_type (dimension_blockLength D))))
        by (apply Z.pow_lt_mono_r; lia).
      lia.
    + exact Hsum.
Qed.

Lemma to_unsigned_sub (w a b : Z) :
  0 <= w -> 0 <= b <= to_unsigned w a ->
  to_unsigned w (a - b) = to_unsigned w a - b.
Proof.
  intros Hw Hb. unfold to_unsigned in *.
  assert (Hpos : 0 < 2 ^ w) by (apply Z.pow_pos_nonneg; lia).
  rewrite <- Zminus_mod_idemp_l. apply Z.mod_small.
  pose proof (Z.mod_pos_bound a (2 ^ w) Hpos). lia.
Qed.

(** The whole group lies in the buffer. *)
Local Abbreviation group_in_buffer :=
  (SBEPP_SIZE_CHECK size_checks_enabled (addressof this)
     (end_ptr size_checks_enabled this) 0
     (dimension_size D + n * block_length) = Some tt).

Lemma entry_in_buffer (i : Z) :
  0 < addressof this ->
  dimension_size D + n * block_length < 2 ^ size_t_bits ->
  group_in_buffer ->
  0 <= i < n ->
  SBEPP_SIZE_CHECK size_checks_enabled
    (addressof this + dimension_size D + i * block_length)
    (end_ptr size_checks_enabled this) 0 block_length = Some tt.
Proof.
  intros Haddr Hsum Hgroup Hi.
  pose proof flat_block_length_range as Hbl.
  pose proof (dimension_size_nonneg D Hwf) as Hdim.
  assert (Hstep : 0 <= i * block_length) by (apply Z.mul_nonneg_nonneg; lia).
  assert (Hnext : (i + 1) * block_length <= n * block_length)
    by (apply Z.mul_le_mono_nonneg_r; lia).
  assert (Hg : size_checks_enabled = true ->
               addressof this <> 0
               /\ 0 + (dimension_size D + n * block_length)
                  <= to_unsigned size_t_bits
                       (end_ptr size_checks_enabled this - addressof this)).
  { refine (proj1 (size_check_spec _ _ _ _ _ _) Hgroup). lia. }
  apply size_check_spec; [lia |].
  intros Hen. destruct (Hg Hen) as [_ Hspan]. split; [lia |].
  replace (end_ptr size_checks_enabled this
           - (addressof this + dimension_size D + i * block_length))
    with (end_ptr size_checks_enabled this - addressof this
          - (dimension_size D + i * block_length)) by lia.
  rewrite to_unsigned_sub; [lia | unfold size_t_bits; lia | lia].
Qed.

Lemma ra_for_each_steps (last_ptr : Z) (fuel : nat) :
  0 < addressof this ->
  dimension_size D + n * block_length < 2 ^ size_t_bits ->
  group_in_buffer ->
  forall (i : Z) (seen : list entry_base),
    0 <= i -> i + Z.of_nat fuel = n ->
    ra_for_each size_checks_enabled D fuel
      {| ra_ptr := addressof this + dimension_size D + i * block_length;
         ra_block_length := block_length;
         ra_index := i;
         ra_end := end_ptr size_checks_enabled this |}
      {| ra_ptr := last_ptr;
         ra_block_length := block_length;
         ra_index := n;
         ra_end := end_ptr size_checks_enabled this |}
      (fun entry visited => Some (visited ++ [entry])) seen
    = Some ({| ra_ptr := addressof this + dimension_size D + n * block_length;
               ra_block_length := block_length;
               ra_index := n;
               ra_end := end_ptr size_checks_enabled this |},
            seen ++ map (fun k => entry_at (i + Z.of_nat k)) (seq 0 fuel)).
Proof.
  intros Haddr Hsum Hgroup. pose proof flat_n_range as Hn.
  induction fuel as [| fuel IH]; intros i seen Hi Hfuel.
  - cbn [ra_for_each]. unfold ra_eqb. cbn [ra_index].
    replace (i =? n) with true by (symmetry; apply Z.eqb_eq; lia).
    cbn [seq map]. rewrite app_nil_r.
    replace i with n by lia. reflexivity.
  - cbn [ra_for_each]. unfold ra_eqb. cbn [ra_index].
    replace (i =? n) with false by (symmetry; apply Z.eqb_neq; lia).
    cbn [obind]. unfold ra_increment.
    cbn [ra_ptr ra_end ra_block_length ra_index].
    rewrite entry_in_buffer by (assumption || lia). cbn [obind].
    rewrite (as_index_small D Hwf) by lia.
    replace (addressof this + dimension_size D + i * block_length
             + block_length)
      with (addressof this + dimension_size D + (i + 1) * block_length)
      by lia.
    rewrite IH by lia.
    f_equal. f_equal. rewrite <- app_assoc. f_equal.
    cbn [seq map app]. unfold ra_deref.
    cbn [ra_ptr ra_end ra_block_length].
    rewrite Z.add_0_r. f_equal.
    rewrite <- seq_shift, map_map. apply map_ext. intros k.
    rewrite Nat2Z.inj_succ. do 3 f_equal. lia.
Qed.

(** X19. Random-access iteration over a flat group that lies in the buffer
    (its address is not null, and [numInGroup * blockLength] is computed
    without overflow): the range-[for] from [begin()] to [end()] visits
    exactly [numInGroup] entries, the [i]-th one at the group's address
    plus the header size plus [i * blockLength], every step passing its
    size check, and stops with the iterator at the group's address plus
    the group's [size_bytes()]. *)
Theorem flat_group_iteration :
  0 < addressof this ->
  n * block_length
  < product_bound (field_type (dimension_numInGroup D))
      (field_type (dimension_blockLength D)) ->
  dimension_size D + n * block_length < 2 ^ size_t_bits ->
  group_in_buffer ->
  flat_visit_entries native size_checks_enabled E D this m
  = Some ({| ra_ptr := addressof this + dimension_size D + n * block_length;
             ra_block_length := block_length;
             ra_index := n;
             ra_end := end_ptr size_checks_enabled this |},
          map (fun k => entry_at (Z.of_nat k)) (seq 0 (Z.to_nat n)))
  /\ flat_size_bytes native size_checks_enabled E D this m
     = Some (dimension_size D + n * block_length).
Proof.
  intros Haddr Hprod Hsum Hgroup. pose proof flat_n_range as Hn.
  assert (Hbytes : flat_size_bytes native size_checks_enabled E D this m
                   = Some (dimension_size D + n * block_length))
    by (apply (flat_size_bytes_exact native size_checks_enabled E D Hwf this m
                 Hheader); assumption).
  split; [| exact Hbytes].
  unfold flat_visit_entries. rewrite flat_begin_spec. cbn [obind].
  unfold flat_end. rewrite Hbytes. cbn [obind].
  rewrite flat_header. cbn [obind]. rewrite flat_block_length. cbn [obind].
  rewrite flat_size. cbn [obind ra_index].
  replace (addressof this + dimension_size D)
    with (addressof this + dimension_size D + 0 * block_length) by lia.
  rewrite (ra_for_each_steps _ (Z.to_nat n) Haddr Hsum Hgroup 0 [])
    by lia.
  cbn [app]. f_equal. f_equal; [f_equal; lia |].
  apply map_ext. intros k. f_equal. f_equal. lia.
Qed.

(** X20. [resize(count)] of a flat group whose header lies in the buffer
    and whose two header fields do not overlap, for a count the type of
    [numInGroup] can hold, stores the count in the header and nothing else:
    afterwards [size()] is [count], [empty()] tells whether it is zero, the
    block length is the one read before, and every byte outside the
    [numInGroup] field is unchanged (the entries are neither initialised
    nor moved). *)
Theorem flat_group_resize_then_size (count : Z) :
  0 <= count < 2 ^ bits (field_type (dimension_numInGroup D)) ->
  field_offset (dimension_blockLength D)
  + sizeof (field_type (dimension_blockLength D))
  <= field_offset (dimension_numInGroup D)
  \/ field_offset (dimension_numInGroup D)
     + sizeof (field_type (dimension_numInGroup D))
     <= field_offset (dimension_blockLength D) ->
  exists m',
    flat_resize native size_checks_enabled E D this count m = Ok tt m'
    /\ group_size native size_checks_enabled E D this m' = Some count
    /\ flat_empty native size_checks_enabled E D this m'
       = Some (count =? 0)
    /\ blockLength native size_checks_enabled E D this m'
       = Some block_length
    /\ (forall a,
          a < addressof this + field_offset (dimension_numInGroup D)
          \/ addressof this + field_offset (dimension_numInGroup D)
             + sizeof (field_type (dimension_numInGroup D)) <= a ->
          m' a = m a).
Proof.
  intros Hcount Hdisjoint.
  pose proof Hwf as (Hdim & Hbl & Hn & Hsbl & Hsn).
  set (T := field_type (dimension_numInGroup D)) in *.
  set (p := addressof this + field_offset (dimension_numInGroup D)).
  exists (set_primitive native T E m p count).
  assert (Hsize : group_size native size_checks_enabled E D this
                    (set_primitive native T E m p count) = Some count).
  { unfold group_size. rewrite flat_header. cbn [obind]. unfold numInGroup.
    rewrite (header_field_read native size_checks_enabled E D Hwf)
      by (assumption || exact Hheader).
    f_equal. apply get_set_primitive. unfold in_type. fold T.
    rewrite Hsn. exact Hcount. }
  split; [| split; [| split; [| split]]].
  - unfold flat_resize, bind, lift. rewrite flat_header.
    unfold composite_set, set_value, bind, lift, write.
    assert (Hcheck : SBEPP_SIZE_CHECK size_checks_enabled (addressof this)
              (end_ptr size_checks_enabled this)
              (field_offset (dimension_numInGroup D))
              (sizeof (field_type (dimension_numInGroup D))) = Some tt).
    { destruct Hn as [Hoff Hin].
      pose proof (sizeof_cases (field_type (dimension_numInGroup D))).
      apply (size_check_weaken _ _ _ 0 (dimension_size D));
        [lia | lia | exact Hheader]. }
    rewrite Hcheck. reflexivity.
  - exact Hsize.
  - unfold flat_empty. rewrite Hsize. reflexivity.
  - unfold blockLength.
    rewrite (header_field_read native size_checks_enabled E D Hwf)
      by (assumption || exact Hheader).
    f_equal. apply get_primitive_ext. intros a Ha.
    apply set_primitive_frame. fold T. unfold p. lia.
  - intros a Ha. apply set_primitive_frame. exact Ha.
Qed.

End FlatGroupFacts.

Lemma standard_dimension_wf :
  dimension_wf
    {| dimension_size := 4;
       dimension_blockLength := {| field_offset := 0; field_type := uint16_t |};
       dimension_numInGroup := {| field_offset := 2; field_type := uint16_t |} |}.
Proof. unfold dimension_wf, field_inside. cbn. repeat split; lia. Qed.

Lemma flat_group_element_access_witness :
  let D := {| dimension_size := 4;
              dimension_blockLength :=
                {| field_offset := 0; field_type := uint16_t |};
              dimension_numInGroup :=
                {| field_offset := 2; field_type := uint16_t |} |} in
  let this := {| range_begin := 100; range_end := 110 |} in
  let m := fun a => if a =? 100 then 2 else if a =? 102 then 3 else 0 in
  flat_index little true little D this 1 m
  = Some {| entry_range := {| range_begin := 106; range_end := 110 |};
            entry_block_length := 2 |}
  /\ flat_index little true little D this 3 m = None
  /\ flat_back little true little D this m
     = Some {| entry_range := {| range_begin := 108; range_end := 110 |};
               entry_block_length := 2 |}.
Proof.
  cbv zeta.
  destruct (flat_group_element_access little true little
              {| dimension_size := 4;
                 dimension_blockLength :=
                   {| field_offset := 0; field_type := uint16_t |};
                 dimension_numInGroup :=
                   {| field_offset := 2; field_type := uint16_t |} |}
              {| range_begin := 100; range_end := 110 |}
              (fun a => if a =? 100 then 2 else if a =? 102 then 3 else 0)
              standard_dimension_wf eq_refl 1)
    as (Hat & _ & _ & Hback).
  - cbn. lia.
  - cbn. lia.
  - lia.
  - destruct (flat_group_element_access little true little
                {| dimension_size := 4;
                   dimension_blockLength :=
                     {| field_offset := 0; field_type := uint16_t |};
                   dimension_numInGroup :=
                     {| field_offset := 2; field_type := uint16_t |} |}
                {| range_begin := 100; range_end := 110 |}
                (fun a => if a =? 100 then 2 else if a =? 102 then 3 else 0)
                standard_dimension_wf eq_refl 3)
      as (_ & Hpast & _ & _).
    + cbn. lia.
    + cbn. lia.
    + lia.
    + split; [| split].
      * apply Hat; vm_compute; reflexivity.
      * apply Hpast; [vm_compute; discriminate | reflexivity].
      * apply Hback; vm_compute; reflexivity.
Defined.

Lemma flat_group_iteration_witness :
  let D := {| dimension_size := 4;
              dimension_blockLength :=
                {| field_offset := 0; field_type := uint16_t |};
              dimension_numInGroup :=
                {| field_offset := 2; field_type := uint16_t |} |} in
  let this := {| range_begin := 100; range_end := 110 |} in
  let m := fun a => if a =? 100 then 2 else if a =? 102 then 3 else 0 in
  flat_visit_entries little true little D this m
  = Some ({| ra_ptr := 110; ra_block_length := 2; ra_index := 3;
             ra_end := 110 |},
          [ {| entry_range := {| range_begin := 104; range_end := 110 |};
               entry_block_length := 2 |};
            {| entry_range := {| range_begin := 106; range_end := 110 |};
               entry_block_length := 2 |};
            {| entry_range := {| range_begin := 108; range_end := 110 |};
               entry_block_length := 2 |} ]).
Proof.
  cbv zeta.
  refine (proj1 (flat_group_iteration little true little
            {| dimension_size := 4;
               dimension_blockLength :=
                 {| field_offset := 0; field_type := uint16_t |};
               dimension_numInGroup :=
                 {| field_offset := 2; field_type := uint16_t |} |}
            {| range_begin := 100; range_end := 110 |}
            (fun a => if a =? 100 then 2 else if a =? 102 then 3 else 0)
            standard_dimension_wf eq_refl _ _ _ _)).
  - cbn. lia.
  - vm_compute. reflexivity.
  - vm_compute. reflexivity.
  - vm_compute. reflexivity.
Defined.

Lemma flat_group_resize_then_size_witness :
  let D := {| dimension_size := 4;
              dimension_blockLength :=
                {| field_offset := 0; field_type := uint16_t |};
              dimension_numInGroup :=
                {| field_offset := 2; field_type := uint16_t |} |} in
  let this := {| range_begin := 100; range_end := 110 |} in
  let m := fun a => if a =? 100 then 2 else if a =? 102 then 3 else 0 in
  exists m',
    flat_resize little true little D this 1 m = Ok tt m'
    /\ group_size little true little D this m' = Some 1
    /\ blockLength little true little D this m' = Some 2.
Proof.
  cbv zeta.
  destruct (flat_group_resize_then_size little true little
              {| dimension_size := 4;
                 dimension_blockLength :=
                   {| field_offset := 0; field_type := uint16_t |};
                 dimension_numInGroup :=
                   {| field_offset := 2; field_type := uint16_t |} |}
              {| range_begin := 100; range_end := 110 |}
              (fun a => if a =? 100 then 2 else if a =? 102 then 3 else 0)
              standard_dimension_wf eq_refl 1)
    as (m' & Hrun & Hsize & _ & Hblock & _).
  - cbn. lia.
  - left. cbn. lia.
  - exists m'. split; [exact Hrun | split; [exact Hsize | exact Hblock]].
Defined.
(** ** Cursor-based and offset-based accessors *)

Lemma check_in_range (enabled : bool) (r : byte_range)
    (begin_ offset size : Z) :
  0 < begin_ -> 0 <= offset + size ->
  begin_ + offset + size <= range_end r < 2 ^ size_t_bits ->
  SBEPP_SIZE_CHECK enabled begin_ (end_ptr enabled r) offset size = Some tt.
Proof.
  intros Hb Hnn Hin. apply size_check_spec; [lia |].
  intros Hen. unfold end_ptr. rewrite Hen. split; [lia |].
  rewrite to_unsigned_small; lia.
Qed.

Section CursorAccessors.

Variable native : endian.
Variable size_checks_enabled : bool.
Variable E : endian.
Variable view : level_view.

(** The member's type, its offset from the end of the previous member and
    its offset from the start of the view. *)
Variable T : prim_type.
Variable offset absolute_offset : Z.

(** The cursor. *)
Variable ptr : Z.

Local Abbreviation base := (addressof (view_range view)).

(** The cursor is where the previous member ended. *)
Hypothesis Hcursor : ptr + offset = base + absolute_offset.
Hypothesis Hoffset : 0 <= offset <= absolute_offset.

(** The member lies in the view's buffer. *)
Hypothesis Hbase : 0 < base.
Hypothesis Hinside :
  base + absolute_offset + sizeof T <= range_end (view_range view)
  < 2 ^ size_t_bits.

Lemma cursor_check :
  SBEPP_SIZE_CHECK size_checks_enabled ptr
    (view_end_ptr size_checks_enabled view) offset (sizeof T) = Some tt.
Proof.
  pose proof (sizeof_cases T). apply check_in_range; lia.
Qed.

Lemma offset_check :
  SBEPP_SIZE_CHECK size_checks_enabled base
    (view_end_ptr size_checks_enabled view) absolute_offset (sizeof T)
  = Some tt.
Proof.
  pose proof (sizeof_cases T). apply check_in_range; lia.
Qed.

(** X21. A fixed-block member that lies in the view's buffer, accessed with
    the cursor standing where the previous member ended: the plain cursor
    and the [init], [dont_move] and [init_dont_move] wrappers all return the
    value the offset-based [get_value] returns.  The plain cursor and [init]
    leave the cursor right after the member, [dont_move] leaves it where it
    was, and [init_dont_move] leaves it where a following plain access with
    the same relative offset reads the same member again. *)
Theorem cursor_reads_agree_with_offset_read (m : memory) :
  let v := get_primitive native T E m (base + absolute_offset) in
  let after := base + absolute_offset + sizeof T in
  get_value native size_checks_enabled T E (view_range view)
    absolute_offset m = Some v
  /\ cursor_get_value native size_checks_enabled E view T offset ptr m
     = Some (v, after)
  /\ init_get_value native size_checks_enabled E view T absolute_offset m
     = Some (v, after)
  /\ dont_move_get_value native size_checks_enabled E view T offset ptr m
     = Some (v, ptr)
  /\ init_dont_move_get_value native size_checks_enabled E view T offset
       absolute_offset m = Some (v, ptr)
  /\ (r <- init_dont_move_get_value native size_checks_enabled E view T
             offset absolute_offset m ;;
      cursor_get_value native size_checks_enabled E view T offset (snd r) m)
     = Some (v, after).
Proof.
  intros v after. subst v after.
  pose proof cursor_check as Hc. pose proof offset_check as Ho.
  unfold view_end_ptr in Hc, Ho.
  assert (Hplain : cursor_get_value native size_checks_enabled E view T
                     offset ptr m
                   = Some (get_primitive native T E m (base + absolute_offset),
                           base + absolute_offset + sizeof T)).
  { unfold cursor_get_value, view_end_ptr. rewrite Hc. cbn [obind].
    rewrite Hcursor. reflexivity. }
  assert (Hback : base + absolute_offset - offset = ptr) by lia.
  assert (Hidm : init_dont_move_get_value native size_checks_enabled E view T
                   offset absolute_offset m
                 = Some (get_primitive native T E m (base + absolute_offset),
                         ptr)).
  { unfold init_dont_move_get_value, view_end_ptr. rewrite Ho. cbn [obind].
    rewrite Hback. reflexivity. }
  repeat split.
  - unfold get_value. rewrite Ho. reflexivity.
  - exact Hplain.
  - unfold init_get_value, view_end_ptr. rewrite Ho. reflexivity.
  - unfold dont_move_get_value, view_end_ptr. rewrite Hc. cbn [obind].
    rewrite Hcursor. reflexivity.
  - exact Hidm.
  - rewrite Hidm. cbn [obind snd]. exact Hplain.
Qed.

(** X22. Writing such a member through the plain cursor stores the value
    where the offset-based accessor reads it: afterwards [get_value] at the
    member's absolute offset returns the value written, the cursor stands
    right after the member, and no byte outside the member has changed. *)
Theorem cursor_write_then_offset_read (value : Z) (m : memory) :
  in_type T value ->
  exists m',
    cursor_set_value native size_checks_enabled E view T offset value ptr m
    = Ok (base + absolute_offset + sizeof T) m'
    /\ get_value native size_checks_enabled T E (view_range view)
         absolute_offset m' = Some value
    /\ set_value native size_checks_enabled T E (view_range view)
         absolute_offset value m = Ok tt m'
    /\ (forall a,
          a < base + absolute_offset
          \/ base + absolute_offset + sizeof T <= a ->
          m' a = m a).
Proof.
  intros Hvalue.
  pose proof cursor_check as Hc. pose proof offset_check as Ho.
  unfold view_end_ptr in Hc, Ho.
  exists (set_primitive native T E m (base + absolute_offset) value).
  repeat split.
  - unfold cursor_set_value, bind, lift, write, ret, view_end_ptr.
    rewrite Hc, Hcursor. reflexivity.
  - unfold get_value. rewrite Ho. cbn [obind]. f_equal.
    apply get_set_primitive. exact Hvalue.
  - unfold set_value, bind, lift, write. rewrite Ho. reflexivity.
  - intros a Ha. apply set_primitive_frame. exact Ha.
Qed.

End CursorAccessors.

Lemma cursor_reads_agree_with_offset_read_witness :
  let view :=
    entry_view {| entry_range := {| range_begin := 100; range_end := 110 |};
                  entry_block_length := 6 |} in
  let m := fun a => if a =? 104 then 7 else 0 in
  get_value little true uint16_t little (view_range view) 4 m = Some 7
  /\ cursor_get_value little true little view uint16_t 2 102 m = Some (7, 106)
  /\ init_dont_move_get_value little true little view uint16_t 2 4 m
     = Some (7, 102).
Proof.
  cbv zeta.
  destruct (cursor_reads_agree_with_offset_read little true little
              (entry_view
                 {| entry_range := {| range_begin := 100; range_end := 110 |};
                    entry_block_length := 6 |})
              uint16_t 2 4 102)
    with (m := fun a => if a =? 104 then 7 else 0)
    as (Hget & Hplain & _ & _ & Hkeep & _).
  - reflexivity.
  - lia.
  - cbn. lia.
  - cbn. lia.
  - split; [exact Hget | split; [exact Hplain | exact Hkeep]].
Defined.

Lemma cursor_write_then_offset_read_witness :
  let view :=
    entry_view {| entry_range := {| range_begin := 100; range_end := 110 |};
                  entry_block_length := 6 |} in
  exists m',
    cursor_set_value little true little view uint16_t 2 515 102 (fun _ => 0)
    = Ok 106 m'
    /\ get_value little true uint16_t little (view_range view) 4 m'
       = Some 515.
Proof.
  cbv zeta.
  destruct (cursor_write_then_offset_read little true little
              (entry_view
                 {| entry_range := {| range_begin := 100; range_end := 110 |};
                    entry_block_length := 6 |})
              uint16_t 2 4 102 eq_refl ltac:(lia) ltac:(cbn; lia)
              ltac:(cbn; lia) 515 (fun _ => 0))
    as (m' & Hrun & Hread & _).
  - cbn. lia.
  - exists m'. split; [exact Hrun | exact Hread].
Defined.
(** ** [size_bytes_checked] on arbitrary memory *)

Ltac run_unchecked :=
  cbv [access_member cursor_get_value cursor_get_last_value
       cursor_get_static_field_view cursor_get_last_static_field_view
       cursor_get_group_view cursor_get_first_group_view
       cursor_get_data_view cursor_get_first_data_view
       dynamic_array_ref.size_bytes dynamic_array_ref.size
       dynamic_array_ref.sbe_size group_get_header group_size numInGroup
       blockLength get_header_size init_cursor
       next_level get_level get_block_length message_get_level
       message_get_block_length message_get_header composite_get get_value
       SBEPP_SIZE_CHECK SBEPP_ASSERT obind].

Ltac unchecked_returns :=
  let H := fresh "H" in
  run_unchecked; intros H; discriminate H.

Section VisitorSafety.

Variable native : endian.
Variable E : endian.
Variable m : memory.

Local Abbreviation vsize := size_bytes_checked_visitor.size.
Local Abbreviation vgbl := size_bytes_checked_visitor.group_block_length.

(** The visitor's remaining size and the block length it holds are not
    negative. *)
Local Abbreviation sound v := (0 <= vsize v /\ 0 <= vgbl v).

(** A visiting step does not raise the remaining size, and fails only
    through a size check. *)
Local Abbreviation spends checks v r :=
  (match r with
   | Some s => sound (visitor s) /\ vsize (visitor s) <= vsize v
   | None => checks = true
   end).

Lemma access_member_checked (checks : bool) (view : level_view)
    (f : block_member) (last : bool) (c : Z) :
  access_member native checks E view f last c m = None -> checks = true.
Proof.
  destruct checks; [reflexivity |].
  unfold access_member. destruct (kind f), last, view; unchecked_returns.
Qed.

Lemma visit_fields_checked (checks : bool) (view : level_view)
    (fields : list block_member) :
  forall c, visit_fields native checks E view fields c m = None ->
            checks = true.
Proof.
  induction fields as [| f rest IH]; intros c; cbn [visit_fields].
  - discriminate.
  - destruct rest as [| f' rest'].
    + apply access_member_checked.
    + destruct (access_member native checks E view f false c m) as [c' |]
        eqn:Hf; cbn [obind].
      * apply IH.
      * intros _. revert Hf. apply access_member_checked.
Qed.

Lemma data_view_checked (checks : bool) (view : level_view) (T : prim_type)
    (first : bool) (c : Z) :
  (if first
   then cursor_get_first_data_view native checks E view T m
   else cursor_get_data_view native checks E view T c m) = None ->
  checks = true.
Proof.
  destruct checks; [reflexivity |]. destruct first, view; unchecked_returns.
Qed.

Lemma group_view_checked (checks : bool) (view : level_view)
    (D : dimension_type) (first : bool) (c : Z) :
  (if first
   then cursor_get_first_group_view native checks E view D m
   else cursor_get_group_view checks view D c) = None ->
  checks = true.
Proof.
  destruct checks; [reflexivity |]. destruct first, view; unchecked_returns.
Qed.

Lemma data_size_bytes_checked (checks : bool) (T : prim_type)
    (d : byte_range) :
  dynamic_array_ref.size_bytes native checks T E d m = None -> checks = true.
Proof. destruct checks; [reflexivity |]. unchecked_returns. Qed.

Lemma group_header_checked (checks : bool) (this : byte_range)
    (D : dimension_type) :
  group_get_header checks this D = None -> checks = true.
Proof. destruct checks; [reflexivity |]. unchecked_returns. Qed.

Lemma composite_get_checked (checks : bool) (r : byte_range)
    (f : header_field) :
  composite_get native checks E r f m = None -> checks = true.
Proof. destruct checks; [reflexivity |]. unchecked_returns. Qed.

Lemma group_size_checked (checks : bool) (this : byte_range)
    (D : dimension_type) :
  group_size native checks E D this m = None -> checks = true.
Proof. destruct checks; [reflexivity |]. unchecked_returns. Qed.

Lemma composite_get_range (checks : bool) (r : byte_range) (f : header_field)
    (x : Z) :
  is_signed (field_type f) = false ->
  composite_get native checks E r f m = Some x ->
  0 <= x < 2 ^ bits (field_type f).
Proof.
  intros Hu Hx. unfold composite_get, get_value in Hx.
  apply obind_some in Hx as (_ & _ & [= <-]).
  apply get_primitive_range. exact Hu.
Qed.

Lemma validate_spends (n : Z) (v : size_bytes_checked_visitor.t) :
  0 <= n -> sound v ->
  sound (snd (size_bytes_checked_visitor.validate_and_subtract n v))
  /\ vsize (snd (size_bytes_checked_visitor.validate_and_subtract n v))
     <= vsize v.
Proof.
  intros Hn [Hs Hg]. unfold size_bytes_checked_visitor.validate_and_subtract.
  destruct (size_bytes_checked_visitor.size v <? n) eqn:Hlt; cbn.
  - lia.
  - apply Z.ltb_ge in Hlt. lia.
Qed.

Lemma spends_trans (checks : bool) (v v1 : size_bytes_checked_visitor.t)
    (r : option step) :
  vsize v1 <= vsize v -> spends checks v1 r -> spends checks v r.
Proof.
  intros Hle Hr. destruct r as [s |]; [| exact Hr].
  destruct Hr as [Hs Hle']. split; [exact Hs | lia].
Qed.

Lemma on_data_spends (checks : bool) (d : byte_range) (T : prim_type)
    (v : size_bytes_checked_visitor.t) :
  sound v ->
  match on_data native checks E d T v m with
  | Some r => sound (snd r) /\ vsize (snd r) <= vsize v
  | None => checks = true
  end.
Proof.
  intros Hv. unfold on_data.
  destruct (dynamic_array_ref.size_bytes native checks T E d m) as [size |]
    eqn:Hsize; cbn [obind].
  - cbn [snd]. apply validate_spends; [| exact Hv].
    unfold dynamic_array_ref.size_bytes in Hsize.
    apply obind_some in Hsize as (s & _ & [= <-]).
    apply to_unsigned_range. unfold size_t_bits. lia.
  - revert Hsize. apply data_size_bytes_checked.
Qed.

Lemma visit_data_spends (checks : bool) (view : level_view)
    (data : list prim_type) :
  forall first c v,
    sound v ->
    spends checks v (visit_data native checks E view data first c v m).
Proof.
  induction data as [| T rest IH]; intros first c v Hv; cbn [visit_data].
  - cbn [visitor]. split; [exact Hv | lia].
  - destruct (if first
              then cursor_get_first_data_view native checks E view T m
              else cursor_get_data_view native checks E view T c m)
      as [d |] eqn:Hd; cbn [obind].
    + pose proof (on_data_spends checks (fst d) T v Hv) as Hon.
      destruct (on_data native checks E (fst d) T v m) as [r |];
        cbn [obind]; [| exact Hon].
      destruct (fst r); [exact Hon |].
      apply (spends_trans checks v (snd r)); [apply Hon |].
      apply IH. apply Hon.
    + revert Hd. apply data_view_checked.
Qed.

Section Children.

Variable checks : bool.
Variable visit_children : children_visitor.

Hypothesis Hchildren :
  forall view c v, sound v -> spends checks v (visit_children view c v m).

Lemma on_entry_spends (e : entry_base) (c : Z)
    (v : size_bytes_checked_visitor.t) :
  sound v ->
  spends checks v (on_entry visit_children e c v m).
Proof.
  intros Hv. unfold on_entry.
  pose proof (validate_spends (vgbl v) v (proj2 Hv) Hv) as [Hs Hle].
  destruct (negb (fst (size_bytes_checked_visitor.validate_and_subtract
                         (vgbl v) v))).
  - cbn [visitor]. split; assumption.
  - pose proof (Hchildren (entry_view e) c _ Hs) as Hc.
    destruct (visit_children (entry_view e) c _ m) as [s |];
      cbn [obind]; [| exact Hc].
    cbn [visitor]. destruct Hc as [Hs' Hle']. split; [exact Hs' | lia].
Qed.

Lemma entries_loop_spends (entry_is_empty : bool) (D : dimension_type)
    (last block_length end_ : Z) :
  dimension_wf D ->
  0 <= last < 2 ^ bits (field_type (dimension_numInGroup D)) ->
  forall (fuel : nat) (index c : Z) (v : size_bytes_checked_visitor.t),
    0 <= index -> index + Z.of_nat fuel = last -> sound v ->
    spends checks v
      (entries_loop visit_children entry_is_empty D fuel index last
         block_length end_ c v m).
Proof.
  intros Hwf Hlast.
  induction fuel as [| fuel IH]; intros index c v Hindex Hfuel Hv;
    cbn [entries_loop].
  - replace (index =? last) with true by (symmetry; apply Z.eqb_eq; lia).
    cbn [visitor]. split; [exact Hv | lia].
  - destruct (index =? last).
    + cbn [visitor]. split; [exact Hv | lia].
    + pose proof (on_entry_spends
                    (fst (entry_from_cursor entry_is_empty c end_
                            block_length))
                    (snd (entry_from_cursor entry_is_empty c end_
                            block_length)) v Hv) as Hon.
      cbv zeta.
      destruct (on_entry visit_children _ _ v m) as [r |];
        cbn [obind]; [| exact Hon].
      destruct (stop r); [exact Hon |].
      apply (spends_trans checks v (visitor r)); [apply Hon |].
      apply IH; [| | apply Hon].
      * rewrite (as_index_small D Hwf) by lia. lia.
      * rewrite (as_index_small D Hwf) by lia. lia.
Qed.

Lemma group_visit_children_spends (entry_is_empty : bool)
    (this : byte_range) (D : dimension_type) (c : Z)
    (v : size_bytes_checked_visitor.t) :
  dimension_wf D -> sound v ->
  spends checks v
    (group_visit_children native checks E visit_children entry_is_empty this
       D c v m).
Proof.
  intros Hwf Hv. unfold group_visit_children.
  destruct (group_get_header checks this D) as [header |] eqn:Hheader;
    cbn [obind]; [| revert Hheader; apply group_header_checked].
  destruct (blockLength native checks E D header m) as [block_length |]
    eqn:Hbl; cbn [obind];
    [| revert Hbl; unfold blockLength; apply composite_get_checked].
  destruct (group_size native checks E D this m) as [n |] eqn:Hn;
    cbn [obind]; [| revert Hn; apply group_size_checked].
  assert (Hrange : 0 <= n < 2 ^ bits (field_type (dimension_numInGroup D))).
  { unfold group_size in Hn. apply obind_some in Hn as (h & _ & Hn).
    unfold numInGroup in Hn.
    apply (composite_get_range checks h _ n); [apply Hwf | exact Hn]. }
  rewrite Z.add_0_l, (as_index_small D Hwf) by exact Hrange.
  apply entries_loop_spends; try assumption; lia.
Qed.

Lemma on_group_spends (entry_is_empty : bool) (g : byte_range)
    (D : dimension_type) (c : Z) (v : size_bytes_checked_visitor.t) :
  dimension_wf D -> sound v ->
  spends checks v
    (on_group native checks E visit_children entry_is_empty g D c v m).
Proof.
  intros Hwf Hv. unfold on_group.
  destruct (group_get_header checks g D) as [header |] eqn:Hheader;
    cbn [obind]; [| revert Hheader; apply group_header_checked].
  pose proof (validate_spends (dimension_size D) v
                (dimension_size_nonneg D Hwf) Hv) as [Hs Hle].
  cbv zeta.
  destruct (negb (fst (size_bytes_checked_visitor.validate_and_subtract
                         (dimension_size D) v))).
  - cbn [visitor]. split; assumption.
  - destruct (blockLength native checks E D header m) as [block_length |]
      eqn:Hbl; cbn [obind];
      [| revert Hbl; unfold blockLength; apply composite_get_checked].
    match goal with
    | |- context [group_visit_children _ _ _ _ _ _ _ _ ?v1 _] =>
        pose proof (group_visit_children_spends entry_is_empty g D c v1 Hwf)
          as Hgroup
    end.
    unfold size_bytes_checked_visitor.set_group_block_length in Hgroup.
    cbn [snd size_bytes_checked_visitor.size
         size_bytes_checked_visitor.group_block_length] in Hgroup.
    assert (Hto : 0 <= to_size_t block_length)
      by (apply to_unsigned_range; unfold size_t_bits; lia).
    specialize (Hgroup (conj (proj1 Hs) Hto)).
    destruct (group_visit_children _ _ _ _ _ _ _ _ _ _) as [s |];
      cbn [obind]; [| exact Hgroup].
    unfold size_bytes_checked_visitor.set_group_block_length.
    cbn [visitor fst snd size_bytes_checked_visitor.size
         size_bytes_checked_visitor.group_block_length].
    destruct Hgroup as [[Hs' _] Hle']. destruct Hs as [Hs0 Hg]. lia.
Qed.

End Children.

Lemma visit_schema_spends (checks : bool) :
  (forall s, schema_wf s ->
     forall view c v, sound v ->
       spends checks v (visit_level native checks E s view c v m))
  /\ (forall gs, groups_wf gs ->
        forall view first c v, sound v ->
          spends checks v
            (visit_groups native checks E gs view first c v m)).
Proof.
  apply schema_mutind.
  - intros fields groups IHgroups data [Hgroups Hdata] view c v Hv.
    rewrite (visit_level_eq native checks E m).
    destruct (visit_fields native checks E view fields c m) as [c' |]
      eqn:Hfields; cbn [obind];
      [| revert Hfields; apply visit_fields_checked].
    pose proof (IHgroups Hgroups view true c' v Hv) as Hg.
    destruct (visit_groups native checks E groups view true c' v m)
      as [r |]; cbn [obind]; [| exact Hg].
    destruct (stop r); [exact Hg |].
    apply (spends_trans checks v (visitor r)); [apply Hg |].
    apply visit_data_spends. apply Hg.
  - intros _ view first c v Hv. cbn. split; [exact Hv | lia].
  - intros D entry IHentry rest IHrest (HD & Hentry & Hrest) view first c v
      Hv.
    rewrite (visit_groups_eq native checks E m).
    destruct (if first
              then cursor_get_first_group_view native checks E view D m
              else cursor_get_group_view checks view D c) as [g |] eqn:Hg;
      cbn [obind]; [| revert Hg; apply group_view_checked].
    pose proof (on_group_spends checks (visit_level native checks E entry)
                  (IHentry Hentry) (has_no_members entry) (fst g) D (snd g)
                  v HD Hv) as Hon.
    destruct (on_group native checks E _ _ _ _ _ v m) as [r |];
      cbn [obind]; [| exact Hon].
    destruct (stop r); [exact Hon |].
    apply (spends_trans checks v (visitor r)); [apply Hon |].
    apply IHrest; [exact Hrest | apply Hon].
Qed.

Lemma visit_spends (checks : bool) (view : top_view) (c : Z)
    (v : size_bytes_checked_visitor.t) :
  top_view_wf view -> sound v ->
  match visit native checks E view c v m with
  | Some v' => 0 <= vsize v' <= vsize v
  | None => checks = true
  end.
Proof.
  intros Hwf Hv. destruct (visit_schema_spends checks) as [Hlevel _].
  destruct view as [this H schema | this D entry]; cbn [visit].
  - destruct Hwf as [(Hsize & [Hoff Hin] & Hu) Hschema]. unfold on_message.
    destruct (message_get_header checks this H) as [header |] eqn:Hheader;
      cbn [obind];
      [| revert Hheader; destruct checks; [reflexivity | unchecked_returns]].
    assert (Hnn : 0 <= message_header_size H).
    { pose proof (sizeof_cases (field_type (message_blockLength H))). lia. }
    pose proof (validate_spends (message_header_size H) v Hnn Hv)
      as [Hs Hle].
    cbv zeta.
    destruct (negb (fst (size_bytes_checked_visitor.validate_and_subtract
                           (message_header_size H) v))); [lia |].
    destruct (composite_get native checks E header (message_blockLength H) m)
      as [block_length |] eqn:Hbl; cbn [obind];
      [| revert Hbl; apply composite_get_checked].
    assert (Hto : 0 <= to_size_t block_length)
      by (apply to_unsigned_range; unfold size_t_bits; lia).
    pose proof (validate_spends (to_size_t block_length) _ Hto Hs)
      as [Hs' Hle'].
    destruct (negb (fst (size_bytes_checked_visitor.validate_and_subtract
                           (to_size_t block_length) _))); [lia |].
    pose proof (Hlevel schema Hschema (message_view this H) c _ Hs') as Hc.
    destruct (visit_level native checks E schema _ c _ m) as [s |];
      cbn [obind]; [| exact Hc].
    lia.
  - destruct Hwf as [HD Hentry].
    pose proof (on_group_spends checks (visit_level native checks E entry)
                  (Hlevel entry Hentry) (has_no_members entry) this D c v HD
                  Hv) as Hon.
    destruct (on_group native checks E _ _ _ _ _ v m) as [s |];
      cbn [obind]; [| exact Hon].
    lia.
Qed.

End VisitorSafety.

(** X23. On any memory, whatever the header fields hold, for a view whose
    header types are well-formed and a size that is not negative:
    [size_bytes_checked] never reports more bytes than the size it was
    given, an invalid result always carries size 0, and the traversal ends
    without a result only through a size check (with the checks compiled
    out it always returns). *)
Theorem size_bytes_checked_within_size (native E : endian)
    (size_checks_enabled : bool) (view : top_view) (size : Z) (m : memory) :
  top_view_wf view -> 0 <= size ->
  match size_bytes_checked native size_checks_enabled E view size m with
  | Some r =>
      if result_valid r then 0 <= result_size r <= size
      else result_size r = 0
  | None => size_checks_enabled = true
  end.
Proof.
  intros Hwf Hsize. unfold size_bytes_checked.
  destruct (addressof (top_range view) =? 0); [reflexivity |].
  destruct (get_header_size size_checks_enabled view) as [header_size |]
    eqn:Hheader; cbn [obind].
  2: { revert Hheader. destruct size_checks_enabled; [reflexivity |].
       destruct view; unchecked_returns. }
  destruct (size <? header_size); [reflexivity |].
  destruct (init_cursor size_checks_enabled view) as [c |] eqn:Hc;
    cbn [obind].
  2: { revert Hc. destruct size_checks_enabled; [reflexivity |].
       destruct view; unchecked_returns. }
  pose proof (visit_spends native E m size_checks_enabled view c
                (size_bytes_checked_visitor.make size) Hwf) as Hv.
  cbn [size_bytes_checked_visitor.make size_bytes_checked_visitor.size
       size_bytes_checked_visitor.group_block_length] in Hv.
  specialize (Hv ltac:(lia)).
  destruct (visit native size_checks_enabled E view c _ m) as [v |];
    cbn [obind]; [| exact Hv].
  destruct (size_bytes_checked_visitor.is_valid v); cbn.
  - unfold size_bytes_checked_visitor.get_size. lia.
  - reflexivity.
Qed.

Lemma size_bytes_checked_within_size_witness :
  let view :=
    top_group {| range_begin := 100; range_end := 110 |}
      {| dimension_size := 4;
         dimension_blockLength :=
           {| field_offset := 0; field_type := uint16_t |};
         dimension_numInGroup :=
           {| field_offset := 2; field_type := uint16_t |} |}
      (Level [] no_groups []) in
  match size_bytes_checked little true little view 12
          (fun a => if a =? 100 then 2 else if a =? 102 then 3 else 0) with
  | Some r =>
      if result_valid r then 0 <= result_size r <= 12 else result_size r = 0
  | None => true = true
  end.
Proof.
  cbv zeta. apply size_bytes_checked_within_size.
  - split; [exact standard_dimension_wf | cbn; auto].
  - lia.
Defined.
